(* ===================================================================== *)
(*  js/diagrams.js - diagram interaction controllers                     *)
(*                                                                       *)
(*  A shallow embedding of the five controller classes of the file       *)
(*  (FlowchartController, SequenceController,                            *)
(*  InteractiveDiagramController, StateDiagramController,                *)
(*  RefrigerationCycleController) over an explicit model of the part of  *)
(*  the browser they talk to: the element store, class lists, inline     *)
(*  styles, attributes, registered listeners, dispatched custom events,  *)
(*  timers and frame callbacks.                                          *)
(* ===================================================================== *)

From Stdlib Require Import ZArith Lia.
From stdpp Require Import base gmap sets list strings.

Local Open Scope string_scope.
Local Open Scope list_scope.
Local Open Scope stdpp_scope.
Local Open Scope nat_scope.

(* --------------------------------------------------------------------- *)
(*  1. The document                                                      *)
(* --------------------------------------------------------------------- *)

(* An element reference is the position of the element in the document
   list.  The list is in document order (pre-order of the tree); elements
   created by the script are appended at the end, which is where
   [appendChild] puts a last child in the order of its parent's subtree. *)
Abbreviation elem := nat.

(* What a field holding an element can contain. *)
Inductive jsref := Undefined | Null | Ref (e : elem).

Definition truthy (r : jsref) : bool :=
  match r with Ref _ => true | _ => false end.

(* A value assigned to an inline style property: the script assigns
   string literals and, for strokeDashoffset, a number. *)
Inductive styleval := SStr (s : string) | SNum (n : nat).

#[global] Instance styleval_eq_dec : EqDecision styleval.
Proof. solve_decision. Defined.

Record BBox := mkBBox { bb_x : Z; bb_y : Z; bb_width : Z; bb_height : Z }.

Record Element := mkElement {
  el_tag : string;
  el_parent : option elem;
  el_attrs : gmap string string;        (* getAttribute / setAttribute *)
  el_classes : gset string;             (* classList *)
  el_style : gmap string styleval;      (* element.style *)
  el_text : string;                     (* textContent *)
  el_transform : option (Z * Z);        (* transform="translate(x, y)" *)
  el_bbox : BBox                        (* getBBox() *)
}.

Definition set_classes (f : gset string → gset string) (x : Element) : Element :=
  mkElement (el_tag x) (el_parent x) (el_attrs x) (f (el_classes x))
            (el_style x) (el_text x) (el_transform x) (el_bbox x).

Definition set_style (f : gmap string styleval → gmap string styleval)
    (x : Element) : Element :=
  mkElement (el_tag x) (el_parent x) (el_attrs x) (el_classes x)
            (f (el_style x)) (el_text x) (el_transform x) (el_bbox x).

Definition set_text (s : string) (x : Element) : Element :=
  mkElement (el_tag x) (el_parent x) (el_attrs x) (el_classes x)
            (el_style x) s (el_transform x) (el_bbox x).

Definition set_transform (t : Z * Z) (x : Element) : Element :=
  mkElement (el_tag x) (el_parent x) (el_attrs x) (el_classes x)
            (el_style x) (el_text x) (Some t) (el_bbox x).

(* Reading through a reference. *)
Definition classes (d : list Element) (e : elem) : gset string :=
  from_option el_classes ∅ (d !! e).

Definition style (d : list Element) (e : elem) : gmap string styleval :=
  from_option el_style ∅ (d !! e).

Definition getAttribute (d : list Element) (e : elem) (a : string) : option string :=
  x ← d !! e; el_attrs x !! a.

Definition textContent (d : list Element) (e : elem) : string :=
  from_option el_text "" (d !! e).

Definition transform (d : list Element) (e : elem) : option (Z * Z) :=
  x ← d !! e; el_transform x.

Definition getBBox (d : list Element) (e : elem) : BBox :=
  from_option el_bbox (mkBBox 0 0 0 0) (d !! e).

(* Writing through a reference. *)
Definition classList_add (c : string) (e : elem) (d : list Element) : list Element :=
  alter (set_classes (λ cs, cs ∪ {[c]})) e d.

Definition classList_remove (c : string) (e : elem) (d : list Element) : list Element :=
  alter (set_classes (λ cs, cs ∖ {[c]})) e d.

(* [el.style.p = v]; assigning the empty string removes the property. *)
Definition style_set (p : string) (v : styleval) (e : elem) (d : list Element)
    : list Element :=
  alter (set_style (λ st, if decide (v = SStr "") then delete p st else <[p:=v]> st)) e d.

Definition textContent_set (s : string) (e : elem) (d : list Element) : list Element :=
  alter (set_text s) e d.

Definition transform_set (t : Z * Z) (e : elem) (d : list Element) : list Element :=
  alter (set_transform t) e d.

(* Selectors used by the script. *)
Inductive selector :=
| ByClass (c : string)                  (* '.c'    *)
| ByTag (t : string)                    (* 't'     *)
| ByTagClass (t c : string).            (* 't.c'   *)

Definition matches (s : selector) (x : Element) : bool :=
  match s with
  | ByClass c => bool_decide (c ∈ el_classes x)
  | ByTag t => bool_decide (el_tag x = t)
  | ByTagClass t c => bool_decide (el_tag x = t) && bool_decide (c ∈ el_classes x)
  end.

(* [e] lies strictly below [root]; the parent chain is followed for at most
   as many steps as there are elements. *)
Fixpoint below (fuel : nat) (d : list Element) (root e : elem) : bool :=
  match fuel with
  | O => false
  | S fuel' =>
      match d !! e with
      | Some x =>
          match el_parent x with
          | Some p => bool_decide (p = root) || below fuel' d root p
          | None => false
          end
      | None => false
      end
  end.

Definition descendant (d : list Element) (root e : elem) : bool :=
  below (length d) d root e.

(* The ancestors of [e], the nearest first; the parent chain is followed for
   at most [fuel] steps. *)
Fixpoint ancestors (fuel : nat) (d : list Element) (e : elem) : list elem :=
  match fuel with
  | O => []
  | S fuel' =>
      match d !! e with
      | Some x =>
          match el_parent x with
          | Some p => p :: ancestors fuel' d p
          | None => []
          end
      | None => []
      end
  end.

Definition selected_by (d : list Element) (root : elem) (s : selector) (e : elem) : bool :=
  descendant d root e && from_option (matches s) false (d !! e).

(* root.querySelectorAll(s), as the array Array.from makes of it. *)
Definition querySelectorAll (d : list Element) (root : elem) (s : selector) : list elem :=
  List.filter (selected_by d root s) (seq 0 (length d)).

(* root.querySelector(s): the first match, or null. *)
Definition querySelector (d : list Element) (root : elem) (s : selector) : jsref :=
  match querySelectorAll d root s with
  | e :: _ => Ref e
  | [] => Null
  end.

(* document.getElementById(id) *)
Definition getElementById (d : list Element) (id : string) : jsref :=
  match List.filter (λ e, bool_decide (getAttribute d e "id" = Some id))
                    (seq 0 (length d)) with
  | e :: _ => Ref e
  | [] => Null
  end.

(* el.nextElementSibling: the next element with the same parent. *)
Definition nextElementSibling (d : list Element) (e : elem) : jsref :=
  match d !! e with
  | Some x =>
      match List.filter
              (λ e', bool_decide (e < e') &&
                     bool_decide ((el_parent <$> d !! e') = Some (el_parent x)))
              (seq 0 (length d)) with
      | e' :: _ => Ref e'
      | [] => Null
      end
  | None => Null
  end.

(* --------------------------------------------------------------------- *)
(*  2. The host: listeners, events, timers, frames                       *)
(* --------------------------------------------------------------------- *)

(* The function values the script hands to the host, one constructor per
   arrow function of the source, with the variables it captures.  A
   captured [let] variable that the function assigns is captured by
   reference: it lives in a cell of the host's [cells] heap.  The captured
   [this] is the controller of the world the closure runs in. *)
Inductive Closure :=
| FlowClick (index : nat)               (* () => this.onNodeClick(index)       *)
| FlowTick (step : nat) (interval : nat)(* playAnimation's interval callback   *)
| SeqEnter (index : nat)                (* () => this.highlightMessage(index)  *)
| SeqLeave (index : nat)                (* () => this.unhighlightMessage(index)*)
| SeqTick (index : nat) (interval : nat)(* playSequence's interval callback    *)
| NodeClick (node : elem)               (* (e) => this.onNodeClick(e, node)    *)
| NodeHover (node : elem)               (* (e) => this.onNodeHover(e, node)    *)
| NodeLeave (node : elem)               (* () => this.onNodeLeave(node)        *)
| StateClick (state : elem)             (* () => this.transitionTo(state)      *)
| StatePlay (stateIds : list string) (interval : Z) (index : nat)
                                        (* const play = () => { ... }          *)
| Animate (offset : nat).               (* const animate = () => { ... }       *)

Record Listener := mkListener {
  l_target : elem; l_type : string; l_fn : Closure }.

(* A dispatched CustomEvent: target, type and the fields of its detail. *)
Record CustomEvent := mkEvent {
  ev_target : elem; ev_type : string;
  ev_node : option elem;                (* detail.node                        *)
  ev_id : option string                 (* detail.id / detail.stateId (null = None) *)
}.

Record Timer := mkTimer {
  t_handle : nat; t_due : Z;
  t_period : option Z;                  (* Some p for setInterval             *)
  t_fn : Closure }.

Record Host := mkHost {
  doc : list Element;
  listeners : list Listener;            (* addEventListener, in order         *)
  dispatched : list CustomEvent;        (* dispatchEvent, oldest first        *)
  timers : list Timer;                  (* pending setInterval / setTimeout   *)
  next_timer : nat;
  frames : list (positive * Closure);   (* pending requestAnimationFrame      *)
  next_frame : positive;
  cells : list nat;                     (* captured mutable variables         *)
  now : Z;                              (* clock, in timer units              *)
  console : list string                 (* console.log                        *)
}.

Definition with_doc (f : list Element → list Element) (h : Host) : Host :=
  mkHost (f (doc h)) (listeners h) (dispatched h) (timers h) (next_timer h)
         (frames h) (next_frame h) (cells h) (now h) (console h).

Definition with_cells (f : list nat → list nat) (h : Host) : Host :=
  mkHost (doc h) (listeners h) (dispatched h) (timers h) (next_timer h)
         (frames h) (next_frame h) (f (cells h)) (now h) (console h).

Definition with_timers (f : list Timer → list Timer) (h : Host) : Host :=
  mkHost (doc h) (listeners h) (dispatched h) (f (timers h)) (next_timer h)
         (frames h) (next_frame h) (cells h) (now h) (console h).

Definition with_now (t : Z) (h : Host) : Host :=
  mkHost (doc h) (listeners h) (dispatched h) (timers h) (next_timer h)
         (frames h) (next_frame h) (cells h) t (console h).

Definition addEventListener (e : elem) (ty : string) (f : Closure) (h : Host) : Host :=
  mkHost (doc h) (listeners h ++ [mkListener e ty f]) (dispatched h) (timers h)
         (next_timer h) (frames h) (next_frame h) (cells h) (now h) (console h).

(* target.dispatchEvent(new CustomEvent(ty, { detail })) *)
Definition dispatchEvent (ev : CustomEvent) (h : Host) : Host :=
  mkHost (doc h) (listeners h) (dispatched h ++ [ev]) (timers h)
         (next_timer h) (frames h) (next_frame h) (cells h) (now h) (console h).

Definition console_log (s : string) (h : Host) : Host :=
  mkHost (doc h) (listeners h) (dispatched h) (timers h)
         (next_timer h) (frames h) (next_frame h) (cells h) (now h) (console h ++ [s]).

(* [let x = v] for a variable a closure captures: a fresh cell. *)
Definition alloc (v : nat) (h : Host) : nat * Host :=
  (length (cells h), with_cells (λ cs, cs ++ [v]) h).

Definition get_cell (c : nat) (h : Host) : nat := default 0 (cells h !! c).

Definition set_cell (c : nat) (v : nat) (h : Host) : Host :=
  with_cells (λ cs, <[c:=v]> cs) h.

(* setInterval(f, p): the handle is the counter's value; the first call is
   due one period from now.  A negative delay counts as zero. *)
Definition setInterval (f : Closure) (p : Z) (h : Host) : Host :=
  mkHost (doc h) (listeners h) (dispatched h)
         (timers h ++ [mkTimer (next_timer h) (now h + 0 `max` p) (Some (0 `max` p)%Z) f])
         (S (next_timer h)) (frames h) (next_frame h) (cells h) (now h) (console h).

Definition setTimeout (f : Closure) (p : Z) (h : Host) : Host :=
  mkHost (doc h) (listeners h) (dispatched h)
         (timers h ++ [mkTimer (next_timer h) (now h + 0 `max` p) None f])
         (S (next_timer h)) (frames h) (next_frame h) (cells h) (now h) (console h).

Definition clearInterval (hd : nat) (h : Host) : Host :=
  with_timers (List.filter (λ t, negb (bool_decide (t_handle t = hd)))) h.

(* requestAnimationFrame(f): returns a handle, which is greater than zero. *)
Definition requestAnimationFrame (f : Closure) (h : Host) : positive * Host :=
  (next_frame h,
   mkHost (doc h) (listeners h) (dispatched h) (timers h) (next_timer h)
          (frames h ++ [(next_frame h, f)]) (Pos.succ (next_frame h))
          (cells h) (now h) (console h)).

Definition cancelAnimationFrame (hd : positive) (h : Host) : Host :=
  mkHost (doc h) (listeners h) (dispatched h) (timers h) (next_timer h)
         (List.filter (λ p, negb (bool_decide (p.1 = hd))) (frames h))
         (next_frame h) (cells h) (now h) (console h).

(* A page as the script finds it: the markup, and nothing registered yet. *)
Definition page (d : list Element) : Host :=
  mkHost d [] [] [] 1 [] 1%positive [] 0 [].

(* The world a controller's code runs in: the host and the controller's own
   fields. *)
Record World (C : Type) := mkWorld { host : Host; this : C }.
Arguments mkWorld {C} _ _.
Arguments host {C} _.
Arguments this {C} _.

Definition on_host {C} (f : Host → Host) (w : World C) : World C :=
  mkWorld (f (host w)) (this w).

Definition on_doc {C} (f : list Element → list Element) (w : World C) : World C :=
  on_host (with_doc f) w.

Definition on_this {C} (f : C → C) (w : World C) : World C :=
  mkWorld (host w) (f (this w)).

(* How a call ends.  The state reached is kept in both cases: what a method
   did before it threw stays done. *)
Inductive completion := Normal | Throw (error : string).

Definition seq_ {C} (m1 m2 : World C → completion * World C)
    : World C → completion * World C :=
  λ w, match m1 w with
       | (Normal, w1) => m2 w1
       | (Throw e, w1) => (Throw e, w1)
       end.

Definition ret {C} (f : World C → World C) : World C → completion * World C :=
  λ w, (Normal, f w).

Notation "m1 >>> m2" := (seq_ m1 m2) (at level 65, right associativity).

(* array.forEach(f) for a callback that cannot throw. *)
Definition forEach {A S} (f : A → S → S) (l : list A) (s : S) : S :=
  fold_left (λ s a, f a s) l s.

(* array.forEach((x, i) => f) *)
Definition forEachi {A S} (f : nat → A → S → S) (l : list A) (s : S) : S :=
  fold_left (λ s ia, f ia.1 ia.2 s) (imap pair l) s.

(* --------------------------------------------------------------------- *)
(*  3. The event loop                                                    *)
(* --------------------------------------------------------------------- *)

(* The timer the host fires next: the earliest due, the oldest among equals. *)
Fixpoint earliest (ts : list Timer) : option Timer :=
  match ts with
  | [] => None
  | t :: ts' =>
      match earliest ts' with
      | Some t' => if (t_due t' <? t_due t)%Z then Some t' else Some t
      | None => Some t
      end
  end.

(* A fired interval timer is armed again one period later; a fired timeout
   is gone. *)
Definition rearm (t : Timer) (ts : list Timer) : list Timer :=
  match t_period t with
  | Some p =>
      map (λ t', if bool_decide (t_handle t' = t_handle t)
                 then mkTimer (t_handle t) (t_due t + p) (Some p) (t_fn t)
                 else t') ts
  | None => List.filter (λ t', negb (bool_decide (t_handle t' = t_handle t))) ts
  end.

(* Whether an event of type [ty] bubbles.  Of the events the script listens
   for, "click" does; "mouseenter" and "mouseleave" do not. *)
Definition bubbles (ty : string) : bool := bool_decide (ty = "click").

(* The elements an event aimed at [target] visits, in the order of the
   visits: the target and, when the event bubbles, its ancestors from the
   nearest to the root. *)
Definition propagation_path (d : list Element) (target : elem) (ty : string)
    : list elem :=
  target :: (if bubbles ty then ancestors (length d) d target else []).

(* The elements of [ns] that a click aimed at [target] visits, the
   innermost first. *)
Definition reached (ns : list elem) (d : list Element) (target : elem) : list elem :=
  List.filter (λ e, bool_decide (e ∈ ns)) (propagation_path d target "click").

Section EventLoop.
Context {C : Type}.
(* What calling each function value does in a world of this controller. *)
Variable call : Closure → World C → completion * World C.

(* The host runs the next timer callback: the clock moves to the time
   the timer is due, the timer is re-armed or dropped, the callback
   runs.  An exception a callback throws is reported by the host and
   goes no further. *)
Definition fire_timer (w : World C) : World C :=
  match earliest (timers (host w)) with
  | None => w
  | Some t =>
      (call (t_fn t)
         (on_host (λ h, with_timers (rearm t) (with_now (now h `max` t_due t)%Z h)) w)).2
  end.

(* The host runs the oldest pending frame callback. *)
Definition fire_frame (w : World C) : World C :=
  match frames (host w) with
  | [] => w
  | (hd, f) :: _ => (call f (on_host (cancelAnimationFrame hd) w)).2
  end.

(* An event of type [ty] is at element [e]: the listeners registered on
   [e] for [ty] run in the order they were added.  An exception a listener
   throws is reported by the host; the listeners after it still run. *)
Definition invoke (e : elem) (ty : string) (w : World C) : World C :=
  fold_left (λ w l, (call (l_fn l) w).2)
    (List.filter (λ l, bool_decide (l_target l = e) && bool_decide (l_type l = ty))
                 (listeners (host w)))
    w.

(* The event visits the elements of [path], one after the other. *)
Definition deliver (path : list elem) (ty : string) (w : World C) : World C :=
  fold_left (λ w e, invoke e ty w) path w.

(* The host dispatches an event of type [ty] aimed at [target].  The
   listeners are all registered without options, so they run at the
   target and in the bubbling phase; the path is fixed when the event is
   dispatched; no listener of the script stops the propagation. *)
Definition fire_event (target : elem) (ty : string) (w : World C) : World C :=
  deliver (propagation_path (doc (host w)) target ty) ty w.
End EventLoop.

(* Every reference in [l] denotes an element of the document. *)
Definition refs_ok (d : list Element) (l : list elem) : Prop :=
  Forall (λ e, e < length d) l.

(* --------------------------------------------------------------------- *)
(*  4. FlowchartController                                               *)
(* --------------------------------------------------------------------- *)

Module FlowchartController.

Record t := mk {
  svg : jsref; nodes : list elem; connections : list elem; currentStep : nat }.

Definition set_nodes (l : list elem) (c : t) : t :=
  mk (svg c) l (connections c) (currentStep c).
Definition set_connections (l : list elem) (c : t) : t :=
  mk (svg c) (nodes c) l (currentStep c).
Definition set_currentStep (i : nat) (c : t) : t :=
  mk (svg c) (nodes c) (connections c) i.

Definition setupAnimations (w : World t) : World t :=
  forEach (λ conn, on_doc (classList_add "signal-animated" conn))
          (connections (this w)) w.

Definition init (w : World t) : World t :=
  match svg (this w) with
  | Ref s =>
      let w1 := on_this (set_nodes
                  (querySelectorAll (doc (host w)) s (ByClass "flowchart-node"))) w in
      let w2 := on_this (set_connections
                  (querySelectorAll (doc (host w1)) s (ByClass "flowchart-arrow"))) w1 in
      let w3 := forEachi
                  (λ index node w,
                     on_doc (style_set "cursor" (SStr "pointer") node)
                       (on_host (addEventListener node "click" (FlowClick index)) w))
                  (nodes (this w2)) w2 in
      setupAnimations w3
  | _ => w
  end.

(* new FlowchartController(svgElementId) *)
Definition new (svgElementId : string) (h : Host) : World t :=
  init (mkWorld h (mk (getElementById (doc h) svgElementId) [] [] 0)).

Definition clear_highlight (node : elem) (d : list Element) : list Element :=
  classList_remove "node-highlighted" node (classList_remove "selected" node d).

Definition highlightStep (index : nat) (w : World t) : World t :=
  let w1 := forEach (λ node, on_doc (clear_highlight node)) (nodes (this w)) w in
  let w2 := match nodes (this w1) !! index with
            | Some node =>
                on_doc (λ d, classList_add "node-highlighted" node
                               (classList_add "selected" node d)) w1
            | None => w1
            end in
  on_this (set_currentStep index) w2.

Definition showNodeDetail (index : nat) (w : World t) : completion * World t :=
  match nodes (this w) !! index with
  | Some node =>
      match querySelector (doc (host w)) node (ByClass "flowchart-label") with
      | Ref label =>
          (Normal, on_host (console_log (textContent (doc (host w)) label)) w)
      | _ => (Normal, w)
      end
  | None => (Throw "TypeError", w)     (* undefined.querySelector *)
  end.

Definition onNodeClick (index : nat) : World t → completion * World t :=
  ret (highlightStep index) >>> showNodeDetail index.

(* The callback of playAnimation: [step] is the cell of the captured
   counter, [interval] the handle setInterval returned. *)
Definition tick (step interval : nat) (w : World t) : World t :=
  if decide (length (nodes (this w)) ≤ get_cell step (host w))
  then on_host (clearInterval interval) w
  else
    let w1 := highlightStep (get_cell step (host w)) w in
    on_host (λ h, set_cell step (S (get_cell step h)) h) w1.

Definition playAnimation (w : World t) : World t :=
  let '(step, h1) := alloc 0 (host w) in
  let interval := next_timer h1 in
  mkWorld (setInterval (FlowTick step interval) 1000 h1) (this w).

Definition reset (w : World t) : World t :=
  let w1 := on_this (set_currentStep 0) w in
  forEach (λ node, on_doc (clear_highlight node)) (nodes (this w1)) w1.

(* The function values this class creates; it is never handed another's. *)
Definition call (f : Closure) : World t → completion * World t :=
  match f with
  | FlowClick index => onNodeClick index
  | FlowTick step interval => ret (tick step interval)
  | _ => ret id
  end.

(* The state after [k] timer callbacks. *)
Definition after_ticks (k : nat) (w : World t) : World t :=
  Nat.iter k (fire_timer call) w.

Definition highlighted (d : list Element) (e : elem) : Prop :=
  ("selected" ∈ classes d e) ∧ ("node-highlighted" ∈ classes d e).

Definition unmarked (d : list Element) (e : elem) : Prop :=
  ("selected" ∉ classes d e) ∧ ("node-highlighted" ∉ classes d e).


Definition mark (c : string) : Prop := c = "selected" ∨ c = "node-highlighted".

(* highlightStep as one write to the document and one to the controller. *)
Definition highlight_doc (l : list elem) (index : nat) (d : list Element)
    : list Element :=
  let d1 := forEach clear_highlight l d in
  match l !! index with
  | Some node => classList_add "node-highlighted" node (classList_add "selected" node d1)
  | None => d1
  end.

(* While playAnimation runs alone: the one pending timer is its own, due
   [k + 1] periods after the call at [t0], and the counter stands at [k]. *)
Record playing (ns : list elem) (t0 : Z) (step interval k : nat) (w : World t) : Prop := {
  playing_nodes : nodes (this w) = ns;
  playing_refs : refs_ok (doc (host w)) ns;
  playing_timer : timers (host w) =
    [mkTimer interval (t0 + 1000 * (Z.of_nat k + 1)) (Some 1000%Z)
             (FlowTick step interval)];
  playing_step : cells (host w) !! step = Some k;
  playing_now : now (host w) = (t0 + 1000 * Z.of_nat k)%Z }.

End FlowchartController.

(* --------------------------------------------------------------------- *)
(*  5. SequenceController                                                *)
(* --------------------------------------------------------------------- *)

Module SequenceController.

Record t := mk { svg : jsref; messages : list elem; actors : list elem }.

Definition set_messages (l : list elem) (c : t) : t := mk (svg c) l (actors c).
Definition set_actors (l : list elem) (c : t) : t := mk (svg c) (messages c) l.

Definition init (w : World t) : World t :=
  match svg (this w) with
  | Ref s =>
      let w1 := on_this (set_messages
                  (querySelectorAll (doc (host w)) s (ByClass "sequence-message"))) w in
      let w2 := on_this (set_actors
                  (querySelectorAll (doc (host w1)) s (ByClass "sequence-actor"))) w1 in
      forEachi
        (λ index msg w,
           on_host (addEventListener msg "mouseleave" (SeqLeave index))
             (on_host (addEventListener msg "mouseenter" (SeqEnter index)) w))
        (messages (this w2)) w2
  | _ => w
  end.

(* new SequenceController(svgElementId) *)
Definition new (svgElementId : string) (h : Host) : World t :=
  init (mkWorld h (mk (getElementById (doc h) svgElementId) [] [])).

Definition showMessageDetail (index : nat) (w : World t) : completion * World t :=
  match messages (this w) !! index with
  | Some msg =>
      match nextElementSibling (doc (host w)) msg with
      | Ref label =>
          if decide ("sequence-label" ∈ classes (doc (host w)) label)
          then (Normal, on_host (console_log (textContent (doc (host w)) label)) w)
          else (Normal, w)
      | _ => (Normal, w)
      end
  | None => (Throw "TypeError", w)     (* undefined.nextElementSibling *)
  end.

Definition highlightMessage (index : nat) : World t → completion * World t :=
  ret (λ w, match messages (this w) !! index with
            | Some msg =>
                on_doc (λ d, style_set "strokeWidth" (SStr "3") msg
                               (style_set "stroke" (SStr "var(--accent-color)") msg d)) w
            | None => w
            end)
  >>> showMessageDetail index.

Definition unhighlightMessage (index : nat) (w : World t) : World t :=
  match messages (this w) !! index with
  | Some msg =>
      on_doc (λ d, style_set "strokeWidth" (SStr "") msg
                     (style_set "stroke" (SStr "") msg d)) w
  | None => w
  end.

(* msg.style.opacity = i === index ? '1' : '0.3' *)
Definition dim_except (index : nat) (i : nat) (msg : elem) (w : World t) : World t :=
  on_doc (style_set "opacity" (SStr (if decide (i = index) then "1" else "0.3")) msg) w.

(* The callback of playSequence. *)
Definition tick (index interval : nat) (w : World t) : World t :=
  if decide (length (messages (this w)) ≤ get_cell index (host w))
  then on_host (clearInterval interval) w
  else
    let w1 := forEachi (dim_except (get_cell index (host w))) (messages (this w)) w in
    on_host (λ h, set_cell index (S (get_cell index h)) h) w1.

Definition playSequence (w : World t) : World t :=
  let '(index, h1) := alloc 0 (host w) in
  let interval := next_timer h1 in
  mkWorld (setInterval (SeqTick index interval) 800 h1) (this w).

Definition reset (w : World t) : World t :=
  forEach (λ msg, on_doc (style_set "opacity" (SStr "1") msg)) (messages (this w)) w.

Definition call (f : Closure) : World t → completion * World t :=
  match f with
  | SeqEnter index => highlightMessage index
  | SeqLeave index => ret (unhighlightMessage index)
  | SeqTick index interval => ret (tick index interval)
  | _ => ret id
  end.

(* The state after [k] timer callbacks. *)
Definition after_ticks (k : nat) (w : World t) : World t :=
  Nat.iter k (fire_timer call) w.

Definition opacity (d : list Element) (e : elem) : option styleval :=
  style d e !! "opacity".

(* Message number [i] is the one shown, every other message is dimmed. *)
Definition spotlight (w : World t) (i : nat) : Prop :=
  ∀ j msg, messages (this w) !! j = Some msg →
    opacity (doc (host w)) msg = Some (SStr (if decide (j = i) then "1" else "0.3")).


(* The loop of the callback, on the document. *)
Definition dim_doc (index : nat) (l : list elem) (d : list Element) : list Element :=
  forEachi (λ i msg, style_set "opacity"
                       (SStr (if decide (i = index) then "1" else "0.3")) msg) l d.

(* While playSequence runs alone. *)
Record playing (ms : list elem) (t0 : Z) (index interval k : nat) (w : World t)
    : Prop := {
  playing_messages : messages (this w) = ms;
  playing_refs : refs_ok (doc (host w)) ms;
  playing_timer : timers (host w) =
    [mkTimer interval (t0 + 800 * (Z.of_nat k + 1)) (Some 800%Z)
             (SeqTick index interval)];
  playing_index : cells (host w) !! index = Some k;
  playing_now : now (host w) = (t0 + 800 * Z.of_nat k)%Z }.

End SequenceController.

(* --------------------------------------------------------------------- *)
(*  6. InteractiveDiagramController                                      *)
(* --------------------------------------------------------------------- *)

Module InteractiveDiagramController.

(* The options argument: the keys the caller gave. *)
Record Given := mkGiven {
  given_showTooltip : option bool; given_highlightConnections : option bool }.

Record Options := mkOptions { showTooltip : bool; highlightConnections : bool }.

(* { showTooltip: true, highlightConnections: true, ...options } *)
Definition merge (o : Given) : Options :=
  mkOptions (default true (given_showTooltip o))
            (default true (given_highlightConnections o)).

(* The argument's default value: options = {} *)
Definition no_options : Given := mkGiven None None.

Record t := mk {
  svg : jsref; nodes : list elem; connections : list elem;
  selectedNode : jsref; tooltip : jsref; options : Options }.

Definition set_nodes (l : list elem) (c : t) : t :=
  mk (svg c) l (connections c) (selectedNode c) (tooltip c) (options c).
Definition set_connections (l : list elem) (c : t) : t :=
  mk (svg c) (nodes c) l (selectedNode c) (tooltip c) (options c).
Definition set_selectedNode (r : jsref) (c : t) : t :=
  mk (svg c) (nodes c) (connections c) r (tooltip c) (options c).
Definition set_tooltip (r : jsref) (c : t) : t :=
  mk (svg c) (nodes c) (connections c) (selectedNode c) r (options c).

(* The three elements createTooltip makes: the group, and the rect and
   text its innerHTML holds. *)
Definition tooltip_group (s : elem) : Element :=
  mkElement "g" (Some s) ∅ {["interactive-tooltip-group"]} ∅ "" None (mkBBox 0 0 0 0).
Definition tooltip_rect (g : elem) : Element :=
  mkElement "rect" (Some g)
    (<["width":="150"]> (<["height":="40"]> (<["x":="0"]> (<["y":="0"]> ∅))))
    {["interactive-tooltip"]} ∅ "" None (mkBBox 0 0 0 0).
Definition tooltip_text (g : elem) : Element :=
  mkElement "text" (Some g)
    (<["x":="75"]> (<["y":="25"]> (<["text-anchor":="middle"]> ∅)))
    {["interactive-tooltip-text"]} ∅ "" None (mkBBox 0 0 0 0).

Definition createTooltip (s : elem) (w : World t) : World t :=
  let g := length (doc (host w)) in
  on_doc (λ d, d ++ [tooltip_group s; tooltip_rect g; tooltip_text g])
    (on_this (set_tooltip (Ref g)) w).

Definition init (w : World t) : World t :=
  match svg (this w) with
  | Ref s =>
      let w0 := if showTooltip (options (this w)) then createTooltip s w else w in
      let w1 := on_this (set_nodes
                  (querySelectorAll (doc (host w0)) s (ByClass "interactive-node"))) w0 in
      let w2 := on_this (set_connections
                  (querySelectorAll (doc (host w1)) s (ByClass "interactive-connection"))) w1 in
      forEach
        (λ node w,
           on_host (addEventListener node "mouseleave" (NodeLeave node))
             (on_host (addEventListener node "mouseenter" (NodeHover node))
                (on_host (addEventListener node "click" (NodeClick node)) w)))
        (nodes (this w2)) w2
  | _ => w
  end.

(* new InteractiveDiagramController(svgElementId, options) *)
Definition new (svgElementId : string) (o : Given) (h : Host) : World t :=
  init (mkWorld h (mk (getElementById (doc h) svgElementId) [] [] Null Null (merge o))).

Definition highlightRelatedConnections (node : elem) (w : World t) : World t :=
  forEach (λ conn, on_doc (classList_add "active" conn)) (connections (this w)) w.

Definition emitEvent (eventName : string) (node : elem) (id : option string)
    (w : World t) : completion * World t :=
  match svg (this w) with
  | Ref s => (Normal, on_host (dispatchEvent
               (mkEvent s ("diagram:" +:+ eventName) (Some node) id)) w)
  | _ => (Throw "TypeError", w)        (* null.dispatchEvent *)
  end.

(* if (this.selectedNode) { this.selectedNode.classList.remove('selected'); } *)
Definition deselect (w : World t) : World t :=
  match selectedNode (this w) with
  | Ref prev => on_doc (classList_remove "selected" prev) w
  | _ => w
  end.

Definition onNodeClick (node : elem) : World t → completion * World t :=
  ret deselect
  >>> ret (on_doc (classList_add "selected" node))
  >>> ret (on_this (set_selectedNode (Ref node)))
  >>> ret (λ w, if highlightConnections (options (this w))
                then highlightRelatedConnections node w else w)
  >>> (λ w, emitEvent "nodeSelected" node
              (getAttribute (doc (host w)) node "data-id") w).

(* a || b || '' on strings that may be missing *)
Definition first_nonempty (a b : option string) : string :=
  match a with
  | Some s => if decide (s = "") then default "" b else s
  | None => default "" b
  end.

Definition onNodeHover (node : elem) (w : World t) : completion * World t :=
  match showTooltip (options (this w)), tooltip (this w) with
  | true, Ref tip =>
      let d := doc (host w) in
      let label :=
        first_nonempty (getAttribute d node "data-label")
          (match querySelector d node (ByTag "text") with
           | Ref tx => Some (textContent d tx)
           | _ => None
           end) in
      let tooltipRect := querySelector d tip (ByClass "interactive-tooltip") in
      let tooltipText := querySelector d tip (ByClass "interactive-tooltip-text") in
      match tooltipText with
      | Ref ttext =>
          let w1 := on_doc (textContent_set label ttext) w in
          let bbox := getBBox (doc (host w1)) node in
          let w2 := on_doc (transform_set
                      (bb_x bbox + bb_width bbox + 10, bb_y bbox - 20)%Z tip) w1 in
          let w3 := on_doc (style_set "opacity" (SStr "1") tip) w2 in
          match tooltipRect with
          | Ref trect =>
              (Normal,
               on_doc (style_set "opacity" (SStr "1") ttext)
                 (on_doc (style_set "opacity" (SStr "1") trect) w3))
          | _ => (Throw "TypeError", w3)   (* null.style *)
          end
      | _ => (Throw "TypeError", w)        (* null.textContent = ... *)
      end
  | _, _ => (Normal, w)
  end.

Definition onNodeLeave (node : elem) (w : World t) : World t :=
  match tooltip (this w) with
  | Ref tip =>
      let w1 := on_doc (style_set "opacity" (SStr "0") tip) w in
      let d := doc (host w1) in
      let tooltipRect := querySelector d tip (ByClass "interactive-tooltip") in
      let tooltipText := querySelector d tip (ByClass "interactive-tooltip-text") in
      let w2 := match tooltipRect with
                | Ref trect => on_doc (style_set "opacity" (SStr "0") trect) w1
                | _ => w1
                end in
      match tooltipText with
      | Ref ttext => on_doc (style_set "opacity" (SStr "0") ttext) w2
      | _ => w2
      end
  | _ => w
  end.

Definition getSelectedNode (w : World t) : jsref := selectedNode (this w).

Definition reset (w : World t) : World t :=
  let w1 := match selectedNode (this w) with
            | Ref sel =>
                on_this (set_selectedNode Null)
                  (on_doc (classList_remove "selected" sel) w)
            | _ => w
            end in
  forEach (λ conn, on_doc (classList_remove "active" conn)) (connections (this w1)) w1.

Definition call (f : Closure) : World t → completion * World t :=
  match f with
  | NodeClick node => onNodeClick node
  | NodeHover node => onNodeHover node
  | NodeLeave node => ret (onNodeLeave node)
  | _ => ret id
  end.

(* The user clicks on the element [target]: a node, or anything inside or
   outside one. *)
Definition click (target : elem) (w : World t) : World t :=
  fire_event call target "click" w.

(* The user clicks on one element after another. *)
Definition clicks (l : list elem) (w : World t) : World t :=
  fold_left (λ w e, click e w) l w.

(* The nodes of the diagram that carry the class "selected". *)
Definition selected_nodes (w : World t) : list elem :=
  List.filter (λ e, bool_decide ("selected" ∈ classes (doc (host w)) e))
              (nodes (this w)).


(* The three listeners init registers on a node. *)
Definition node_listeners (node : elem) : list Listener :=
  [ mkListener node "click" (NodeClick node);
    mkListener node "mouseenter" (NodeHover node);
    mkListener node "mouseleave" (NodeLeave node) ].

(* A controller whose constructor found its container, on a page of its
   own. *)
Record wired (w : World t) : Prop := {
  wired_svg : ∃ s, svg (this w) = Ref s;
  wired_nodup : NoDup (nodes (this w));
  wired_nodes : refs_ok (doc (host w)) (nodes (this w));
  wired_connections : refs_ok (doc (host w)) (connections (this w));
  wired_listeners : listeners (host w) = flat_map node_listeners (nodes (this w)) }.

(* The class "selected" is on no node but the stored selection. *)
Definition tracked (w : World t) : Prop :=
  ∀ e, e ∈ nodes (this w) → "selected" ∈ classes (doc (host w)) e →
       selectedNode (this w) = Ref e.

(* A page whose markup marks no interactive node as selected. *)
Definition unselected (d : list Element) : Prop :=
  ∀ e, "interactive-node" ∈ classes d e → "selected" ∉ classes d e.

(* Among the nodes, [node] and only it carries "selected". *)
Definition only_selected (w : World t) (node : elem) : Prop :=
  ∀ e, e ∈ nodes (this w) → ("selected" ∈ classes (doc (host w)) e ↔ e = node).

End InteractiveDiagramController.

(* --------------------------------------------------------------------- *)
(*  7. StateDiagramController                                            *)
(* --------------------------------------------------------------------- *)

Module StateDiagramController.

Record t := mk { svg : jsref; states : list elem; currentState : jsref }.

Definition set_states (l : list elem) (c : t) : t := mk (svg c) l (currentState c).
Definition set_currentState (r : jsref) (c : t) : t := mk (svg c) (states c) r.

Definition init (w : World t) : World t :=
  match svg (this w) with
  | Ref s =>
      let w1 := on_this (set_states
                  (querySelectorAll (doc (host w)) s (ByClass "state-node"))) w in
      forEach (λ state w, on_host (addEventListener state "click" (StateClick state)) w)
              (states (this w1)) w1
  | _ => w
  end.

(* new StateDiagramController(svgElementId) *)
Definition new (svgElementId : string) (h : Host) : World t :=
  init (mkWorld h (mk (getElementById (doc h) svgElementId) [] Null)).

Definition transitionTo (stateElement : elem) : World t → completion * World t :=
  ret (λ w, forEach (λ s, on_doc (classList_remove "active" s)) (states (this w)) w)
  >>> ret (on_doc (classList_add "active" stateElement))
  >>> ret (on_this (set_currentState (Ref stateElement)))
  >>> (λ w,
         let stateId := getAttribute (doc (host w)) stateElement "data-state-id" in
         match svg (this w) with
         | Ref s => (Normal, on_host (dispatchEvent
                      (mkEvent s "stateChanged" None stateId)) w)
         | _ => (Throw "TypeError", w)   (* null.dispatchEvent *)
         end).

Definition getCurrentState (w : World t) : jsref := currentState (this w).

(* a === b, for an attribute value (a string or null) and an array entry
   (a string or undefined) *)
Definition strict_eq (a b : option string) : bool :=
  match a, b with
  | Some x, Some y => bool_decide (x = y)
  | _, _ => false
  end.

(* this.states.find(s => s.getAttribute('data-state-id') === id) *)
Definition find_state (w : World t) (id : option string) : option elem :=
  List.find (λ s, strict_eq (getAttribute (doc (host w)) s "data-state-id") id)
            (states (this w)).

(* const play = () => { ... }; [index] is the cell of the captured
   counter. *)
Definition play (stateIds : list string) (interval : Z) (index : nat)
    : World t → completion * World t :=
  ret (λ w, if decide (length stateIds ≤ get_cell index (host w))
            then on_host (set_cell index 0) w else w)
  >>> (λ w, match find_state w (stateIds !! get_cell index (host w)) with
            | Some state => transitionTo state w
            | None => (Normal, w)
            end)
  >>> ret (on_host (λ h, set_cell index (S (get_cell index h)) h))
  >>> ret (on_host (setTimeout (StatePlay stateIds interval index) interval)).

(* playSequence(stateIds, interval = 1500); [None] is an omitted
   argument. *)
Definition playSequence (stateIds : list string) (interval : option Z)
    (w : World t) : completion * World t :=
  let '(index, h1) := alloc 0 (host w) in
  play stateIds (default 1500%Z interval) index (mkWorld h1 (this w)).

Definition call (f : Closure) : World t → completion * World t :=
  match f with
  | StateClick state => transitionTo state
  | StatePlay stateIds interval index => play stateIds interval index
  | _ => ret id
  end.

(* The state after the call of playSequence and [k] timer callbacks. *)
Definition playing (stateIds : list string) (interval : option Z) (k : nat)
    (w : World t) : World t :=
  Nat.iter k (fire_timer call) (playSequence stateIds interval w).2.

(* The state elements that carry the class "active". *)
Definition active_states (w : World t) : list elem :=
  List.filter (λ e, bool_decide ("active" ∈ classes (doc (host w)) e))
              (states (this w)).

(* A controller as the constructor leaves it and the methods keep it:
   states were collected only under an existing container. *)
Definition constructed (w : World t) : Prop :=
  (∃ s, svg (this w) = Ref s) ∨ states (this w) = [].

(* What transitionTo does to the document. *)
Definition activate (l : list elem) (stateElement : elem) (d : list Element)
    : list Element :=
  classList_add "active" stateElement (forEach (classList_remove "active") l d).

(* The event transitionTo dispatches. *)
Definition stateChanged (s : elem) (d : list Element) (stateElement : elem)
    : CustomEvent :=
  mkEvent s "stateChanged" None (getAttribute d stateElement "data-state-id").

(* The position in stateIds that call number [j] of play reads (the first
   call, made by playSequence itself, is number 0). *)
Definition position (stateIds : list string) (j : nat) : nat :=
  if decide (length stateIds = 0) then 0 else j mod length stateIds.

(* What one call of play shows: a transition to the state found for the
   identifier, or nothing. *)
Definition step_to (id : option string) (w : World t) : World t :=
  match find_state w id with
  | Some state => (transitionTo state w).2
  | None => w
  end.

(* What of a world a transition can change. *)
Definition view (w : World t) : list Element * t * list CustomEvent :=
  (doc (host w), this w, dispatched (host w)).

(* While one playSequence runs alone: [j] timer callbacks after the call
   at [t0], the one pending timer is the next call of play, one delay
   away, and the counter is one past the position last read. *)
Record cycling (stateIds : list string) (interval : Z) (t0 : Z) (index j : nat)
    (w : World t) : Prop := {
  cycling_constructed : constructed w;
  cycling_timer : ∃ hd, timers (host w) =
    [mkTimer hd (t0 + (Z.of_nat j + 1) * (0 `max` interval)) None
             (StatePlay stateIds interval index)];
  cycling_index : cells (host w) !! index = Some (S (position stateIds j));
  cycling_now : now (host w) = (t0 + Z.of_nat j * (0 `max` interval))%Z }.

End StateDiagramController.

(* --------------------------------------------------------------------- *)
(*  8. RefrigerationCycleController                                      *)
(* --------------------------------------------------------------------- *)

Module RefrigerationCycleController.

Record t := mk {
  svg : jsref;
  isAnimating : bool;
  animationFrame : option positive;   (* null, or a handle *)
  flowPath : jsref;
  compressor : jsref; condenser : jsref;
  expansionValve : jsref; evaporator : jsref }.

Definition set_isAnimating (b : bool) (c : t) : t :=
  mk (svg c) b (animationFrame c) (flowPath c) (compressor c) (condenser c)
     (expansionValve c) (evaporator c).
Definition set_animationFrame (f : option positive) (c : t) : t :=
  mk (svg c) (isAnimating c) f (flowPath c) (compressor c) (condenser c)
     (expansionValve c) (evaporator c).

Definition init (w : World t) : World t :=
  match svg (this w) with
  | Ref s =>
      let d := doc (host w) in
      on_this (λ c,
        mk (svg c) (isAnimating c) (animationFrame c)
           (querySelector d s (ByClass "refrigerant-flow"))
           (querySelector d s (ByClass "compressor"))
           (querySelector d s (ByClass "condenser"))
           (querySelector d s (ByClass "expansion-valve"))
           (querySelector d s (ByClass "evaporator"))) w
  | _ => w
  end.

(* new RefrigerationCycleController(svgElementId); the fields init would
   assign do not exist before it does. *)
Definition new (svgElementId : string) (h : Host) : World t :=
  init (mkWorld h (mk (getElementById (doc h) svgElementId) false None
                      Undefined Undefined Undefined Undefined Undefined)).

(* const animate = () => { ... }; [offset] is the cell of the captured
   counter. *)
Definition animate (offset : nat) (w : World t) : World t :=
  match isAnimating (this w), flowPath (this w) with
  | true, Ref path =>
      let w1 := on_host (λ h, set_cell offset ((get_cell offset h + 2) mod 100) h) w in
      let w2 := on_doc (style_set "strokeDashoffset"
                          (SNum (get_cell offset (host w1))) path) w1 in
      let '(hd, h3) := requestAnimationFrame (Animate offset) (host w2) in
      mkWorld h3 (set_animationFrame (Some hd) (this w2))
  | _, _ => on_this (set_isAnimating false) w
  end.

Definition startAnimation (w : World t) : World t :=
  if isAnimating (this w) then w
  else
    let w1 := on_this (set_isAnimating true) w in
    let '(offset, h2) := alloc 0 (host w1) in
    animate offset (mkWorld h2 (this w1)).

Definition stopAnimation (w : World t) : World t :=
  let w1 := on_this (set_isAnimating false) w in
  match animationFrame (this w1) with
  | Some hd => on_host (cancelAnimationFrame hd) w1
  | None => w1
  end.

Definition toggleAnimation (w : World t) : World t :=
  if isAnimating (this w) then stopAnimation w else startAnimation w.

Definition call (f : Closure) : World t → completion * World t :=
  match f with
  | Animate offset => ret (animate offset)
  | _ => ret id
  end.

(* What can happen to a controller on a page of its own: its three
   methods are called, or the host runs a frame. *)
Inductive action := Start | Stop | Toggle | Frame.

Definition act (a : action) (w : World t) : World t :=
  match a with
  | Start => startAnimation w
  | Stop => stopAnimation w
  | Toggle => toggleAnimation w
  | Frame => fire_frame call w
  end.

Definition run (l : list action) (w : World t) : World t :=
  fold_left (λ w a, act a w) l w.

(* The value strokeDashoffset holds on the flow path, if the script has
   written one. *)
Definition dashoffset (w : World t) : option styleval :=
  match flowPath (this w) with
  | Ref path => style (doc (host w)) path !! "strokeDashoffset"
  | _ => None
  end.

(* The frames the host runs after a call of startAnimation. *)
Definition frames_after_start (k : nat) (w : World t) : World t :=
  Nat.iter k (fire_frame call) (startAnimation w).

(* An offset the animation can hold. *)
Definition valid_offset (v : nat) : Prop := Nat.Even v ∧ v < 100.

(* What the methods and the frames keep true of a controller on a page of
   its own; [init] is what strokeDashoffset held before the script ran.
   Either no frame callback is pending and the flag is off, or exactly one
   is: the loop of the running animation, whose handle is the stored one
   and whose offset is what the flow path shows. *)
Definition steady (init : option styleval) (w : World t) : Prop :=
  (∀ path, flowPath (this w) = Ref path → path < length (doc (host w))) ∧
  (dashoffset w = init ∨ ∃ v, dashoffset w = Some (SNum v) ∧ valid_offset v) ∧
  match frames (host w) with
  | [] => isAnimating (this w) = false
  | [(hd, Animate offset)] =>
      isAnimating (this w) = true ∧ animationFrame (this w) = Some hd ∧
      ∃ path v, flowPath (this w) = Ref path ∧
                cells (host w) !! offset = Some v ∧ valid_offset v ∧
                dashoffset w = Some (SNum v)
  | _ => False
  end.

End RefrigerationCycleController.

(* --------------------------------------------------------------------- *)
(*  9. Example pages                                                     *)
(* --------------------------------------------------------------------- *)

Definition markup (tag : string) (parent : option elem) (attrs : list (string * string))
    (cls : list string) (text : string) : Element :=
  mkElement tag parent (list_to_map attrs) (list_to_set cls) ∅ text None
            (mkBBox 0 0 0 0).

(* <svg id="flow" class="flowchart"> with three labelled nodes and an arrow *)
Definition flow_page : list Element :=
  [ markup "svg" None [("id", "flow")] ["flowchart"] "";
    markup "g" (Some 0) [] ["flowchart-node"] "";
    markup "text" (Some 1) [] ["flowchart-label"] "Power On";
    markup "g" (Some 0) [] ["flowchart-node"] "";
    markup "text" (Some 3) [] ["flowchart-label"] "Cool";
    markup "g" (Some 0) [] ["flowchart-node"] "";
    markup "text" (Some 5) [] ["flowchart-label"] "Defrost";
    markup "path" (Some 0) [] ["flowchart-arrow"] "" ].

(* <svg id="seq" class="sequence-diagram"> with two actors and two
   messages, each followed by its label *)
Definition seq_page : list Element :=
  [ markup "svg" None [("id", "seq")] ["sequence-diagram"] "";
    markup "rect" (Some 0) [] ["sequence-actor"] "";
    markup "rect" (Some 0) [] ["sequence-actor"] "";
    markup "line" (Some 0) [] ["sequence-message"] "";
    markup "text" (Some 0) [] ["sequence-label"] "request";
    markup "line" (Some 0) [] ["sequence-message"] "";
    markup "text" (Some 0) [] ["sequence-label"] "reply" ].

(* <svg id="diagram" class="interactive-diagram"> with three nodes and two
   connections; [third] is the class attribute of the third node. *)
Definition interactive_page (third : list string) : list Element :=
  [ markup "svg" None [("id", "diagram")] ["interactive-diagram"] "";
    markup "g" (Some 0) [("data-id", "compressor"); ("data-label", "Compressor")]
           ["interactive-node"] "";
    markup "g" (Some 0) [("data-id", "condenser")] ["interactive-node"] "";
    markup "text" (Some 2) [] [] "Condenser";
    markup "g" (Some 0) [("data-id", "valve")] third "";
    markup "path" (Some 0) [] ["interactive-connection"] "";
    markup "path" (Some 0) [] ["interactive-connection"] "" ].


(* <svg id="states" class="state-diagram"> with three states *)
Definition state_page : list Element :=
  [ markup "svg" None [("id", "states")] ["state-diagram"] "";
    markup "g" (Some 0) [("data-state-id", "idle")] ["state-node"] "";
    markup "g" (Some 0) [("data-state-id", "cooling")] ["state-node"] "";
    markup "g" (Some 0) [("data-state-id", "defrost")] ["state-node"] "" ].


(* <svg id="fridge"> with the refrigerant path and the four parts *)
Definition fridge_page : list Element :=
  [ markup "svg" None [("id", "fridge")] [] "";
    markup "path" (Some 0) [] ["refrigerant-flow"] "";
    markup "rect" (Some 0) [] ["compressor"] "";
    markup "rect" (Some 0) [] ["condenser"] "";
    markup "rect" (Some 0) [] ["expansion-valve"] "";
    markup "rect" (Some 0) [] ["evaporator"] "" ].

(* --------------------------------------------------------------------- *)
(*  10. What the further properties speak of                             *)
(* --------------------------------------------------------------------- *)

(* Two documents with the same elements in the same tree. *)
Definition same_tree (d d' : list Element) : Prop :=
  length d' = length d ∧ ∀ e, el_parent <$> d' !! e = el_parent <$> d !! e.

(* The listeners FlowchartController.init registers: the node at position
   [index] gets a click listener that captures [index]. *)
Definition flow_listeners (l : list elem) : list Listener :=
  imap (λ index node, mkListener node "click" (FlowClick index)) l.



(* The listeners SequenceController.init registers: the message at position
   [index] gets a mouseenter and a mouseleave listener that capture
   [index]. *)
Definition seq_listeners (l : list elem) : list Listener :=
  concat (imap (λ index msg, [mkListener msg "mouseenter" (SeqEnter index);
                              mkListener msg "mouseleave" (SeqLeave index)]) l).

(* What showMessageDetail logs for a message: the text of the element that
   follows it, if that element is a '.sequence-label'. *)
Definition seq_label (d : list Element) (msg : elem) : list string :=
  match nextElementSibling d msg with
  | Ref label =>
      if decide ("sequence-label" ∈ classes d label) then [textContent d label] else []
  | _ => []
  end.

(* What InteractiveDiagramController.onNodeClick does to the document. *)
Definition click_doc (c : InteractiveDiagramController.t) (node : elem)
    (d : list Element) : list Element :=
  let d1 := match InteractiveDiagramController.selectedNode c with
            | Ref prev => classList_remove "selected" prev d
            | _ => d
            end in
  let d2 := classList_add "selected" node d1 in
  if InteractiveDiagramController.highlightConnections
       (InteractiveDiagramController.options c)
  then forEach (classList_add "active") (InteractiveDiagramController.connections c) d2
  else d2.

(* The event onNodeClick dispatches for a node. *)
Definition nodeSelected (s : elem) (d : list Element) (node : elem) : CustomEvent :=
  mkEvent s "diagram:nodeSelected" (Some node) (getAttribute d node "data-id").

(* A page whose elements have their parents on the page. *)
Definition page_ok (d : list Element) : Prop :=
  ∀ e x p, d !! e = Some x → el_parent x = Some p → p < length d.

(* What the clicks leave of the state the constructor made: the tree, the
   styles, every class but "selected" and "active", and every field of the
   controller but the selection, which is never undefined. *)
Record clicked_from (w0 w : World InteractiveDiagramController.t) : Prop := {
  clicked_tree : same_tree (doc (host w0)) (doc (host w));
  clicked_classes : ∀ e c, c ≠ "selected" → c ≠ "active" →
    (c ∈ classes (doc (host w)) e ↔ c ∈ classes (doc (host w0)) e);
  clicked_style : ∀ e, style (doc (host w)) e = style (doc (host w0)) e;
  clicked_fields :
    InteractiveDiagramController.nodes (this w) =
      InteractiveDiagramController.nodes (this w0) ∧
    InteractiveDiagramController.connections (this w) =
      InteractiveDiagramController.connections (this w0) ∧
    InteractiveDiagramController.tooltip (this w) =
      InteractiveDiagramController.tooltip (this w0) ∧
    InteractiveDiagramController.options (this w) =
      InteractiveDiagramController.options (this w0);
  clicked_selection : InteractiveDiagramController.selectedNode (this w) ≠ Undefined }.

(* The label onNodeHover resolves for a node: its data-label attribute or,
   failing that, the text of its first 'text' descendant, or ''. *)
Definition hover_label (d : list Element) (node : elem) : string :=
  InteractiveDiagramController.first_nonempty (getAttribute d node "data-label")
    (match querySelector d node (ByTag "text") with
     | Ref tx => Some (textContent d tx)
     | _ => None
     end).

(* Where onNodeHover puts the tooltip for a node. *)
Definition hover_position (d : list Element) (node : elem) : Z * Z :=
  (bb_x (getBBox d node) + bb_width (getBBox d node) + 10,
   bb_y (getBBox d node) - 20)%Z.

(* What onNodeHover does to the document when the tooltip's rect and text
   are found. *)
Definition hover_doc (tip trect ttext : elem) (node : elem) (d : list Element)
    : list Element :=
  style_set "opacity" (SStr "1") ttext
    (style_set "opacity" (SStr "1") trect
       (style_set "opacity" (SStr "1") tip
          (transform_set (hover_position d node) tip
             (textContent_set (hover_label d node) ttext d)))).

(* What onNodeLeave does to the document when the tooltip's rect and text
   are found. *)
Definition leave_doc (tip trect ttext : elem) (d : list Element) : list Element :=
  style_set "opacity" (SStr "0") ttext
    (style_set "opacity" (SStr "0") trect
       (style_set "opacity" (SStr "0") tip d)).

(* A StateDiagramController whose constructor found its container, on a
   page of its own: every state has the one click listener init gave it. *)
Record state_wired (w : World StateDiagramController.t) : Prop := {
  state_wired_svg : ∃ s, StateDiagramController.svg (this w) = Ref s;
  state_wired_nodup : NoDup (StateDiagramController.states (this w));
  state_wired_states : refs_ok (doc (host w)) (StateDiagramController.states (this w));
  state_wired_listeners :
    listeners (host w) =
    flat_map (λ state, [mkListener state "click" (StateClick state)])
             (StateDiagramController.states (this w)) }.

(* ===================================================================== *)
(*  Properties                                                           *)
(* ===================================================================== *)

(* Unfolds the record updates of a world down to its fields. *)
Ltac world_simpl :=
  unfold ret, on_this, on_doc, on_host, with_doc, with_cells, with_timers, with_now,
         addEventListener, dispatchEvent, console_log, alloc, get_cell, set_cell,
         setInterval, setTimeout, clearInterval,
         requestAnimationFrame, cancelAnimationFrame in *;
  simpl in *.

(* --------------------------------------------------------------------- *)
(*  The document: what a write changes                                   *)
(* --------------------------------------------------------------------- *)

Section DocumentFacts.
Implicit Types (d : list Element) (e : elem) (c : string).

Lemma classList_add_length c e d : length (classList_add c e d) = length d.
Proof. apply length_alter. Qed.

Lemma classList_remove_length c e d : length (classList_remove c e d) = length d.
Proof. apply length_alter. Qed.

Lemma style_set_length p v e d : length (style_set p v e d) = length d.
Proof. apply length_alter. Qed.

(* A write through [e] that keeps the field [g] keeps every reading of it. *)
Lemma alter_keeps {A} (g : Element → A) (f : Element → Element) (a : A) e e' d :
  (∀ x, g (f x) = g x) →
  from_option g a (alter f e d !! e') = from_option g a (d !! e').
Proof.
  intros Hg. destruct (decide (e = e')) as [->|Hne].
  - rewrite list_lookup_alter_eq. destruct (d !! e'); simpl; [apply Hg|done].
  - by rewrite list_lookup_alter_ne.
Qed.

Lemma elem_of_classes_add c c' e e' d :
  c' ∈ classes (classList_add c e d) e' ↔
  c' ∈ classes d e' ∨ (e' = e ∧ c' = c ∧ e < length d).
Proof.
  unfold classes, classList_add. destruct (decide (e = e')) as [->|Hne].
  - rewrite list_lookup_alter_eq. destruct (d !! e') as [x|] eqn:Hx; simpl.
    + apply lookup_lt_Some in Hx. set_solver.
    + apply lookup_ge_None in Hx. split; [set_solver|].
      intros [?|(_ & _ & ?)]; [done|lia].
  - rewrite list_lookup_alter_ne by done. naive_solver.
Qed.

Lemma elem_of_classes_remove c c' e e' d :
  c' ∈ classes (classList_remove c e d) e' ↔
  c' ∈ classes d e' ∧ ¬ (e' = e ∧ c' = c).
Proof.
  unfold classes, classList_remove. destruct (decide (e = e')) as [->|Hne].
  - rewrite list_lookup_alter_eq. destruct (d !! e') as [x|] eqn:Hx; simpl.
    + set_solver.
    + set_solver.
  - rewrite list_lookup_alter_ne by done. naive_solver.
Qed.

Lemma style_classList_add c e e' d : style (classList_add c e d) e' = style d e'.
Proof. apply alter_keeps. by intros []. Qed.

Lemma style_classList_remove c e e' d : style (classList_remove c e d) e' = style d e'.
Proof. apply alter_keeps. by intros []. Qed.

Lemma classes_style_set p v e e' d : classes (style_set p v e d) e' = classes d e'.
Proof. apply alter_keeps. by intros []. Qed.


Lemma textContent_classList_remove c e e' d :
  textContent (classList_remove c e d) e' = textContent d e'.
Proof. apply alter_keeps. by intros []. Qed.

Lemma transform_classList_add c e e' d :
  transform (classList_add c e d) e' = transform d e'.
Proof.
  unfold transform, classList_add. destruct (decide (e = e')) as [->|Hne].
  - rewrite list_lookup_alter_eq. by destruct (d !! e').
  - by rewrite list_lookup_alter_ne.
Qed.

Lemma transform_classList_remove c e e' d :
  transform (classList_remove c e d) e' = transform d e'.
Proof.
  unfold transform, classList_remove. destruct (decide (e = e')) as [->|Hne].
  - rewrite list_lookup_alter_eq. by destruct (d !! e').
  - by rewrite list_lookup_alter_ne.
Qed.

Lemma getAttribute_classList_add c e e' a d :
  getAttribute (classList_add c e d) e' a = getAttribute d e' a.
Proof.
  unfold getAttribute, classList_add. destruct (decide (e = e')) as [->|Hne].
  - rewrite list_lookup_alter_eq. by destruct (d !! e').
  - by rewrite list_lookup_alter_ne.
Qed.

Lemma getAttribute_classList_remove c e e' a d :
  getAttribute (classList_remove c e d) e' a = getAttribute d e' a.
Proof.
  unfold getAttribute, classList_remove. destruct (decide (e = e')) as [->|Hne].
  - rewrite list_lookup_alter_eq. by destruct (d !! e').
  - by rewrite list_lookup_alter_ne.
Qed.

(* style.p = v, read back *)
Lemma style_style_set p p' v e e' d :
  v ≠ SStr "" →
  style (style_set p v e d) e' !! p' =
    if decide (e' = e ∧ p' = p ∧ e < length d) then Some v else style d e' !! p'.
Proof.
  intros Hv. unfold style, style_set. destruct (decide (e = e')) as [->|Hne].
  - rewrite list_lookup_alter_eq. destruct (d !! e') as [x|] eqn:Hx; simpl.
    + apply lookup_lt_Some in Hx. rewrite decide_False by done.
      destruct (decide (p = p')) as [->|Hp].
      * rewrite lookup_insert_eq. by rewrite decide_True.
      * rewrite lookup_insert_ne by done. rewrite decide_False; [done|naive_solver].
    + apply lookup_ge_None in Hx. rewrite decide_False; [done|]. intros (_ & _ & ?). lia.
  - rewrite list_lookup_alter_ne by done. rewrite decide_False; [done|naive_solver].
Qed.

End DocumentFacts.

(* --------------------------------------------------------------------- *)
(*  Loops over the document                                              *)
(* --------------------------------------------------------------------- *)

Lemma forEach_on_doc {C A} (f : A → list Element → list Element) (l : list A)
    (w : World C) :
  forEach (λ a, on_doc (f a)) l w = on_doc (forEach f l) w.
Proof.
  unfold forEach. revert w. induction l as [|a l IH]; intros [[] c]; simpl.
  - reflexivity.
  - rewrite IH. reflexivity.
Qed.

Lemma forEachi_on_doc {C A} (f : nat → A → list Element → list Element) (l : list A)
    (w : World C) :
  forEachi (λ i a, on_doc (f i a)) l w = on_doc (forEachi f l) w.
Proof.
  unfold forEachi. generalize (imap pair l). clear l. intros l.
  revert w. induction l as [|a l IH]; intros [[] c]; simpl.
  - reflexivity.
  - rewrite IH. reflexivity.
Qed.

Lemma forEach_length {A} (f : A → list Element → list Element) (l : list A) d :
  (∀ a d, length (f a d) = length d) → length (forEach f l d) = length d.
Proof.
  intros Hf. unfold forEach. revert d.
  induction l as [|a l IH]; intros d; simpl; [done|]. by rewrite IH, Hf.
Qed.

(* What no pass of a loop changes, the loop does not change. *)
Lemma forEach_keeps {A S B} (g : S → B) (f : A → S → S) (l : list A) (s : S) :
  (∀ a s, g (f a s) = g s) → g (forEach f l s) = g s.
Proof.
  intros Hf. unfold forEach. revert s.
  induction l as [|a l IH]; intros s; simpl; [done|]. by rewrite IH, Hf.
Qed.

(* A loop whose body removes the classes [P] from the element it visits. *)
Lemma elem_of_classes_forEach_remove (f : elem → list Element → list Element)
    (P : string → Prop) (l : list elem) d e c :
  (∀ x d, c ∈ classes (f x d) e ↔ c ∈ classes d e ∧ ¬ (e = x ∧ P c)) →
  c ∈ classes (forEach f l d) e ↔ c ∈ classes d e ∧ ¬ (e ∈ l ∧ P c).
Proof.
  intros Hf. unfold forEach. revert d. induction l as [|x l IH]; intros d; simpl.
  - set_solver.
  - rewrite IH, Hf. set_solver.
Qed.

(* A loop whose body adds the classes [P] to the element it visits. *)
Lemma elem_of_classes_forEach_add (f : elem → list Element → list Element)
    (P : string → Prop) (l : list elem) d e c :
  (∀ x d, length (f x d) = length d) →
  (∀ x d, c ∈ classes (f x d) e ↔ c ∈ classes d e ∨ (e = x ∧ P c ∧ x < length d)) →
  c ∈ classes (forEach f l d) e ↔ c ∈ classes d e ∨ (e ∈ l ∧ P c ∧ e < length d).
Proof.
  intros Hlen Hf. unfold forEach. revert d. induction l as [|x l IH]; intros d; simpl.
  - set_solver.
  - rewrite IH, Hf, Hlen. set_solver.
Qed.

(* --------------------------------------------------------------------- *)
(*  The shape of the document                                            *)
(* --------------------------------------------------------------------- *)

Lemma alter_keeps_fmap {A} (g : Element → A) (f : Element → Element) e e'
    (d : list Element) :
  (∀ x, g (f x) = g x) → g <$> alter f e d !! e' = g <$> d !! e'.
Proof.
  intros Hg. destruct (decide (e = e')) as [->|Hne].
  - rewrite list_lookup_alter_eq. destruct (d !! e'); simpl; [by rewrite Hg|done].
  - by rewrite list_lookup_alter_ne.
Qed.

Lemma same_tree_refl d : same_tree d d.
Proof. by split. Qed.

Lemma same_tree_trans d1 d2 d3 : same_tree d1 d2 → same_tree d2 d3 → same_tree d1 d3.
Proof. intros [H1 H2] [H3 H4]. split; [congruence|]. intros e. by rewrite H4, H2. Qed.

Lemma same_tree_alter f e d :
  (∀ x, el_parent (f x) = el_parent x) → same_tree d (alter f e d).
Proof.
  intros Hf. split; [apply length_alter|]. intros e'. by apply alter_keeps_fmap.
Qed.

Lemma same_tree_classList_add c e d : same_tree d (classList_add c e d).
Proof. apply same_tree_alter. by intros []. Qed.

Lemma same_tree_classList_remove c e d : same_tree d (classList_remove c e d).
Proof. apply same_tree_alter. by intros []. Qed.

Lemma same_tree_style_set p v e d : same_tree d (style_set p v e d).
Proof. apply same_tree_alter. by intros []. Qed.

Lemma same_tree_forEach {A} (f : A → list Element → list Element) (l : list A) d :
  (∀ a d, same_tree d (f a d)) → same_tree d (forEach f l d).
Proof.
  intros Hf. unfold forEach. revert d. induction l as [|a l IH]; intros d; simpl.
  - apply same_tree_refl.
  - eapply same_tree_trans; [apply Hf|apply IH].
Qed.

Lemma below_same_tree fuel d d' root e :
  same_tree d d' → below fuel d' root e = below fuel d root e.
Proof.
  intros [_ Hp]. revert e. induction fuel as [|fuel IH]; intros e; simpl; [done|].
  specialize (Hp e). destruct (d' !! e) as [x'|], (d !! e) as [x|]; simpl in Hp; try done.
  injection Hp as ->. destruct (el_parent x); [|done]. by rewrite IH.
Qed.

(* Writes that keep the tree and the class [c] keep what '.c' selects. *)
Lemma querySelectorAll_same_tree d d' root c :
  same_tree d d' → (∀ e, c ∈ classes d' e ↔ c ∈ classes d e) →
  querySelectorAll d' root (ByClass c) = querySelectorAll d root (ByClass c).
Proof.
  intros Hst Hc. pose proof Hst as [Hlen Hp]. unfold querySelectorAll. rewrite Hlen.
  apply List.filter_ext. intros e. unfold selected_by, descendant.
  rewrite Hlen, (below_same_tree _ d d') by done. f_equal.
  specialize (Hc e). specialize (Hp e). unfold classes in Hc.
  destruct (d' !! e) as [x'|], (d !! e) as [x|]; simpl in *; try done.
  apply bool_decide_ext. done.
Qed.

Lemma querySelector_same_tree d d' root c :
  same_tree d d' → (∀ e, c ∈ classes d' e ↔ c ∈ classes d e) →
  querySelector d' root (ByClass c) = querySelector d root (ByClass c).
Proof. intros. unfold querySelector. by rewrite (querySelectorAll_same_tree d d'). Qed.

(* --------------------------------------------------------------------- *)
(*  How an event travels                                                 *)
(* --------------------------------------------------------------------- *)

Lemma ancestors_same_tree fuel d d' e :
  same_tree d d' → ancestors fuel d' e = ancestors fuel d e.
Proof.
  intros [_ Hp]. revert e. induction fuel as [|fuel IH]; intros e; simpl; [done|].
  specialize (Hp e). destruct (d' !! e) as [x'|], (d !! e) as [x|]; simpl in Hp; try done.
  injection Hp as ->. destruct (el_parent x); [|done]. by rewrite IH.
Qed.

Lemma propagation_path_same_tree d d' target ty :
  same_tree d d' → propagation_path d' target ty = propagation_path d target ty.
Proof.
  intros Hst. unfold propagation_path. destruct Hst as [Hlen Hp].
  rewrite Hlen. by rewrite (ancestors_same_tree _ d d') by done.
Qed.

Lemma reached_same_tree ns d d' target :
  same_tree d d' → reached ns d' target = reached ns d target.
Proof. intros Hst. unfold reached. by rewrite (propagation_path_same_tree d d'). Qed.

(* A click aimed at one of [ns] reaches it first. *)
Lemma reached_self ns d e :
  e ∈ ns → ∃ rest, reached ns d e = e :: rest.
Proof.
  intros He. unfold reached, propagation_path. simpl.
  rewrite bool_decide_eq_true_2 by done. by eexists.
Qed.



Section Travel.
Context {C : Type}.
Variable call : Closure → World C → completion * World C.

Lemma deliver_app p1 p2 ty (w : World C) :
  deliver call (p1 ++ p2) ty w = deliver call p2 ty (deliver call p1 ty w).
Proof. unfold deliver. by rewrite fold_left_app. Qed.

Lemma deliver_cons e p ty (w : World C) :
  deliver call (e :: p) ty w = deliver call p ty (invoke call e ty w).
Proof. reflexivity. Qed.


(* A click travels up from its target. *)
Lemma fire_event_click target (w : World C) :
  fire_event call target "click" w =
  deliver call (propagation_path (doc (host w)) target "click") "click" w.
Proof. reflexivity. Qed.

(* An event that does not bubble stays at its target. *)
Lemma fire_event_no_bubble target ty (w : World C) :
  bubbles ty = false → fire_event call target ty w = invoke call target ty w.
Proof. intros Hb. unfold fire_event, propagation_path. by rewrite Hb. Qed.

(* Without listeners no event does anything. *)
Lemma deliver_no_listeners p ty (w : World C) :
  listeners (host w) = [] → deliver call p ty w = w.
Proof.
  intros Hl. unfold deliver. induction p as [|e p IH]; simpl; [done|].
  unfold invoke at 2. rewrite Hl. simpl. exact IH.
Qed.

End Travel.

(* --------------------------------------------------------------------- *)
(*  FlowchartController                                                  *)
(* --------------------------------------------------------------------- *)

Section Flowchart.
Import FlowchartController.
Implicit Types (w : World t) (e : elem) (c : string).

Lemma clear_highlight_length x d : length (clear_highlight x d) = length d.
Proof. unfold clear_highlight. by rewrite !classList_remove_length. Qed.

Lemma elem_of_classes_clear_highlight x d e c :
  c ∈ classes (clear_highlight x d) e ↔ c ∈ classes d e ∧ ¬ (e = x ∧ mark c).
Proof.
  unfold clear_highlight, mark. rewrite !elem_of_classes_remove. naive_solver.
Qed.

Lemma highlightStep_eq index w :
  highlightStep index w =
  on_this (set_currentStep index)
    (on_doc (highlight_doc (nodes (this w)) index) w).
Proof.
  unfold highlightStep, highlight_doc. rewrite forEach_on_doc.
  destruct w as [[] [sv ns cs st]]; simpl. by destruct (ns !! index).
Qed.

Lemma highlight_doc_length l index d : length (highlight_doc l index d) = length d.
Proof.
  unfold highlight_doc. destruct (l !! index).
  - rewrite !classList_add_length. apply forEach_length, clear_highlight_length.
  - apply forEach_length, clear_highlight_length.
Qed.

(* The classes after highlightStep(index): marks are gone from every node
   and put on the node at [index]; nothing else changes. *)
Lemma elem_of_classes_highlight_doc l index d e c :
  refs_ok d l →
  c ∈ classes (highlight_doc l index d) e ↔
    (c ∈ classes d e ∧ ¬ (e ∈ l ∧ mark c)) ∨ (l !! index = Some e ∧ mark c).
Proof.
  intros Hok. unfold highlight_doc.
  pose proof (elem_of_classes_forEach_remove clear_highlight mark l d e c
                (λ x d, elem_of_classes_clear_highlight x d e c)) as Hclr.
  destruct (l !! index) as [node|] eqn:Hnode.
  - assert (node < length d) as Hlt.
    { eapply Forall_forall in Hok; [exact Hok|]. eapply list_elem_of_lookup_2, Hnode. }
    rewrite !elem_of_classes_add, Hclr, classList_add_length.
    rewrite (forEach_length clear_highlight l d clear_highlight_length).
    unfold mark. naive_solver.
  - rewrite Hclr. naive_solver.
Qed.

Lemma playAnimation_playing w :
  refs_ok (doc (host w)) (nodes (this w)) → timers (host w) = [] →
  ∃ step interval,
    playing (nodes (this w)) (now (host w)) step interval 0 (playAnimation w).
Proof.
  intros Hok Hts. exists (length (cells (host w))), (next_timer (host w)).
  destruct w as [[] c]; simpl in *. subst. split; simpl; try done.
  - rewrite lookup_app_r by done. by rewrite Nat.sub_diag.
  - lia.
Qed.

Lemma refs_ok_length d d' l : length d' = length d → refs_ok d l → refs_ok d' l.
Proof. unfold refs_ok. by intros ->. Qed.

Lemma refs_ok_lt d l e : refs_ok d l → e ∈ l → e < length d.
Proof. unfold refs_ok. rewrite Forall_forall. auto. Qed.

(* One callback while nodes remain: the node at the counter is
   highlighted and the counter moves on. *)
Lemma tick_playing ns t0 step interval k w :
  playing ns t0 step interval k w → k < length ns →
  let w' := fire_timer call w in
  playing ns t0 step interval (S k) w' ∧
  currentStep (this w') = k ∧
  doc (host w') = highlight_doc ns k (doc (host w)).
Proof.
  intros [Hns Hok Hts Hc Hnow] Hk.
  destruct w as [[d ls evs ts nt fs nf cs nw co] [sv ns' cns st]];
    simpl in *; subst ns' ts nw.
  unfold fire_timer; simpl. unfold ret, tick. rewrite highlightStep_eq.
  unfold rearm; world_simpl.
  rewrite bool_decide_eq_true_2 by done. rewrite Hc; simpl.
  destruct (decide (length ns ≤ k)) as [?|_]; [lia|]. simpl.
  split; [|done]. split; simpl; try done.
  - eapply refs_ok_length; [|exact Hok]. apply highlight_doc_length.
  - do 2 f_equal. lia.
  - apply list_lookup_insert_eq. by apply lookup_lt_Some in Hc.
  - lia.
Qed.

(* The callback after the last node: the timer is cleared, nothing else
   changes. *)
Lemma tick_done ns t0 step interval w :
  playing ns t0 step interval (length ns) w →
  let w' := fire_timer call w in
  timers (host w') = [] ∧ doc (host w') = doc (host w) ∧ this w' = this w ∧
  now (host w') = (t0 + 1000 * (Z.of_nat (length ns) + 1))%Z.
Proof.
  intros [Hns Hok Hts Hc Hnow].
  destruct w as [[d ls evs ts nt fs nf cs nw co] [sv ns' cns st]];
    simpl in *; subst ns' ts nw.
  unfold fire_timer; simpl. unfold tick, rearm; world_simpl.
  rewrite bool_decide_eq_true_2 by done. rewrite Hc; simpl.
  destruct (decide (length ns ≤ length ns)) as [_|?]; [|lia]. world_simpl.
  rewrite bool_decide_eq_true_2 by done. simpl. repeat split. lia.
Qed.

Lemma fire_timer_idle w : timers (host w) = [] → fire_timer call w = w.
Proof. intros H. unfold fire_timer. by rewrite H. Qed.

Lemma after_ticks_S k w : after_ticks (S k) w = fire_timer call (after_ticks k w).
Proof. reflexivity. Qed.

Lemma after_ticks_playing ns t0 step interval w k :
  playing ns t0 step interval 0 w → k ≤ length ns →
  playing ns t0 step interval k (after_ticks k w).
Proof.
  intros Hw. induction k as [|k IH]; intros Hk; [done|].
  rewrite after_ticks_S. apply tick_playing; [apply IH|]; lia.
Qed.

Lemma highlight_doc_marks l k d node :
  refs_ok d l → l !! k = Some node →
  highlighted (highlight_doc l k d) node ∧
  ∀ e, e ∈ l → e ≠ node → unmarked (highlight_doc l k d) e.
Proof.
  intros Hok Hk. unfold highlighted, unmarked.
  split; [|intros e He Hne];
    rewrite !elem_of_classes_highlight_doc by done; unfold mark; naive_solver.
Qed.

(** C4: for a FlowchartController over a non-empty node list, with no
    other timer pending, playAnimation() highlights node 0, 1, ... in
    order, one per 1000 time-units: callback number k+1 comes 1000*(k+1)
    units after the call, makes node k the current step and leaves it the
    only node carrying "selected" and "node-highlighted", with the timer
    still armed.  The callback after the last node clears the timer and
    changes nothing, and no callback follows.  After that, exactly the
    last node carries the two classes. *)
Theorem playAnimation_highlights_in_order w :
  refs_ok (doc (host w)) (nodes (this w)) →
  timers (host w) = [] →
  nodes (this w) ≠ [] →
  let ns := nodes (this w) in
  let n := length ns in
  let at_tick k := after_ticks k (playAnimation w) in
  (∀ k node, ns !! k = Some node →
     now (host (at_tick (S k))) = (now (host w) + 1000 * (Z.of_nat k + 1))%Z ∧
     timers (host (at_tick (S k))) ≠ [] ∧
     currentStep (this (at_tick (S k))) = k ∧
     highlighted (doc (host (at_tick (S k)))) node ∧
     ∀ e, e ∈ ns → e ≠ node → unmarked (doc (host (at_tick (S k)))) e) ∧
  (timers (host (at_tick (S n))) = [] ∧
   now (host (at_tick (S n))) = (now (host w) + 1000 * (Z.of_nat n + 1))%Z ∧
   ∀ j, at_tick (S n + j) = at_tick (S n)) ∧
  (∃ node, last ns = Some node ∧
     highlighted (doc (host (at_tick (S n)))) node ∧
     ∀ e, e ∈ ns → e ≠ node → unmarked (doc (host (at_tick (S n)))) e).
Proof.
  intros Hok Hts Hne ns n at_tick.
  destruct (playAnimation_playing w Hok Hts) as (step & interval & H0).
  fold ns in H0.
  assert (Hstep : ∀ k node, ns !! k = Some node →
            playing ns (now (host w)) step interval (S k) (at_tick (S k)) ∧
            currentStep (this (at_tick (S k))) = k ∧
            highlighted (doc (host (at_tick (S k)))) node ∧
            ∀ e, e ∈ ns → e ≠ node → unmarked (doc (host (at_tick (S k)))) e).
  { intros k node Hk. pose proof (lookup_lt_Some _ _ _ Hk) as Hlt.
    pose proof (after_ticks_playing _ _ _ _ _ k H0 ltac:(lia)) as Pk.
    destruct (tick_playing _ _ _ _ _ _ Pk Hlt) as (PS & Hcur & Hdoc).
    unfold at_tick. rewrite after_ticks_S. split; [done|]. split; [done|].
    rewrite Hdoc. apply highlight_doc_marks; [apply Pk|done]. }
  pose proof (after_ticks_playing _ _ _ _ _ n H0 ltac:(lia)) as Pn.
  assert (Hfin : timers (host (at_tick (S n))) = [] ∧
                 doc (host (at_tick (S n))) = doc (host (at_tick n)) ∧
                 this (at_tick (S n)) = this (at_tick n) ∧
                 now (host (at_tick (S n))) =
                   (now (host w) + 1000 * (Z.of_nat n + 1))%Z)
    by exact (tick_done _ _ _ _ _ Pn).
  destruct Hfin as (Htn & Hdn & Hthis & Hnow).
  split; [|split].
  - intros k node Hk. destruct (Hstep k node Hk) as (PS & Hcur & Hhl & Hun).
    repeat split; try done.
    + rewrite (playing_now _ _ _ _ _ _ PS). lia.
    + by rewrite (playing_timer _ _ _ _ _ _ PS).
    + apply Hhl.
    + apply Hhl.
    + by apply Hun.
    + by apply Hun.
  - split; [done|]. split; [done|]. intros j. induction j as [|j IH].
    + by rewrite Nat.add_0_r.
    + rewrite Nat.add_succ_r. unfold at_tick in *. rewrite after_ticks_S, IH.
      by apply fire_timer_idle.
  - destruct (last ns) as [node|] eqn:Hlast;
      [|by apply last_None in Hlast].
    exists node. split; [done|]. rewrite Hdn.
    rewrite last_lookup in Hlast.
    destruct (Hstep _ node Hlast) as (_ & _ & Hhl & Hun).
    apply lookup_lt_Some in Hlast.
    replace (S (pred (length ns))) with n in Hhl, Hun by (unfold n; lia).
    done.
Qed.

Lemma playAnimation_highlights_in_order_witness :
  let w := new "flow" (page flow_page) in
  let at_tick k := after_ticks k (playAnimation w) in
  nodes (this w) = [1; 3; 5] ∧
  (∀ k node, [1; 3; 5] !! k = Some node →
     now (host (at_tick (S k))) = (1000 * (Z.of_nat k + 1))%Z ∧
     highlighted (doc (host (at_tick (S k)))) node) ∧
  highlighted (doc (host (at_tick 4))) 5 ∧
  unmarked (doc (host (at_tick 4))) 1 ∧ unmarked (doc (host (at_tick 4))) 3.
Proof.
  intros w at_tick.
  assert (Hns : nodes (this w) = [1; 3; 5]) by (vm_compute; reflexivity).
  assert (Hok : refs_ok (doc (host w)) (nodes (this w)))
    by (vm_compute; repeat constructor).
  assert (Hts : timers (host w) = []) by (vm_compute; reflexivity).
  assert (Hnow : now (host w) = 0%Z) by (vm_compute; reflexivity).
  assert (Hne : nodes (this w) ≠ []) by (rewrite Hns; discriminate).
  pose proof (playAnimation_highlights_in_order w Hok Hts Hne) as H.
  cbv zeta in H. fold at_tick in H. clearbody w. clearbody at_tick.
  rewrite Hns, Hnow in H. destruct H as (Hk & _ & node & Hl & Hh & Hu).
  injection Hl as <-.
  split; [done|]. split; [|split; [exact Hh|]].
  - intros k nd Hnd. destruct (Hk k nd Hnd) as (Hn & _ & _ & Hhl & _).
    split; [exact Hn|exact Hhl].
  - split; apply Hu; try discriminate; set_solver.
Defined.

End Flowchart.

(* --------------------------------------------------------------------- *)
(*  SequenceController                                                   *)
(* --------------------------------------------------------------------- *)

Lemma forEachi_snoc {A S} (f : nat → A → S → S) (l : list A) (x : A) (s : S) :
  forEachi f (l ++ [x]) s = f (length l) x (forEachi f l s).
Proof.
  unfold forEachi. rewrite imap_app, fold_left_app. simpl.
  by rewrite Nat.add_0_r.
Qed.

Lemma forEachi_length {A} (f : nat → A → list Element → list Element) (l : list A) d :
  (∀ i a d, length (f i a d) = length d) → length (forEachi f l d) = length d.
Proof.
  intros Hf. induction l as [|x l IH] using rev_ind; [done|].
  by rewrite forEachi_snoc, Hf.
Qed.

Section Sequence.
Import SequenceController.
Implicit Types (w : World t) (e : elem).

Lemma dim_loop_eq index w :
  forEachi (dim_except index) (messages (this w)) w =
  on_doc (dim_doc index (messages (this w))) w.
Proof. unfold dim_doc. by rewrite <- forEachi_on_doc. Qed.

Lemma dim_doc_length index l d : length (dim_doc index l d) = length d.
Proof. apply forEachi_length. intros. apply style_set_length. Qed.

Lemma shade_nonempty (b : bool) : SStr (if b then "1" else "0.3") ≠ SStr "".
Proof. by destruct b. Qed.

(* After the loop every message has the opacity its position earns. *)
Lemma opacity_dim_doc index l d j msg :
  NoDup l → refs_ok d l → l !! j = Some msg →
  opacity (dim_doc index l d) msg =
    Some (SStr (if decide (j = index) then "1" else "0.3")).
Proof.
  unfold opacity, dim_doc. revert j.
  induction l as [|x l IH] using rev_ind; intros j Hnd Hok Hj; [done|].
  apply NoDup_app in Hnd as (Hnd & Hnotin & _).
  apply Forall_app in Hok as (Hok & Hx). apply Forall_inv in Hx.
  rewrite forEachi_snoc.
  rewrite style_style_set by (destruct (decide (length l = index)); done).
  rewrite forEachi_length by (intros; apply style_set_length).
  destruct (decide (j < length l)) as [Hlt|Hge].
  - rewrite lookup_app_l in Hj by done.
    rewrite decide_False; [by apply IH|].
    intros (-> & _). eapply Hnotin; [|apply list_elem_of_singleton; done].
    eapply list_elem_of_lookup_2, Hj.
  - pose proof (lookup_lt_Some _ _ _ Hj) as Hlen. rewrite length_app in Hlen.
    simpl in Hlen. assert (j = length l) as -> by lia.
    rewrite list_lookup_middle in Hj by done. injection Hj as ->.
    rewrite decide_True; [done|]. by repeat split.
Qed.

Lemma playSequence_playing w :
  refs_ok (doc (host w)) (messages (this w)) → timers (host w) = [] →
  ∃ index interval,
    playing (messages (this w)) (now (host w)) index interval 0 (playSequence w).
Proof.
  intros Hok Hts. exists (length (cells (host w))), (next_timer (host w)).
  destruct w as [[] c]; simpl in *. subst. split; simpl; try done.
  - rewrite lookup_app_r by done. by rewrite Nat.sub_diag.
  - lia.
Qed.

Lemma seq_tick_playing ms t0 index interval k w :
  playing ms t0 index interval k w → k < length ms →
  let w' := fire_timer call w in
  playing ms t0 index interval (S k) w' ∧
  doc (host w') = dim_doc k ms (doc (host w)).
Proof.
  intros [Hms Hok Hts Hc Hnow] Hk.
  destruct w as [[d ls evs ts nt fs nf cs nw co] [sv ms' acs]];
    simpl in *; subst ms' ts nw.
  unfold fire_timer; simpl. unfold ret, tick. rewrite dim_loop_eq.
  unfold rearm; world_simpl.
  rewrite bool_decide_eq_true_2 by done. rewrite Hc; simpl.
  destruct (decide (length ms ≤ k)) as [?|_]; [lia|]. simpl.
  split; [|done]. split; simpl; try done.
  - eapply refs_ok_length; [|exact Hok]. apply dim_doc_length.
  - do 2 f_equal. lia.
  - apply list_lookup_insert_eq. by apply lookup_lt_Some in Hc.
  - lia.
Qed.

Lemma seq_tick_done ms t0 index interval w :
  playing ms t0 index interval (length ms) w →
  let w' := fire_timer call w in
  timers (host w') = [] ∧ doc (host w') = doc (host w) ∧ this w' = this w ∧
  now (host w') = (t0 + 800 * (Z.of_nat (length ms) + 1))%Z.
Proof.
  intros [Hms Hok Hts Hc Hnow].
  destruct w as [[d ls evs ts nt fs nf cs nw co] [sv ms' acs]];
    simpl in *; subst ms' ts nw.
  unfold fire_timer; simpl. unfold tick, rearm; world_simpl.
  rewrite bool_decide_eq_true_2 by done. rewrite Hc; simpl.
  destruct (decide (length ms ≤ length ms)) as [_|?]; [|lia]. world_simpl.
  rewrite bool_decide_eq_true_2 by done. simpl. repeat split. lia.
Qed.

Lemma seq_after_ticks_playing ms t0 index interval w k :
  playing ms t0 index interval 0 w → k ≤ length ms →
  playing ms t0 index interval k (after_ticks k w).
Proof.
  intros Hw. induction k as [|k IH]; intros Hk; [done|].
  change (after_ticks (S k) w) with (fire_timer call (after_ticks k w)).
  apply seq_tick_playing; [apply IH|]; lia.
Qed.

(* reset() on the document *)
Lemma opacity_reset w msg :
  refs_ok (doc (host w)) (messages (this w)) → msg ∈ messages (this w) →
  opacity (doc (host (reset w))) msg = Some (SStr "1").
Proof.
  unfold reset, opacity. rewrite forEach_on_doc.
  destruct w as [[d ls evs ts nt fs nf cs nw co] [sv ms acs]]; simpl.
  unfold forEach. revert d.
  induction ms as [|x ms IH] using rev_ind; intros d Hok Hin; [by inversion Hin|].
  apply Forall_app in Hok as (Hok & Hx). apply Forall_inv in Hx.
  rewrite fold_left_app; simpl. rewrite style_style_set by done.
  fold (forEach (λ msg, style_set "opacity" (SStr "1") msg) ms d).
  rewrite forEach_length by (intros; apply style_set_length).
  destruct (decide (msg = x)) as [->|Hne].
  - by rewrite decide_True.
  - rewrite decide_False by naive_solver. apply IH; [done|]. set_solver.
Qed.

(** C5, as the code has it: for a SequenceController over a non-empty
    message list, with no other timer pending, playSequence() writes
    nothing until its first callback, 800 time-units after the call.
    From callback number k+1 on (at 800*(k+1) units), message k has
    opacity 1 and every other message has opacity 0.3; the callback after
    the last message clears the timer and leaves the last message shown.
    After that, reset() puts opacity 1 on all messages. *)
Theorem playSequence_spotlight w :
  NoDup (messages (this w)) →
  refs_ok (doc (host w)) (messages (this w)) →
  timers (host w) = [] →
  messages (this w) ≠ [] →
  let ms := messages (this w) in
  let n := length ms in
  let at_tick k := after_ticks k (playSequence w) in
  doc (host (at_tick 0)) = doc (host w) ∧
  (∀ k, k < n →
     now (host (at_tick (S k))) = (now (host w) + 800 * (Z.of_nat k + 1))%Z ∧
     timers (host (at_tick (S k))) ≠ [] ∧
     spotlight (at_tick (S k)) k) ∧
  (timers (host (at_tick (S n))) = [] ∧
   spotlight (at_tick (S n)) (pred n) ∧
   ∀ j, at_tick (S n + j) = at_tick (S n)) ∧
  (∀ msg, msg ∈ ms →
     opacity (doc (host (reset (at_tick (S n))))) msg = Some (SStr "1")).
Proof.
  intros Hnd Hok Hts Hne ms n at_tick.
  destruct (playSequence_playing w Hok Hts) as (index & interval & H0).
  fold ms in H0, Hnd.
  assert (Hstep : ∀ k, k < n →
            playing ms (now (host w)) index interval (S k) (at_tick (S k)) ∧
            spotlight (at_tick (S k)) k).
  { intros k Hlt.
    pose proof (seq_after_ticks_playing _ _ _ _ _ k H0 ltac:(fold n; lia)) as Pk.
    destruct (seq_tick_playing _ _ _ _ _ _ Pk Hlt) as (PS & Hdoc).
    change (fire_timer call (after_ticks k (playSequence w)))
      with (at_tick (S k)) in PS, Hdoc.
    split; [done|]. intros j msg Hj.
    rewrite (playing_messages _ _ _ _ _ _ PS) in Hj. rewrite Hdoc.
    apply opacity_dim_doc; [done|apply Pk|done]. }
  pose proof (seq_after_ticks_playing _ _ _ _ _ n H0 ltac:(lia)) as Pn.
  assert (Hfin : timers (host (at_tick (S n))) = [] ∧
                 doc (host (at_tick (S n))) = doc (host (at_tick n)) ∧
                 this (at_tick (S n)) = this (at_tick n) ∧
                 now (host (at_tick (S n))) =
                   (now (host w) + 800 * (Z.of_nat n + 1))%Z)
    by exact (seq_tick_done _ _ _ _ _ Pn).
  change (after_ticks n (playSequence w)) with (at_tick n) in Pn.
  destruct Hfin as (Htn & Hdn & Hthis & Hnow).
  assert (Hpos : 0 < n).
  { unfold n, ms. destruct (messages (this w)); [done|simpl; lia]. }
  split; [by destruct w as [[] c]|]. split; [|split; [split; [done|split]|]].
  - intros k Hk. destruct (Hstep k Hk) as (PS & Hsp). repeat split; try done.
    + rewrite (playing_now _ _ _ _ _ _ PS). lia.
    + by rewrite (playing_timer _ _ _ _ _ _ PS).
  - destruct (Hstep (pred n) ltac:(lia)) as (_ & Hsp).
    replace (S (pred n)) with n in Hsp by lia.
    intros j msg Hj. rewrite Hthis in Hj. rewrite Hdn. by apply Hsp.
  - intros j. induction j as [|j IH].
    + by rewrite Nat.add_0_r.
    + rewrite Nat.add_succ_r. unfold at_tick in *.
      change (after_ticks (S (S n + j)) (playSequence w))
        with (fire_timer call (after_ticks (S n + j) (playSequence w))).
      rewrite IH. unfold fire_timer. by rewrite Htn.
  - intros msg Hin. apply opacity_reset.
    + rewrite Hthis, Hdn, (playing_messages _ _ _ _ _ _ Pn). apply Pn.
    + by rewrite Hthis, (playing_messages _ _ _ _ _ _ Pn).
Qed.

Lemma playSequence_spotlight_witness :
  let w := new "seq" (page seq_page) in
  let at_tick k := after_ticks k (playSequence w) in
  messages (this w) = [3; 5] ∧
  spotlight (at_tick 1) 0 ∧ spotlight (at_tick 2) 1 ∧ spotlight (at_tick 3) 1 ∧
  timers (host (at_tick 3)) = [].
Proof.
  intros w at_tick.
  assert (Hms : messages (this w) = [3; 5]) by (vm_compute; reflexivity).
  assert (Hok : refs_ok (doc (host w)) (messages (this w)))
    by (vm_compute; repeat constructor).
  assert (Hts : timers (host w) = []) by (vm_compute; reflexivity).
  assert (Hne : messages (this w) ≠ []) by (rewrite Hms; discriminate).
  assert (Hnd : NoDup (messages (this w))).
  { rewrite Hms. clear. repeat constructor; set_solver. }
  pose proof (playSequence_spotlight w Hnd Hok Hts Hne) as H.
  cbv zeta in H. fold at_tick in H. clearbody w. clearbody at_tick.
  rewrite Hms in H. destruct H as (_ & Hk & (Ht & Hl & _) & _).
  split; [done|].
  split; [apply (Hk 0); simpl; lia|]. split; [apply (Hk 1); simpl; lia|].
  split; [exact Hl|exact Ht].
Defined.

(* Between the call of playSequence() and its first callback the
   opacities are what they were: on a fresh page the timer is pending and
   no message has opacity 1. *)
Lemma playSequence_not_spotlight_before_first_tick :
  let w := playSequence (new "seq" (page seq_page)) in
  timers (host w) ≠ [] ∧ ¬ ∃ i, spotlight w i.
Proof.
  intros w.
  assert (Hts : timers (host w) ≠ []) by (vm_compute; discriminate).
  assert (Hm : messages (this w) !! 0 = Some 3) by (vm_compute; reflexivity).
  assert (Hop : opacity (doc (host w)) 3 = None) by (vm_compute; reflexivity).
  clearbody w. split; [done|]. intros [i Hsp].
  apply Hsp in Hm. rewrite Hop in Hm. discriminate.
Qed.

End Sequence.

(* --------------------------------------------------------------------- *)
(*  What querySelectorAll returns                                        *)
(* --------------------------------------------------------------------- *)

Lemma elem_of_querySelectorAll d root s e :
  e ∈ querySelectorAll d root s ↔ e < length d ∧ selected_by d root s e = true.
Proof.
  unfold querySelectorAll. rewrite list_elem_of_In, filter_In, in_seq.
  intuition lia.
Qed.

Lemma querySelectorAll_NoDup d root s : NoDup (querySelectorAll d root s).
Proof. apply NoDup_ListNoDup, List.NoDup_filter, NoDup_ListNoDup, NoDup_seq. Qed.

Lemma querySelectorAll_refs_ok d root s : refs_ok d (querySelectorAll d root s).
Proof.
  apply Forall_forall. intros e He. by apply elem_of_querySelectorAll in He as [? _].
Qed.

Lemma elem_of_querySelectorAll_class d root c e :
  e ∈ querySelectorAll d root (ByClass c) → c ∈ classes d e.
Proof.
  rewrite elem_of_querySelectorAll. unfold selected_by, classes.
  intros (_ & H). apply andb_true_iff in H as (_ & H).
  destruct (d !! e); simpl in *; [|done]. by apply bool_decide_eq_true in H.
Qed.

(* A loop that only registers listeners. *)
Lemma forEach_listeners {C A} (reg : A → list Listener) (f : A → World C → World C)
    (l : list A) (w : World C) :
  (∀ a w, this (f a w) = this w ∧ doc (host (f a w)) = doc (host w) ∧
          timers (host (f a w)) = timers (host w) ∧
          listeners (host (f a w)) = listeners (host w) ++ reg a) →
  this (forEach f l w) = this w ∧ doc (host (forEach f l w)) = doc (host w) ∧
  timers (host (forEach f l w)) = timers (host w) ∧
  listeners (host (forEach f l w)) = listeners (host w) ++ flat_map reg l.
Proof.
  intros Hf. unfold forEach. revert w. induction l as [|a l IH]; intros w; simpl.
  - by rewrite app_nil_r.
  - destruct (IH (f a w)) as (-> & -> & -> & ->).
    destruct (Hf a w) as (-> & -> & -> & ->). by rewrite <- app_assoc.
Qed.

(* --------------------------------------------------------------------- *)
(*  InteractiveDiagramController                                         *)
(* --------------------------------------------------------------------- *)

Section Interactive.
Import InteractiveDiagramController.
Implicit Types (w : World t) (e node : elem).

Lemma new_inert svgElementId o d :
  getElementById d svgElementId = Null →
  new svgElementId o (page d) =
  mkWorld (page d) (mk Null [] [] Null Null (merge o)).
Proof. intros H. unfold new, init; simpl. by rewrite H. Qed.

Lemma getElementById_cases d id :
  getElementById d id = Null ∨ ∃ s, getElementById d id = Ref s.
Proof. unfold getElementById. destruct (List.filter _ _); eauto. Qed.

Lemma init_shape w s :
  svg (this w) = Ref s →
  let w0 := if showTooltip (options (this w)) then createTooltip s w else w in
  let ns := querySelectorAll (doc (host w0)) s (ByClass "interactive-node") in
  let cs := querySelectorAll (doc (host w0)) s (ByClass "interactive-connection") in
  (svg (this (init w)) = Ref s ∧ nodes (this (init w)) = ns ∧
   connections (this (init w)) = cs ∧
   options (this (init w)) = options (this w) ∧
   selectedNode (this (init w)) = selectedNode (this w)) ∧
  doc (host (init w)) = doc (host w0) ∧
  timers (host (init w)) = timers (host w) ∧
  listeners (host (init w)) = listeners (host w) ++ flat_map node_listeners ns.
Proof.
  intros Hs w0 ns cs. unfold init. rewrite Hs. cbv zeta. fold w0.
  set (w2 := on_this (set_connections _) (on_this _ w0)).
  assert (Hw2 : this w2 = set_connections cs (set_nodes ns (this w0)) ∧
                host w2 = host w0) by done.
  destruct Hw2 as (Ht2 & Hh2).
  match goal with |- context [forEach ?f ?l ?w] =>
    destruct (forEach_listeners node_listeners f l w) as (Ht & Hd & Htm & Hl) end.
  { intros a [[] c]; simpl. by rewrite <- !app_assoc. }
  rewrite Ht, Hd, Htm, Hl, Ht2, Hh2. clear Ht Hd Htm Hl Ht2 Hh2 w2.
  unfold w0. destruct (showTooltip _), w as [[] []]; simpl in *; by subst.
Qed.

Lemma new_wired svgElementId o d s :
  getElementById d svgElementId = Ref s →
  wired (new svgElementId o (page d)).
Proof.
  intros Hs. unfold new.
  set (w := mkWorld (page d) _).
  destruct (init_shape w s Hs) as ((Hsvg & Hns & Hcs & _) & Hd & _ & Hl).
  split; rewrite ?Hns, ?Hcs, ?Hd.
  - by exists s.
  - apply querySelectorAll_NoDup.
  - apply querySelectorAll_refs_ok.
  - apply querySelectorAll_refs_ok.
  - by rewrite Hl.
Qed.

Lemma same_tree_click_doc c node d : same_tree d (click_doc c node d).
Proof.
  unfold click_doc. cbv zeta.
  assert (H1 : same_tree d (match selectedNode c with
                            | Ref prev => classList_remove "selected" prev d
                            | _ => d end)).
  { destruct (selectedNode c); try apply same_tree_refl.
    apply same_tree_classList_remove. }
  eapply same_tree_trans; [exact H1|].
  destruct (highlightConnections (options c)).
  - eapply same_tree_trans; [apply same_tree_classList_add|].
    apply same_tree_forEach. intros. apply same_tree_classList_add.
  - apply same_tree_classList_add.
Qed.

Lemma getAttribute_click_doc c node d e a :
  getAttribute (click_doc c node d) e a = getAttribute d e a.
Proof.
  unfold click_doc. cbv zeta.
  assert (H1 : getAttribute (match selectedNode c with
                             | Ref prev => classList_remove "selected" prev d
                             | _ => d end) e a = getAttribute d e a).
  { destruct (selectedNode c); try done. apply getAttribute_classList_remove. }
  destruct (highlightConnections (options c)).
  - rewrite (forEach_keeps (λ d, getAttribute d e a)) by
      (intros; apply getAttribute_classList_add).
    by rewrite getAttribute_classList_add.
  - by rewrite getAttribute_classList_add.
Qed.

Lemma style_click_doc c node d e : style (click_doc c node d) e = style d e.
Proof.
  unfold click_doc. cbv zeta.
  assert (H1 : style (match selectedNode c with
                      | Ref prev => classList_remove "selected" prev d
                      | _ => d end) e = style d e).
  { destruct (selectedNode c); try done. apply style_classList_remove. }
  destruct (highlightConnections (options c)).
  - rewrite (forEach_keeps (λ d, style d e)) by (intros; apply style_classList_add).
    by rewrite style_classList_add.
  - by rewrite style_classList_add.
Qed.

(* onNodeClick, with and without a container. *)
Lemma onNodeClick_eq w node :
  onNodeClick node w =
  let w' := mkWorld (with_doc (click_doc (this w) node) (host w))
                    (set_selectedNode (Ref node) (this w)) in
  match svg (this w) with
  | Ref s => (Normal, on_host (dispatchEvent (nodeSelected s (doc (host w)) node)) w')
  | _ => (Throw "TypeError", w')
  end.
Proof.
  unfold onNodeClick, seq_, ret, highlightRelatedConnections, emitEvent, deselect,
    nodeSelected.
  cbv zeta. rewrite forEach_on_doc.
  pose proof (getAttribute_click_doc (this w) node (doc (host w)) node "data-id") as Ha.
  unfold click_doc in *. cbv zeta in Ha.
  destruct w as [[d ls evs ts nt fs nf cs nw co] [sv ns cns sel tip [st hc]]].
  simpl in *. destruct sel as [| |prev], hc, sv; simpl in *; by rewrite ?Ha.
Qed.

(* The listeners a click that is at [node] finds there. *)
Lemma click_listeners (l : list elem) node :
  NoDup l → node ∈ l →
  List.filter (λ x, bool_decide (l_target x = node) && bool_decide (l_type x = "click"))
              (flat_map node_listeners l) =
  [mkListener node "click" (NodeClick node)].
Proof.
  induction l as [|x l IH]; intros Hnd Hin; [by inversion Hin|].
  apply NoDup_cons in Hnd as (Hx & Hnd).
  assert (Hrest : ∀ l', node ∉ l' →
            List.filter (λ x, bool_decide (l_target x = node) &&
                              bool_decide (l_type x = "click"))
                        (flat_map node_listeners l') = []).
  { induction l' as [|y l' IH']; intros Hy; [done|].
    apply not_elem_of_cons in Hy as (Hne & Hy). simpl.
    rewrite (bool_decide_eq_false_2 (y = node)) by done. simpl. by apply IH'. }
  simpl. destruct (decide (x = node)) as [->|Hne].
  - rewrite bool_decide_eq_true_2 by done. simpl. by rewrite Hrest.
  - rewrite (bool_decide_eq_false_2 (x = node)) by done. simpl.
    apply IH; [done|]. set_solver.
Qed.

(* A click that is at a node runs onNodeClick for it, once. *)
Lemma hit_eq w node :
  wired w → node ∈ nodes (this w) →
  invoke call node "click" w = (onNodeClick node w).2.
Proof.
  intros Hw Hin. unfold invoke.
  rewrite (wired_listeners _ Hw), click_listeners; [done|apply Hw|done].
Qed.

(* What onNodeClick leaves behind: the controller's fields, the classes
   of every element, and the event it dispatches. *)
Lemma onNodeClick_effect w node s :
  svg (this w) = Ref s →
  refs_ok (doc (host w)) (connections (this w)) →
  node < length (doc (host w)) →
  let r := onNodeClick node w in
  r.1 = Normal ∧
  this r.2 = set_selectedNode (Ref node) (this w) ∧
  (∀ e c, c ∈ classes (doc (host r.2)) e ↔
     (c ∈ classes (doc (host w)) e ∧
      ¬ (selectedNode (this w) = Ref e ∧ c = "selected")) ∨
     (e = node ∧ c = "selected") ∨
     (highlightConnections (options (this w)) = true ∧
      e ∈ connections (this w) ∧ c = "active")) ∧
  length (doc (host r.2)) = length (doc (host w)) ∧
  listeners (host r.2) = listeners (host w) ∧
  dispatched (host r.2) =
    dispatched (host w) ++
    [mkEvent s "diagram:nodeSelected" (Some node)
             (getAttribute (doc (host w)) node "data-id")].
Proof.
  intros Hsvg Hconn Hnode.
  unfold onNodeClick, seq_, ret, highlightRelatedConnections, emitEvent, deselect.
  cbn zeta. rewrite forEach_on_doc.
  destruct w as [[d ls evs ts nt fs nf cs nw co] [sv ns cns sel tip [st hc]]].
  simpl in *. subst sv.
  assert (Hadd : ∀ d0 e c, length d0 = length d →
            c ∈ classes (forEach (classList_add "active") cns d0) e ↔
            c ∈ classes d0 e ∨ (e ∈ cns ∧ c = "active")).
  { intros d0 e c Hlen.
    rewrite (elem_of_classes_forEach_add (classList_add "active")
               (λ c, c = "active") cns d0 e c).
    - split; [naive_solver|]. intros [?|[Hin ->]]; [by left|right].
      split; [done|]. split; [done|]. rewrite Hlen.
      eapply Forall_forall in Hconn; [exact Hconn|done].
    - intros. apply classList_add_length.
    - intros x d1. rewrite elem_of_classes_add. naive_solver. }
  assert (Hlen : ∀ d0, length (forEach (classList_add "active") cns d0) = length d0).
  { intros d0. apply forEach_length. intros. apply classList_add_length. }
  assert (Hrlen : length (match sel with
                          | Ref prev => classList_remove "selected" prev d
                          | _ => d
                          end) = length d).
  { destruct sel; [done..|]. apply classList_remove_length. }
  assert (Hattr : ∀ d0 a, getAttribute (forEach (classList_add "active") cns d0) node a
                          = getAttribute d0 node a).
  { intros d0 a. apply (forEach_keeps (λ d, getAttribute d node a)).
    intros. apply getAttribute_classList_add. }
  destruct sel as [| |prev], hc; simpl.
  all: split; [reflexivity|].
  all: split; [reflexivity|].
  all: split; [|by rewrite ?Hattr, ?Hlen, ?classList_add_length, ?Hrlen,
                         ?getAttribute_classList_add, ?getAttribute_classList_remove].
  all: intros e c.
  all: rewrite ?Hadd by (by rewrite ?classList_add_length, ?Hrlen).
  all: rewrite elem_of_classes_add, ?Hrlen, ?elem_of_classes_remove.
  all: clear Hadd Hlen Hattr Hrlen Hconn.
  all: naive_solver.
Qed.

(* At any other element it finds no listener. *)
Lemma hit_outside w e : wired w → e ∉ nodes (this w) → invoke call e "click" w = w.
Proof.
  intros Hw. unfold invoke. rewrite (wired_listeners _ Hw).
  induction (nodes (this w)) as [|y l IH]; intros Hy; [done|].
  apply not_elem_of_cons in Hy as (Hne & Hy). simpl.
  rewrite (bool_decide_eq_false_2 (y = e)) by done. simpl. by apply IH.
Qed.

(* A click at a node, from a state where the selection is tracked. *)
Lemma hit_step w node :
  wired w → node ∈ nodes (this w) →
  let w' := invoke call node "click" w in
  wired w' ∧
  this w' = set_selectedNode (Ref node) (this w) ∧
  (tracked w → only_selected w' node ∧ tracked w') ∧
  (highlightConnections (options (this w)) = true →
   ∀ c, c ∈ connections (this w) → "active" ∈ classes (doc (host w')) c) ∧
  (∀ c, "active" ∈ classes (doc (host w)) c → "active" ∈ classes (doc (host w')) c) ∧
  same_tree (doc (host w)) (doc (host w')).
Proof.
  intros Hw Hin. destruct (wired_svg _ Hw) as [s Hs].
  assert (Hlt : node < length (doc (host w))).
  { eapply refs_ok_lt; [apply Hw|done]. }
  destruct (onNodeClick_effect w node s Hs (wired_connections _ Hw) Hlt)
    as (_ & Hthis & Hcls & Hlen & Hls & _).
  cbn zeta. rewrite hit_eq by done.
  assert (Hst : same_tree (doc (host w)) (doc (host (onNodeClick node w).2))).
  { rewrite onNodeClick_eq. cbv zeta. rewrite Hs. simpl. apply same_tree_click_doc. }
  set (w' := (onNodeClick node w).2) in *.
  assert (Hsel : tracked w → only_selected w' node).
  { intros Htr e He. rewrite Hthis in He. simpl in He. rewrite Hcls.
    split; [|naive_solver]. intros [[Hc Hn]|[[-> _]|(_ & _ & ?)]]; [|done|done].
    destruct Hn. split; [|done]. by apply Htr. }
  split; [|split; [done|split]].
  - destruct Hw as [_ Hnd Hns Hcs Hl]. split; rewrite ?Hthis; simpl.
    + by exists s.
    + done.
    + eapply refs_ok_length; [exact Hlen|done].
    + eapply refs_ok_length; [exact Hlen|done].
    + by rewrite Hls.
  - intros Htr. split; [by apply Hsel|].
    intros e He Hse. apply (Hsel Htr) in Hse as ->; [|done]. by rewrite Hthis.
  - split; [|split; [|exact Hst]].
    + intros Hhc c Hc. rewrite Hcls. by right; right.
    + intros c Hc. rewrite Hcls. left. split; [done|]. by intros [_ ?].
Qed.

(* A click, wherever it travels, keeps the controller wired and its
   fields, the selection apart; it keeps the tree and what is "active". *)
Lemma deliver_wired p w :
  wired w →
  let w' := deliver call p "click" w in
  wired w' ∧
  nodes (this w') = nodes (this w) ∧
  connections (this w') = connections (this w) ∧
  options (this w') = options (this w) ∧
  same_tree (doc (host w)) (doc (host w')) ∧
  (∀ c, "active" ∈ classes (doc (host w)) c → "active" ∈ classes (doc (host w')) c).
Proof.
  cbv zeta. unfold deliver. revert w. induction p as [|e p IH]; intros w Hw; simpl.
  - split; [done|]. do 3 (split; [done|]). split; [apply same_tree_refl|done].
  - destruct (decide (e ∈ nodes (this w))) as [Hin|Hout].
    + destruct (hit_step w e Hw Hin) as (Hw' & Hthis & _ & _ & Hact & Hst).
      destruct (IH _ Hw') as (? & -> & -> & -> & Hst' & Hact'). rewrite Hthis.
      split; [done|]. do 3 (split; [done|]).
      split; [by eapply same_tree_trans|]. intros c Hc. by apply Hact', Hact.
    + rewrite hit_outside by done. by apply IH.
Qed.

(* The clicks of a list are one long journey past the elements on their
   paths. *)
Lemma clicks_deliver l w : ∃ p, clicks l w = deliver call p "click" w.
Proof.
  revert w. induction l as [|e l IH]; intros w; [by exists []|].
  destruct (IH (click e w)) as [p Hp].
  exists (propagation_path (doc (host w)) e "click" ++ p).
  rewrite deliver_app. exact Hp.
Qed.

(* Clicks keep the controller wired and its fields, the selection apart. *)
Lemma clicks_wired l w :
  wired w →
  wired (clicks l w) ∧
  nodes (this (clicks l w)) = nodes (this w) ∧
  connections (this (clicks l w)) = connections (this w) ∧
  options (this (clicks l w)) = options (this w).
Proof.
  intros Hw. destruct (clicks_deliver l w) as [p ->].
  destruct (deliver_wired p w Hw) as (? & ? & ? & ? & _). done.
Qed.

(* A controller that registered no listener is deaf to clicks. *)
Lemma clicks_no_listeners l w : listeners (host w) = [] → clicks l w = w.
Proof.
  intros Hl. destruct (clicks_deliver l w) as [p ->]. by apply deliver_no_listeners.
Qed.

(* The constructor's part: wiring, or an inert controller. *)
Lemma new_wired_or_inert svgElementId o d :
  let w := new svgElementId o (page d) in
  options (this w) = merge o ∧ (wired w ∨ nodes (this w) = []).
Proof.
  destruct (getElementById_cases d svgElementId) as [Hn|[s Hs]].
  - cbn zeta. rewrite new_inert by done. simpl. auto.
  - split; [|left; by eapply new_wired].
    unfold new. set (w := mkWorld (page d) _).
    by destruct (init_shape w s Hs) as ((_ & _ & _ & -> & _) & _).
Qed.

Lemma elem_of_classes_createTooltip d s g c e :
  c ∈ classes (d ++ [tooltip_group s; tooltip_rect g; tooltip_text g]) e →
  c ∈ classes d e ∨
  c ∈ ["interactive-tooltip-group"; "interactive-tooltip"; "interactive-tooltip-text"].
Proof.
  unfold classes. destruct (decide (e < length d)) as [Hlt|Hge].
  - rewrite lookup_app_l by done. auto.
  - rewrite lookup_app_r by lia.
    destruct (e - length d) as [|[|[|n]]]; simpl; set_solver.
Qed.

(* On such a page the constructor leaves the selection tracked. *)
Lemma new_tracked svgElementId o d :
  unselected d → tracked (new svgElementId o (page d)).
Proof.
  intros Hun. destruct (getElementById_cases d svgElementId) as [Hn|[s Hs]].
  - rewrite new_inert by done. intros e He. by inversion He.
  - unfold new. set (w := mkWorld (page d) _).
    destruct (init_shape w s Hs) as ((_ & Hns & _ & _ & Hsel) & Hd & _).
    intros e. rewrite Hns, Hd. clear Hns Hd Hsel. intros He Hse. exfalso.
    apply elem_of_querySelectorAll_class in He. revert He Hse.
    unfold w; simpl.
    destruct (given_showTooltip o) as [[]|]; simpl; intros He Hse;
      try (by apply (Hun e));
      apply elem_of_classes_createTooltip in He, Hse;
      (destruct He as [He|He]; [|set_solver]);
      (destruct Hse as [Hse|Hse]; [|set_solver]); by apply (Hun e).
Qed.

Lemma deliver_tracked p w :
  wired w → tracked w → tracked (deliver call p "click" w).
Proof.
  unfold deliver. revert w. induction p as [|e p IH]; intros w Hw Htr; simpl; [done|].
  destruct (decide (e ∈ nodes (this w))) as [Hin|Hout].
  - destruct (hit_step w e Hw Hin) as (Hw' & _ & Hsel & _).
    apply IH; [done|]. by apply Hsel.
  - rewrite hit_outside by done. by apply IH.
Qed.

Lemma clicks_tracked l w :
  wired w → tracked w → tracked (clicks l w).
Proof.
  intros Hw Htr. destruct (clicks_deliver l w) as [p ->]. by apply deliver_tracked.
Qed.



Lemma unselected_interactive_page : unselected (interactive_page ["interactive-node"]).
Proof.
  intros e _. unfold classes.
  destruct e as [|[|[|[|[|[|[|e]]]]]]]; vm_compute; set_solver.
Qed.




(** C8: an InteractiveDiagramController constructed without disabling
    highlightConnections (the option left out, or given as true) marks
    every connection element "active" on every click on a node, whichever
    node it is and whatever was clicked before. *)
Theorem click_activates_all_connections svgElementId o d (before : list elem) node :
  given_highlightConnections o ≠ Some false →
  let w := clicks before (new svgElementId o (page d)) in
  node ∈ nodes (this w) →
  ∀ c, c ∈ connections (this w) → "active" ∈ classes (doc (host (click node w))) c.
Proof.
  intros Ho w Hin c Hc.
  destruct (new_wired_or_inert svgElementId o d) as (Hopt & [Hw|Hnil]).
  - destruct (clicks_wired before _ Hw) as (Hw' & Hns & Hcs & Hos).
    fold w in Hw', Hns, Hcs, Hos.
    destruct (hit_step w node Hw' Hin) as (Hw1 & _ & _ & Hact & _).
    unfold click. rewrite fire_event_click. unfold propagation_path.
    rewrite deliver_cons.
    apply (deliver_wired _ _ Hw1). apply Hact; [|done].
    rewrite Hos, Hopt. unfold merge; simpl.
    by destruct (given_highlightConnections o) as [[]|].
  - exfalso.
    destruct (getElementById_cases d svgElementId) as [Hn|[s Hs]].
    + unfold w in Hin. rewrite new_inert in Hin by done.
      rewrite clicks_no_listeners in Hin by done. simpl in Hin. by inversion Hin.
    + pose proof (new_wired svgElementId o d s Hs) as Hw.
      destruct (clicks_wired before _ Hw) as (_ & Hns & _).
      fold w in Hns. rewrite Hns, Hnil in Hin. by inversion Hin.
Qed.

Lemma click_activates_all_connections_witness :
  let w := clicks [1] (new "diagram" no_options
                         (page (interactive_page ["interactive-node"]))) in
  connections (this w) = [5; 6] ∧
  ("active" ∈ classes (doc (host (click 2 w))) 5) ∧
  ("active" ∈ classes (doc (host (click 2 w))) 6).
Proof.
  intros w.
  assert (Hcs : connections (this w) = [5; 6]) by (vm_compute; reflexivity).
  assert (Hns : nodes (this w) = [1; 2; 4]) by (vm_compute; reflexivity).
  pose proof (click_activates_all_connections "diagram" no_options
                (interactive_page ["interactive-node"]) [1] 2) as H.
  cbv zeta in H. fold w in H. clearbody w. rewrite Hcs, Hns in H.
  split; [done|]. split; apply H; try discriminate; set_solver.
Defined.

(* reset(), field by field and element by element. *)
Lemma reset_frame w :
  let w' := reset w in
  tooltip (this w') = tooltip (this w) ∧
  (∀ e, style (doc (host w')) e = style (doc (host w)) e ∧
        transform (doc (host w')) e = transform (doc (host w)) e ∧
        textContent (doc (host w')) e = textContent (doc (host w)) e) ∧
  (∀ e c, c ∈ classes (doc (host w')) e ↔
          c ∈ classes (doc (host w)) e ∧
          ¬ (selectedNode (this w) = Ref e ∧ c = "selected") ∧
          ¬ (e ∈ connections (this w) ∧ c = "active")) ∧
  truthy (selectedNode (this w')) = false ∧
  (svg (this w') = svg (this w) ∧ nodes (this w') = nodes (this w) ∧
   connections (this w') = connections (this w) ∧
   options (this w') = options (this w)) ∧
  (listeners (host w') = listeners (host w) ∧
   dispatched (host w') = dispatched (host w) ∧
   timers (host w') = timers (host w) ∧
   length (doc (host w')) = length (doc (host w))).
Proof.
  unfold reset. cbv zeta. rewrite forEach_on_doc.
  destruct w as [[d ls evs ts nt fs nf cs nw co] [sv ns cns sel tip opts]].
  set (unmark := forEach (λ conn, classList_remove "active" conn)).
  assert (Hst : ∀ d0 e, style (unmark cns d0) e = style d0 e).
  { intros d0 e. apply (forEach_keeps (λ d, style d e)).
    intros. apply style_classList_remove. }
  assert (Htr : ∀ d0 e, transform (unmark cns d0) e = transform d0 e).
  { intros d0 e. apply (forEach_keeps (λ d, transform d e)).
    intros. apply transform_classList_remove. }
  assert (Htx : ∀ d0 e, textContent (unmark cns d0) e = textContent d0 e).
  { intros d0 e. apply (forEach_keeps (λ d, textContent d e)).
    intros. apply textContent_classList_remove. }
  assert (Hlen : ∀ d0, length (unmark cns d0) = length d0).
  { intros d0. apply forEach_length. intros. apply classList_remove_length. }
  assert (Hcl : ∀ d0 e c, c ∈ classes (unmark cns d0) e ↔
                          c ∈ classes d0 e ∧ ¬ (e ∈ cns ∧ c = "active")).
  { intros d0 e c.
    apply (elem_of_classes_forEach_remove (classList_remove "active")
             (λ c, c = "active")).
    intros x d1. rewrite elem_of_classes_remove. naive_solver. }
  destruct sel as [| |prev]; simpl.
  all: split; [reflexivity|].
  all: split; [intros e; by rewrite Hst, Htr, Htx, ?style_classList_remove,
                 ?transform_classList_remove, ?textContent_classList_remove|].
  all: split; [|by rewrite Hlen, ?classList_remove_length].
  all: intros e c; rewrite Hcl, ?elem_of_classes_remove.
  all: clear; naive_solver.
Qed.

(** C10: reset() takes "selected" off the stored selection, clears the
    stored selection, and takes "active" off the connections; no other
    class of any element changes, and no element's inline style,
    transform or text content changes, so the tooltip overlay keeps its
    visibility, position and text.  In particular after a hover whatever
    opacity, position and text the hover gave the tooltip elements is
    still there after reset(). *)
Theorem reset_leaves_tooltip w :
  let w' := reset w in
  (tooltip (this w') = tooltip (this w) ∧
   ∀ e, style (doc (host w')) e = style (doc (host w)) e ∧
        transform (doc (host w')) e = transform (doc (host w)) e ∧
        textContent (doc (host w')) e = textContent (doc (host w)) e) ∧
  (∀ e c, c ∈ classes (doc (host w')) e ↔
          c ∈ classes (doc (host w)) e ∧
          ¬ (selectedNode (this w) = Ref e ∧ c = "selected") ∧
          ¬ (e ∈ connections (this w) ∧ c = "active")) ∧
  truthy (selectedNode (this w')) = false ∧
  (∀ node,
     let hovered := (onNodeHover node w).2 in
     tooltip (this (reset hovered)) = tooltip (this hovered) ∧
     ∀ e, style (doc (host (reset hovered))) e = style (doc (host hovered)) e ∧
          transform (doc (host (reset hovered))) e = transform (doc (host hovered)) e ∧
          textContent (doc (host (reset hovered))) e =
            textContent (doc (host hovered)) e).
Proof.
  destruct (reset_frame w) as (Ht & Hel & Hcl & Hsel & _).
  split; [split; [exact Ht|exact Hel]|]. split; [exact Hcl|]. split; [exact Hsel|].
  intros node hovered. destruct (reset_frame hovered) as (Ht' & Hel' & _).
  split; [exact Ht'|exact Hel'].
Qed.

(* A hover shows the tooltip next to the node; reset() leaves it shown. *)
Example hover_then_reset :
  let w := new "diagram" no_options (page (interactive_page ["interactive-node"])) in
  let w' := reset (fire_event call 1 "mouseenter" (click 1 w)) in
  tooltip (this w') = Ref 7 ∧
  map (λ e, style (doc (host w')) e !! "opacity") [7; 8; 9] =
    [Some (SStr "1"); Some (SStr "1"); Some (SStr "1")] ∧
  transform (doc (host w')) 7 = Some (10, -20)%Z ∧
  textContent (doc (host w')) 9 = "Compressor" ∧
  selected_nodes w' = [] ∧ getSelectedNode w' = Null.
Proof. vm_compute. by repeat split. Qed.

End Interactive.

(* --------------------------------------------------------------------- *)
(*  StateDiagramController                                               *)
(* --------------------------------------------------------------------- *)

Section StateDiagram.
Import StateDiagramController.
Implicit Types (w : World t) (e : elem).

Lemma getAttribute_activate l S d e a :
  getAttribute (activate l S d) e a = getAttribute d e a.
Proof.
  unfold activate. rewrite getAttribute_classList_add.
  apply (forEach_keeps (λ d, getAttribute d e a)).
  intros. apply getAttribute_classList_remove.
Qed.

Lemma activate_length l S d : length (activate l S d) = length d.
Proof.
  unfold activate. rewrite classList_add_length.
  apply forEach_length. intros. apply classList_remove_length.
Qed.

Lemma elem_of_classes_activate l S d e c :
  S < length d →
  c ∈ classes (activate l S d) e ↔
  (c ∈ classes d e ∧ ¬ (e ∈ l ∧ c = "active")) ∨ (e = S ∧ c = "active").
Proof.
  intros HS. unfold activate. rewrite elem_of_classes_add.
  rewrite (elem_of_classes_forEach_remove (classList_remove "active")
             (λ c, c = "active")).
  - rewrite forEach_length by (intros; apply classList_remove_length).
    naive_solver.
  - intros x d1. rewrite elem_of_classes_remove. naive_solver.
Qed.

(* transitionTo, with and without a container. *)
Lemma transitionTo_eq w S :
  transitionTo S w =
  let w' := mkWorld (with_doc (activate (states (this w)) S) (host w))
                    (set_currentState (Ref S) (this w)) in
  match svg (this w) with
  | Ref s => (Normal,
              on_host (dispatchEvent (stateChanged s (doc (host w)) S)) w')
  | _ => (Throw "TypeError", w')
  end.
Proof.
  unfold transitionTo, seq_, ret, stateChanged. cbv zeta. rewrite forEach_on_doc.
  destruct w as [[d ls evs ts nt fs nf cs nw co] [sv sts cur]]; simpl.
  fold (activate sts S d). rewrite getAttribute_activate. by destruct sv.
Qed.

(** C6: for a StateDiagramController whose container exists and any of
    its state elements S, each of two calls of transitionTo(S) in a row
    returns normally, leaves S and only S marked "active" among the state
    elements, and leaves getCurrentState() at S; each call dispatches one
    "stateChanged" event on the container, carrying S's data-state-id,
    and nothing else is dispatched. *)
Theorem transitionTo_twice w s S :
  svg (this w) = Ref s →
  refs_ok (doc (host w)) (states (this w)) →
  S ∈ states (this w) →
  let r1 := transitionTo S w in
  let r2 := transitionTo S r1.2 in
  let only_active w' :=
    ∀ e, e ∈ states (this w) → ("active" ∈ classes (doc (host w')) e ↔ e = S) in
  let ev := stateChanged s (doc (host w)) S in
  (r1.1 = Normal ∧ only_active r1.2 ∧ getCurrentState r1.2 = Ref S ∧
   dispatched (host r1.2) = dispatched (host w) ++ [ev]) ∧
  (r2.1 = Normal ∧ only_active r2.2 ∧ getCurrentState r2.2 = Ref S ∧
   dispatched (host r2.2) = dispatched (host w) ++ [ev; ev]).
Proof.
  intros Hs Hok HS r1 r2 only_active ev.
  pose proof (refs_ok_lt _ _ _ Hok HS) as Hlt.
  assert (H1 : r1 = (Normal, mkWorld
                 (dispatchEvent ev (with_doc (activate (states (this w)) S) (host w)))
                 (set_currentState (Ref S) (this w)))).
  { unfold r1. rewrite transitionTo_eq. cbv zeta. by rewrite Hs. }
  assert (H2 : r2 = (Normal, mkWorld
                 (dispatchEvent ev (with_doc (activate (states (this w)) S)
                    (host r1.2)))
                 (set_currentState (Ref S) (this w)))).
  { unfold r2. rewrite transitionTo_eq. cbv zeta. rewrite H1; simpl. rewrite Hs.
    unfold stateChanged, ev, stateChanged. by rewrite getAttribute_activate. }
  rewrite H2, H1. clear H1 H2 r1 r2.
  destruct w as [[d ls evs ts nt fs nf cs nw co] [sv sts cur]]; simpl in *.
  unfold only_active; simpl.
  repeat split; try done.
  - rewrite elem_of_classes_activate by done. naive_solver.
  - intros ->. rewrite elem_of_classes_activate by done. by right.
  - rewrite elem_of_classes_activate by (by rewrite activate_length).
    naive_solver.
  - intros ->. rewrite elem_of_classes_activate by (by rewrite activate_length).
    by right.
  - by rewrite <- app_assoc.
Qed.

Lemma transitionTo_twice_witness :
  let w := new "states" (page state_page) in
  let w2 := (transitionTo 2 (transitionTo 2 w).2).2 in
  states (this w) = [1; 2; 3] ∧
  (∀ e, e ∈ [1; 2; 3] → ("active" ∈ classes (doc (host w2)) e ↔ e = 2)) ∧
  getCurrentState w2 = Ref 2 ∧
  dispatched (host w2) =
    [mkEvent 0 "stateChanged" None (Some "cooling");
     mkEvent 0 "stateChanged" None (Some "cooling")].
Proof.
  intros w w2.
  assert (Hsts : states (this w) = [1; 2; 3]) by (vm_compute; reflexivity).
  assert (Hs : svg (this w) = Ref 0) by (vm_compute; reflexivity).
  assert (Hok : refs_ok (doc (host w)) (states (this w)))
    by (vm_compute; repeat constructor).
  assert (Hev : dispatched (host w) = []) by (vm_compute; reflexivity).
  assert (Hid : stateChanged 0 (doc (host w)) 2 =
                mkEvent 0 "stateChanged" None (Some "cooling"))
    by (vm_compute; reflexivity).
  clearbody w.
  assert (HS : 2 ∈ states (this w)) by (rewrite Hsts; set_solver).
  pose proof (transitionTo_twice w 0 2 Hs Hok HS) as H.
  cbv zeta in H. fold w2 in H. clearbody w2.
  rewrite Hsts, Hev, Hid in H. destruct H as (_ & _ & Hact & Hcur & Hdisp).
  split; [done|]. split; [exact Hact|]. split; [exact Hcur|exact Hdisp].
Defined.

(* ------------------------------------------------------------------ *)
(*  playSequence                                                       *)
(* ------------------------------------------------------------------ *)

Lemma position_0 stateIds : position stateIds 0 = 0.
Proof.
  unfold position. case_decide; [done|]. by apply Nat.Div0.mod_0_l.
Qed.

(* The test and reset at the head of play move the counter to the next
   position, wrapping after the last. *)
Lemma position_S stateIds j :
  (if decide (length stateIds ≤ S (position stateIds j))
   then 0 else S (position stateIds j)) = position stateIds (S j).
Proof.
  unfold position. set (n := length stateIds).
  destruct (decide (n = 0)) as [Hn|Hn].
  - rewrite decide_True by lia. done.
  - pose proof (Nat.div_mod_eq j n) as Hj.
    pose proof (Nat.mod_upper_bound j n Hn) as Hr.
    destruct (decide (n ≤ S (j mod n))) as [Hle|Hgt].
    + apply (Nat.mod_unique (S j) n (S (j / n)) 0); [lia|]. nia.
    + apply (Nat.mod_unique (S j) n (j / n) (S (j mod n))); [lia|]. lia.
Qed.

Lemma position_lt stateIds j : stateIds ≠ [] → position stateIds j < length stateIds.
Proof.
  intros Hne. unfold position. destruct stateIds; [done|].
  rewrite decide_False by (simpl; lia). apply Nat.mod_upper_bound. simpl; lia.
Qed.

(* A transition found under a constructed controller has a container to
   dispatch on. *)
Lemma find_state_svg w id state :
  constructed w → find_state w id = Some state → ∃ s, svg (this w) = Ref s.
Proof.
  intros [Hs|Hnil] Hf; [done|]. unfold find_state in Hf. by rewrite Hnil in Hf.
Qed.

Lemma step_to_undefined w : step_to None w = w.
Proof.
  unfold step_to, find_state.
  assert (H : ∀ l, List.find (λ s, strict_eq (getAttribute (doc (host w)) s
                                                "data-state-id") None) l = None).
  { induction l as [|x l IH]; [done|]. simpl.
    by destruct (getAttribute _ _ _). }
  by rewrite H.
Qed.

(* What step_to leaves alone. *)
Lemma step_to_host id w :
  constructed w →
  let w' := step_to id w in
  constructed w' ∧ cells (host w') = cells (host w) ∧
  timers (host w') = timers (host w) ∧ next_timer (host w') = next_timer (host w) ∧
  now (host w') = now (host w).
Proof.
  intros Hc. unfold step_to. destruct (find_state w id) as [state|] eqn:Hf; [|done].
  destruct (find_state_svg w id state Hc Hf) as [s Hs].
  rewrite transitionTo_eq. cbv zeta. rewrite Hs.
  destruct w as [[] []]; simpl in *. split; [|done]. left. by exists s.
Qed.

(* step_to reads and writes the view only. *)
Lemma view_step_to id w1 w2 :
  view w1 = view w2 → view (step_to id w1) = view (step_to id w2).
Proof.
  destruct w1 as [[d1 ? evs1 ? ? ? ? ? ? ?] c1], w2 as [[d2 ? evs2 ? ? ? ? ? ? ?] c2].
  unfold view; simpl. intros [= -> -> ->].
  unfold step_to, find_state; simpl.
  destruct (List.find _ _) as [state|]; [|done].
  rewrite !transitionTo_eq. cbv zeta. simpl. by destruct (svg c2).
Qed.

(* One call of play, with the counter at [c]. *)
Lemma play_eq stateIds interval index c w :
  constructed w → cells (host w) !! index = Some c →
  let p := if decide (length stateIds ≤ c) then 0 else c in
  ∃ w', play stateIds interval index w = (Normal, w') ∧
        view w' = view (step_to (stateIds !! p) w) ∧
        constructed w' ∧
        cells (host w') !! index = Some (S p) ∧
        now (host w') = now (host w) ∧
        timers (host w') =
          timers (host w) ++
          [mkTimer (next_timer (host w)) (now (host w) + 0 `max` interval) None
                   (StatePlay stateIds interval index)].
Proof.
  intros Hc Hcell p.
  pose proof (lookup_lt_Some _ _ _ Hcell) as Hlt.
  set (w0 := if decide (length stateIds ≤ get_cell index (host w))
             then on_host (set_cell index 0) w else w).
  assert (H0 : view w0 = view w ∧ constructed w0 ∧
               cells (host w0) !! index = Some p ∧ now (host w0) = now (host w) ∧
               timers (host w0) = timers (host w) ∧
               next_timer (host w0) = next_timer (host w)).
  { unfold w0, p, get_cell. rewrite Hcell. simpl.
    destruct (decide (length stateIds ≤ c)); [|done].
    destruct w as [[] []]; simpl in *. repeat split; try done.
    by apply list_lookup_insert_eq. }
  destruct H0 as (Hv0 & Hc0 & Hcell0 & Hnow0 & Hts0 & Hnt0).
  assert (Hp : get_cell index (host w0) = p) by (unfold get_cell; by rewrite Hcell0).
  destruct (step_to_host (stateIds !! p) w0 Hc0) as (Hc1 & Hcs1 & Hts1 & Hnt1 & Hnow1).
  set (w1 := step_to (stateIds !! p) w0) in *.
  assert (Hrun : (match find_state w0 (stateIds !! p) with
                  | Some state => transitionTo state w0
                  | None => (Normal, w0)
                  end) = (Normal, w1)).
  { unfold w1, step_to. destruct (find_state w0 _) as [state|] eqn:Hf; [|done].
    destruct (find_state_svg w0 _ state Hc0 Hf) as [s Hs].
    rewrite transitionTo_eq. cbv zeta. by rewrite Hs. }
  eexists. split.
  { unfold play, seq_, ret. fold w0. rewrite Hp, Hrun. reflexivity. }
  assert (Hp1 : get_cell index (host w1) = p)
    by (unfold get_cell; by rewrite Hcs1, Hcell0).
  assert (Hv1 : view w1 = view (step_to (stateIds !! p) w))
    by (by apply view_step_to).
  apply lookup_lt_Some in Hcell0. rewrite <- Hcs1 in Hcell0.
  rewrite <- Hnow0, <- Hnow1, <- Hts0, <- Hts1, <- Hnt0, <- Hnt1.
  clear Hrun Hcs1 Hts1 Hnt1 Hnow1 Hv0 Hc0 Hnow0 Hts0 Hnt0 Hp Hcell Hlt Hc.
  clearbody w1 w0.
  destruct w1 as [[d1 ls1 evs1 ts1 nt1 fs1 nf1 cs1 nw1 co1] c1]; simpl in *.
  repeat split; try done.
  rewrite Hp1. by apply list_lookup_insert_eq.
Qed.

(* The call of playSequence makes call number 0 of play. *)
Lemma playSequence_cycling stateIds interval w :
  constructed w → timers (host w) = [] →
  let r := playSequence stateIds interval w in
  r.1 = Normal ∧
  view r.2 = view (step_to (stateIds !! position stateIds 0) w) ∧
  ∃ index, cycling stateIds (default 1500%Z interval) (now (host w)) index 0 r.2.
Proof.
  intros Hc Hts. unfold playSequence. simpl.
  set (w0 := mkWorld (with_cells (λ cs, cs ++ [0]) (host w)) (this w)).
  assert (H0 : view w0 = view w ∧ constructed w0 ∧
               cells (host w0) !! length (cells (host w)) = Some 0 ∧
               now (host w0) = now (host w) ∧ timers (host w0) = []).
  { unfold w0. destruct w as [[] []]; simpl in *. repeat split; try done.
    rewrite lookup_app_r by done. by rewrite Nat.sub_diag. }
  destruct H0 as (Hv0 & Hc0 & Hcell0 & Hnow0 & Hts0).
  destruct (play_eq stateIds (default 1500%Z interval) _ 0 w0 Hc0 Hcell0)
    as (w' & -> & Hv & Hc' & Hcell' & Hnow' & Hts').
  assert (Hp : (if decide (length stateIds ≤ 0) then 0 else 0) = 0)
    by (by case_decide).
  rewrite Hp in Hv, Hcell'. rewrite position_0. simpl.
  split; [done|]. split; [rewrite Hv; by apply view_step_to|].
  exists (length (cells (host w))). split.
  - done.
  - eexists. rewrite Hts', Hts0, Hnow0. simpl. do 2 f_equal. lia.
  - by rewrite position_0.
  - rewrite Hnow', Hnow0. lia.
Qed.

(* A timer callback makes the next call of play. *)
Lemma fire_cycling stateIds interval t0 index j w :
  cycling stateIds interval t0 index j w →
  let w' := fire_timer call w in
  cycling stateIds interval t0 index (S j) w' ∧
  view w' = view (step_to (stateIds !! position stateIds (S j)) w).
Proof.
  intros [Hc [hd Hts] Hcell Hnow].
  set (due := (t0 + (Z.of_nat j + 1) * (0 `max` interval))%Z) in *.
  set (w0 := mkWorld (with_timers (λ _, []) (with_now due (host w))) (this w)).
  assert (Hfire : fire_timer call w =
                  (play stateIds interval index w0).2).
  { unfold fire_timer. rewrite Hts. simpl. unfold rearm. simpl.
    unfold w0, on_host. do 3 f_equal.
    destruct w as [[] []]; simpl in *. subst. unfold with_timers, with_now. simpl.
    rewrite bool_decide_eq_true_2 by done. simpl. f_equal. lia. }
  assert (H0 : view w0 = view w ∧ constructed w0 ∧
               cells (host w0) !! index = Some (S (position stateIds j)) ∧
               now (host w0) = due ∧ timers (host w0) = []).
  { unfold w0. by destruct w as [[] []]. }
  destruct H0 as (Hv0 & Hc0 & Hcell0 & Hnow0 & Hts0).
  destruct (play_eq stateIds interval index _ w0 Hc0 Hcell0)
    as (w' & Hplay & Hv & Hc' & Hcell' & Hnow' & Hts').
  rewrite position_S in Hv, Hcell'.
  cbv zeta. rewrite Hfire, Hplay. simpl. split.
  - split; [done| |done|].
    + eexists. rewrite Hts', Hts0, Hnow0. simpl. do 2 f_equal.
      unfold due. lia.
    + rewrite Hnow', Hnow0. unfold due. lia.
  - rewrite Hv. by apply view_step_to.
Qed.



End StateDiagram.

(* --------------------------------------------------------------------- *)
(*  RefrigerationCycleController                                         *)
(* --------------------------------------------------------------------- *)

Section Refrigeration.
Import RefrigerationCycleController.
Implicit Types (w : World t).
#[local] Arguments Nat.modulo : simpl never.

Lemma valid_offset_next v : valid_offset v → valid_offset ((v + 2) mod 100).
Proof.
  intros [[h ->] Hlt]. split; [|by apply Nat.mod_upper_bound].
  destruct (decide (h = 49)) as [->|Hne].
  - by exists 0.
  - rewrite Nat.mod_small by lia. exists (S h). lia.
Qed.

Lemma valid_offset_2 : valid_offset ((0 + 2) mod 100).
Proof. split; [exists 1; reflexivity|apply Nat.mod_upper_bound; lia]. Qed.

Lemma querySelector_lt d root sel path :
  querySelector d root sel = Ref path → path < length d.
Proof.
  unfold querySelector. destruct (querySelectorAll d root sel) as [|e l] eqn:Hq; [done|].
  intros [= <-]. pose proof (querySelectorAll_refs_ok d root sel) as Hok.
  rewrite Hq in Hok. by apply Forall_inv in Hok.
Qed.

(* One pass of animate while the animation runs. *)
Lemma animate_running offset w path v :
  isAnimating (this w) = true → flowPath (this w) = Ref path →
  cells (host w) !! offset = Some v → path < length (doc (host w)) →
  let w' := animate offset w in
  let v' := (v + 2) mod 100 in
  frames (host w') = frames (host w) ++ [(next_frame (host w), Animate offset)] ∧
  animationFrame (this w') = Some (next_frame (host w)) ∧
  isAnimating (this w') = true ∧ flowPath (this w') = Ref path ∧
  cells (host w') !! offset = Some v' ∧ dashoffset w' = Some (SNum v') ∧
  length (doc (host w')) = length (doc (host w)).
Proof.
  intros Ha Hp Hc Hlt.
  destruct w as [[d ls evs ts nt fs nf cs nw co] [sv an af fp cp cd ex ev]].
  simpl in *. subst an fp. unfold animate, dashoffset, get_cell; simpl.
  rewrite Hc; simpl.
  assert (Hc' : <[offset:=(v + 2) mod 100]> cs !! offset = Some ((v + 2) mod 100)).
  { apply list_lookup_insert_eq. by apply lookup_lt_Some in Hc. }
  rewrite Hc'; simpl. repeat split; try done.
  - rewrite style_style_set by done. by rewrite decide_True.
  - apply style_set_length.
Qed.

(* A pass of animate when the animation is stopped or has no flow path. *)
Lemma animate_idle offset w :
  isAnimating (this w) = false ∨ truthy (flowPath (this w)) = false →
  animate offset w = on_this (set_isAnimating false) w.
Proof.
  intros H. unfold animate. destruct (isAnimating (this w)); [|done].
  destruct H as [?|H]; [done|]. by destruct (flowPath (this w)).
Qed.

Lemma steady_idle init w :
  steady init w → isAnimating (this w) = false → frames (host w) = [].
Proof.
  intros (_ & _ & Hf) Hi. destruct (frames (host w)) as [|[hd []] []]; try done.
  destruct Hf as (? & _). congruence.
Qed.

Lemma steady_stopped init w :
  (∀ path, flowPath (this w) = Ref path → path < length (doc (host w))) →
  (dashoffset w = init ∨ ∃ v, dashoffset w = Some (SNum v) ∧ valid_offset v) →
  frames (host w) = [] →
  steady init (on_this (set_isAnimating false) w).
Proof.
  destruct w as [[] []]; simpl. intros Hp Hd ->. unfold steady, dashoffset in *.
  simpl in *. done.
Qed.

Lemma startAnimation_steady init w : steady init w → steady init (startAnimation w).
Proof.
  intros Hst. unfold startAnimation.
  destruct (isAnimating (this w)) eqn:Hi; [done|].
  pose proof (steady_idle init w Hst Hi) as Hfs.
  destruct Hst as (Hpath & Hdash & _). simpl.
  set (w1 := mkWorld _ _).
  assert (H1 : isAnimating (this w1) = true ∧ flowPath (this w1) = flowPath (this w) ∧
               cells (host w1) !! length (cells (host w)) = Some 0 ∧
               doc (host w1) = doc (host w) ∧ frames (host w1) = [] ∧
               dashoffset w1 = dashoffset w).
  { unfold w1. destruct w as [[] []]; simpl in *. repeat split; try done.
    rewrite lookup_app_r by done. by rewrite Nat.sub_diag. }
  destruct H1 as (Ha1 & Hp1 & Hc1 & Hd1 & Hf1 & Hda1). clearbody w1.
  destruct (flowPath (this w)) as [| |path] eqn:Hfp.
  - rewrite animate_idle by (right; by rewrite Hp1).
    apply steady_stopped; rewrite ?Hp1, ?Hd1, ?Hda1; done.
  - rewrite animate_idle by (right; by rewrite Hp1).
    apply steady_stopped; rewrite ?Hp1, ?Hd1, ?Hda1; done.
  - assert (Hlt : path < length (doc (host w1))) by (rewrite Hd1; by apply Hpath).
    destruct (animate_running _ w1 path 0 Ha1 Hp1 Hc1 Hlt)
      as (Hf & Haf & Ha & Hp & Hc & Hda & Hlen).
    unfold steady. rewrite Hf, Hf1, Hp, Hlen, Hd1. simpl.
    split; [by intros ? [= <-]; apply Hpath|].
    split; [right; eexists; split; [exact Hda|apply valid_offset_2]|].
    split; [done|]. split; [done|].
    exists path, ((0 + 2) mod 100). repeat split; try done; apply valid_offset_2.
Qed.

Lemma stopAnimation_frames init w :
  steady init w →
  frames (host (stopAnimation w)) = [] ∧ isAnimating (this (stopAnimation w)) = false.
Proof.
  intros (_ & _ & Hf). unfold stopAnimation.
  destruct w as [[d ls evs ts nt fs nf cs nw co] [sv an af fp cp cd ex ev]].
  simpl in *. destruct fs as [|[hd []] []]; try done.
  - by destruct af.
  - destruct Hf as (_ & -> & _). simpl. by rewrite bool_decide_eq_true_2.
Qed.

Lemma stopAnimation_steady init w : steady init w → steady init (stopAnimation w).
Proof.
  intros Hst. destruct (stopAnimation_frames init w Hst) as (Hf & Hi).
  destruct Hst as (Hpath & Hdash & _). unfold steady. rewrite Hf.
  assert (H : flowPath (this (stopAnimation w)) = flowPath (this w) ∧
              doc (host (stopAnimation w)) = doc (host w)).
  { unfold stopAnimation. destruct w as [[] []]; simpl. by destruct animationFrame0. }
  destruct H as (Hp & Hd). unfold dashoffset in *. rewrite Hp, Hd. done.
Qed.

Lemma fire_frame_steady init w : steady init w → steady init (fire_frame call w).
Proof.
  intros Hst. unfold fire_frame.
  destruct (frames (host w)) as [|[hd f] fs] eqn:Hfs; [done|].
  pose proof Hst as (Hpath & Hdash & Hf). rewrite Hfs in Hf.
  destruct f; try done. destruct fs; [|done].
  destruct Hf as (Ha & Haf & path & v & Hp & Hc & Hv & Hda). simpl.
  set (w1 := on_host (cancelAnimationFrame hd) w).
  assert (H1 : isAnimating (this w1) = true ∧ flowPath (this w1) = Ref path ∧
               cells (host w1) !! offset = Some v ∧
               doc (host w1) = doc (host w) ∧ frames (host w1) = []).
  { unfold w1. destruct w as [[] []]; simpl in *. subst. simpl.
    by rewrite bool_decide_eq_true_2. }
  destruct H1 as (Ha1 & Hp1 & Hc1 & Hd1 & Hf1). clearbody w1.
  assert (Hlt : path < length (doc (host w1))) by (rewrite Hd1; by apply Hpath).
  destruct (animate_running _ w1 path v Ha1 Hp1 Hc1 Hlt)
    as (Hf' & Haf' & Ha' & Hp' & Hc' & Hda' & Hlen).
  pose proof (valid_offset_next v Hv) as Hv'.
  unfold steady. rewrite Hf', Hf1, Hp', Hlen, Hd1. simpl.
  split; [by intros ? [= <-]; apply Hpath|].
  split; [right; eexists; split; [exact Hda'|done]|].
  split; [done|]. split; [done|]. by exists path, ((v + 2) mod 100).
Qed.

Lemma act_steady init a w : steady init w → steady init (act a w).
Proof.
  intros Hst. destruct a; simpl.
  - by apply startAnimation_steady.
  - by apply stopAnimation_steady.
  - unfold toggleAnimation. destruct (isAnimating (this w)).
    + by apply stopAnimation_steady.
    + by apply startAnimation_steady.
  - by apply fire_frame_steady.
Qed.

Lemma run_steady init l w : steady init w → steady init (run l w).
Proof.
  unfold run. revert w. induction l as [|a l IH]; intros w Hst; [done|].
  simpl. by apply IH, act_steady.
Qed.

(* The constructor leaves a steady controller. *)
Lemma new_steady svgElementId d :
  let w := new svgElementId (page d) in steady (dashoffset w) w.
Proof.
  cbv zeta. unfold new, init; simpl.
  destruct (getElementById d svgElementId) as [| |s]; simpl.
  - repeat split; try done. by left.
  - repeat split; try done. by left.
  - repeat split; try done; [|by left].
    simpl. intros path. apply querySelector_lt.
Qed.

(* The first pass, made by startAnimation itself, writes 2. *)
Lemma startAnimation_first init w path :
  steady init w → isAnimating (this w) = false → flowPath (this w) = Ref path →
  let w' := startAnimation w in
  ∃ hd offset, frames (host w') = [(hd, Animate offset)] ∧
               cells (host w') !! offset = Some ((0 + 2) mod 100) ∧
               dashoffset w' = Some (SNum ((0 + 2) mod 100)).
Proof.
  intros Hst Hi Hfp. pose proof (steady_idle init w Hst Hi) as Hfs.
  destruct Hst as (Hpath & _ & _). cbv zeta. unfold startAnimation. rewrite Hi. simpl.
  set (w1 := mkWorld _ _).
  assert (H1 : isAnimating (this w1) = true ∧ flowPath (this w1) = Ref path ∧
               cells (host w1) !! length (cells (host w)) = Some 0 ∧
               doc (host w1) = doc (host w) ∧ frames (host w1) = []).
  { unfold w1. destruct w as [[] []]; simpl in *. repeat split; try done.
    rewrite lookup_app_r by done. by rewrite Nat.sub_diag. }
  destruct H1 as (Ha1 & Hp1 & Hc1 & Hd1 & Hf1). clearbody w1.
  assert (Hlt : path < length (doc (host w1))) by (rewrite Hd1; by apply Hpath).
  destruct (animate_running _ w1 path 0 Ha1 Hp1 Hc1 Hlt)
    as (Hf & _ & _ & _ & Hc & Hda & _).
  eexists _, _. rewrite Hf, Hf1. by repeat split.
Qed.

(* Each frame adds 2 modulo 100 and writes the result. *)
Lemma fire_frame_next init w hd offset v :
  steady init w → frames (host w) = [(hd, Animate offset)] →
  cells (host w) !! offset = Some v →
  let w' := fire_frame call w in
  ∃ hd', frames (host w') = [(hd', Animate offset)] ∧
         cells (host w') !! offset = Some ((v + 2) mod 100) ∧
         dashoffset w' = Some (SNum ((v + 2) mod 100)).
Proof.
  intros (Hpath & _ & Hf) Hfs Hc. rewrite Hfs in Hf.
  destruct Hf as (Ha & _ & path & v0 & Hp & _).
  cbv zeta. unfold fire_frame. rewrite Hfs. simpl.
  set (w1 := on_host (cancelAnimationFrame hd) w).
  assert (H1 : isAnimating (this w1) = true ∧ flowPath (this w1) = Ref path ∧
               cells (host w1) !! offset = Some v ∧
               doc (host w1) = doc (host w) ∧ frames (host w1) = []).
  { unfold w1. destruct w as [[] []]; simpl in *. subst. simpl.
    by rewrite bool_decide_eq_true_2. }
  destruct H1 as (Ha1 & Hp1 & Hc1 & Hd1 & Hf1). clearbody w1.
  assert (Hlt : path < length (doc (host w1))) by (rewrite Hd1; by apply Hpath).
  destruct (animate_running _ w1 path v Ha1 Hp1 Hc1 Hlt)
    as (Hf' & _ & _ & _ & Hc' & Hda' & _).
  eexists. rewrite Hf', Hf1. by repeat split.
Qed.

Lemma frames_after_start_offset init w path k :
  steady init w → isAnimating (this w) = false → flowPath (this w) = Ref path →
  let w' := frames_after_start k w in
  steady init w' ∧
  ∃ hd offset, frames (host w') = [(hd, Animate offset)] ∧
               cells (host w') !! offset = Some ((2 * (k + 1)) mod 100) ∧
               dashoffset w' = Some (SNum ((2 * (k + 1)) mod 100)).
Proof.
  intros Hst Hi Hfp. induction k as [|k (Hst' & hd & offset & Hf & Hc & _)].
  - split; [by apply startAnimation_steady|].
    by apply (startAnimation_first init w path).
  - split; [by apply fire_frame_steady|].
    destruct (fire_frame_next init _ hd offset _ Hst' Hf Hc) as (hd' & Hf' & Hc' & Hd').
    replace ((2 * (S k + 1)) mod 100) with (((2 * (k + 1)) mod 100 + 2) mod 100).
    + by exists hd', offset.
    + rewrite Nat.Div0.add_mod_idemp_l. f_equal. lia.
Qed.

(** C9: the offset of a started animation begins at 0, and every pass of
    the frame loop (the first, made by startAnimation itself, and one per
    frame) adds 2 modulo 100 and then writes the result to the flow
    path's strokeDashoffset: pass k+1 writes 2*(k+1) mod 100.  Whatever
    is called and however many frames run, strokeDashoffset holds what it
    held before the script ran or an even number in [0, 100). *)
Theorem dashoffset_even_below_100 svgElementId d (l : list action) :
  let w0 := new svgElementId (page d) in
  let w := run l w0 in
  (dashoffset w = dashoffset w0 ∨
   ∃ v, dashoffset w = Some (SNum v) ∧ Nat.Even v ∧ v < 100) ∧
  (isAnimating (this w) = false →
   ∀ path, flowPath (this w) = Ref path →
   ∀ k, dashoffset (frames_after_start k w) = Some (SNum ((2 * (k + 1)) mod 100))).
Proof.
  intros w0 w.
  pose proof (run_steady _ l _ (new_steady svgElementId d)) as Hst.
  fold w0 in Hst. fold w in Hst. split.
  - apply Hst.
  - intros Hi path Hp k.
    by destruct (frames_after_start_offset _ w path k Hst Hi Hp)
      as (_ & ? & ? & _ & _ & ?).
Qed.

Lemma dashoffset_even_below_100_witness :
  let w := run [Start; Frame; Stop] (new "fridge" (page fridge_page)) in
  isAnimating (this w) = false ∧ flowPath (this w) = Ref 1 ∧
  dashoffset w = Some (SNum 4) ∧
  dashoffset (frames_after_start 49 w) = Some (SNum 0) ∧
  dashoffset (frames_after_start 50 w) = Some (SNum 2).
Proof.
  intros w.
  assert (Hi : isAnimating (this w) = false) by (vm_compute; reflexivity).
  assert (Hp : flowPath (this w) = Ref 1) by (vm_compute; reflexivity).
  assert (Hd : dashoffset w = Some (SNum 4)) by (vm_compute; reflexivity).
  destruct (dashoffset_even_below_100 "fridge" fridge_page [Start; Frame; Stop])
    as (_ & H).
  fold w in H. clearbody w. split; [exact Hi|]. split; [exact Hp|].
  split; [exact Hd|]. split; [exact (H Hi 1 Hp 49)|exact (H Hi 1 Hp 50)].
Defined.

(** C7: on a page of its own, whatever was called and however many
    frames ran before: startAnimation() while the animation runs changes
    nothing, and at most one frame callback is ever pending;
    stopAnimation() leaves the running flag off and no frame callback
    pending. *)
Theorem startAnimation_idempotent_stopAnimation_clears svgElementId d (l : list action) :
  let w := run l (new svgElementId (page d)) in
  (isAnimating (this w) = true → startAnimation w = w) ∧
  length (frames (host w)) ≤ 1 ∧
  length (frames (host (startAnimation (startAnimation w)))) ≤ 1 ∧
  isAnimating (this (stopAnimation w)) = false ∧
  frames (host (stopAnimation w)) = [].
Proof.
  intros w.
  pose proof (run_steady _ l _ (new_steady svgElementId d)) as Hst. fold w in Hst.
  assert (Hone : ∀ init w', steady init w' → length (frames (host w')) ≤ 1).
  { intros init w' (_ & _ & Hf).
    destruct (frames (host w')) as [|[hd []] []]; simpl; try done; lia. }
  split; [|split; [|split]].
  - intros Hi. unfold startAnimation. by rewrite Hi.
  - by eapply Hone.
  - eapply Hone. by do 2 apply startAnimation_steady.
  - by destruct (stopAnimation_frames _ w Hst).
Qed.

Lemma startAnimation_idempotent_stopAnimation_clears_witness :
  let w := run [Start; Frame] (new "fridge" (page fridge_page)) in
  isAnimating (this w) = true ∧ startAnimation w = w ∧
  length (frames (host w)) = 1 ∧ frames (host (stopAnimation w)) = [].
Proof.
  intros w.
  assert (Hi : isAnimating (this w) = true) by (vm_compute; reflexivity).
  assert (Hf : length (frames (host w)) = 1) by (vm_compute; reflexivity).
  destruct (startAnimation_idempotent_stopAnimation_clears
              "fridge" fridge_page [Start; Frame]) as (H1 & _ & _ & _ & H2).
  fold w in H1, H2. clearbody w.
  split; [exact Hi|]. split; [exact (H1 Hi)|]. split; [exact Hf|exact H2].
Defined.

End Refrigeration.

(* --------------------------------------------------------------------- *)
(*  Controllers whose container is missing                               *)
(* --------------------------------------------------------------------- *)

Section Inert.
Variable d : list Element.
Variable svgElementId : string.
Hypothesis missing : getElementById d svgElementId = Null.

(* The constructors return at the first line of init: nothing is
   collected, nothing is registered, the page is as it was. *)
Lemma inert_new :
  FlowchartController.new svgElementId (page d) =
    mkWorld (page d) (FlowchartController.mk Null [] [] 0) ∧
  SequenceController.new svgElementId (page d) =
    mkWorld (page d) (SequenceController.mk Null [] []) ∧
  (∀ o, InteractiveDiagramController.new svgElementId o (page d) =
          mkWorld (page d)
            (InteractiveDiagramController.mk Null [] [] Null Null
               (InteractiveDiagramController.merge o))) ∧
  StateDiagramController.new svgElementId (page d) =
    mkWorld (page d) (StateDiagramController.mk Null [] Null) ∧
  RefrigerationCycleController.new svgElementId (page d) =
    mkWorld (page d)
      (RefrigerationCycleController.mk Null false None
         Undefined Undefined Undefined Undefined Undefined).
Proof.
  unfold FlowchartController.new, SequenceController.new,
    InteractiveDiagramController.new, StateDiagramController.new,
    RefrigerationCycleController.new,
    FlowchartController.init, SequenceController.init,
    InteractiveDiagramController.init, StateDiagramController.init,
    RefrigerationCycleController.init.
  simpl. by rewrite missing.
Qed.

(** C1, where the code departs from it: a StateDiagramController whose
    container id matches no element registers no listener, but its
    transitionTo(el) throws a TypeError (it calls dispatchEvent on the
    null container) after it has put "active" on el and stored el as the
    current state. *)
Theorem inert_transitionTo_throws (el : elem) :
  let w := StateDiagramController.new svgElementId (page d) in
  listeners (host w) = [] ∧
  StateDiagramController.transitionTo el w =
    (Throw "TypeError",
     mkWorld (with_doc (classList_add "active" el) (page d))
             (StateDiagramController.mk Null [] (Ref el))).
Proof.
  destruct inert_new as (_ & _ & _ & -> & _). by split.
Qed.

End Inert.

Lemma inert_transitionTo_throws_witness :
  let w := StateDiagramController.new "missing" (page state_page) in
  let r := StateDiagramController.transitionTo 1 w in
  r.1 = Throw "TypeError" ∧
  ("active" ∈ classes (doc (host r.2)) 1) ∧
  StateDiagramController.getCurrentState r.2 = Ref 1.
Proof.
  intros w r.
  assert (Hm : getElementById state_page "missing" = Null) by (vm_compute; reflexivity).
  destruct (inert_transitionTo_throws state_page "missing" Hm 1) as (_ & H).
  fold w in H. fold r in H. clearbody r. clearbody w. rewrite H. simpl.
  split; [reflexivity|]. split; [|reflexivity]. by vm_compute.
Defined.

(* --------------------------------------------------------------------- *)
(*  Further properties: controllers without a container                  *)
(* --------------------------------------------------------------------- *)

Section MissingContainer.
Variable d : list Element.
Variable svgElementId : string.
Hypothesis missing : getElementById d svgElementId = Null.

(** X1: when no element has the given id, each of the five constructors
    returns a controller that has collected no element, and leaves the
    page as it was: no listener registered, no timer or frame callback
    pending, the document unchanged. *)
Theorem missing_container_registers_nothing :
  (let w := FlowchartController.new svgElementId (page d) in
   host w = page d ∧ FlowchartController.nodes (this w) = [] ∧
   FlowchartController.connections (this w) = []) ∧
  (let w := SequenceController.new svgElementId (page d) in
   host w = page d ∧ SequenceController.messages (this w) = [] ∧
   SequenceController.actors (this w) = []) ∧
  (∀ o, let w := InteractiveDiagramController.new svgElementId o (page d) in
        host w = page d ∧ InteractiveDiagramController.nodes (this w) = [] ∧
        InteractiveDiagramController.connections (this w) = [] ∧
        InteractiveDiagramController.tooltip (this w) = Null) ∧
  (let w := StateDiagramController.new svgElementId (page d) in
   host w = page d ∧ StateDiagramController.states (this w) = []) ∧
  (let w := RefrigerationCycleController.new svgElementId (page d) in
   host w = page d ∧ RefrigerationCycleController.flowPath (this w) = Undefined).
Proof.
  destruct (inert_new d svgElementId missing) as (-> & -> & Hi & -> & ->).
  repeat split; try done; by rewrite Hi.
Qed.

(** X2: on an InteractiveDiagramController whose container is missing,
    getSelectedNode() returns null, and reset(), a hover and a leave change
    nothing and do not throw. *)
Theorem missing_container_interactive_safe (o : InteractiveDiagramController.Given)
    (node : elem) :
  let w := InteractiveDiagramController.new svgElementId o (page d) in
  InteractiveDiagramController.getSelectedNode w = Null ∧
  InteractiveDiagramController.reset w = w ∧
  InteractiveDiagramController.onNodeHover node w = (Normal, w) ∧
  InteractiveDiagramController.onNodeLeave node w = w.
Proof.
  destruct (inert_new d svgElementId missing) as (_ & _ & -> & _).
  unfold InteractiveDiagramController.onNodeHover. simpl.
  repeat split; try done. by destruct (default true _).
Qed.

End MissingContainer.

(* --------------------------------------------------------------------- *)
(*  Further properties: FlowchartController                              *)
(* --------------------------------------------------------------------- *)

Section FlowchartMore.
Import FlowchartController.
Implicit Types (w : World t) (e node : elem).

(* The loop of init that wires the nodes. *)
Lemma flow_wire_loop (l : list elem) w :
  let w' := forEachi
              (λ index node w,
                 on_doc (style_set "cursor" (SStr "pointer") node)
                   (on_host (addEventListener node "click" (FlowClick index)) w))
              l w in
  this w' = this w ∧
  listeners (host w') = listeners (host w) ++ flow_listeners l ∧
  doc (host w') = forEach (style_set "cursor" (SStr "pointer")) l (doc (host w)) ∧
  timers (host w') = timers (host w).
Proof.
  cbv zeta. induction l as [|x l (IH1 & IH2 & IH3 & IH4)] using rev_ind.
  - unfold flow_listeners. simpl. by rewrite app_nil_r.
  - rewrite forEachi_snoc. unfold flow_listeners, forEach in *.
    rewrite imap_app, fold_left_app. simpl.
    set (w1 := forEachi _ l w) in *. clearbody w1.
    destruct w1 as [[] c]; simpl in *. subst.
    rewrite Nat.add_0_r. by rewrite <- app_assoc.
Qed.

Lemma flow_init_shape w s :
  svg (this w) = Ref s →
  let ns := querySelectorAll (doc (host w)) s (ByClass "flowchart-node") in
  let cs := querySelectorAll (doc (host w)) s (ByClass "flowchart-arrow") in
  this (init w) = set_connections cs (set_nodes ns (this w)) ∧
  listeners (host (init w)) = listeners (host w) ++ flow_listeners ns ∧
  doc (host (init w)) =
    forEach (classList_add "signal-animated") cs
      (forEach (style_set "cursor" (SStr "pointer")) ns (doc (host w))) ∧
  timers (host (init w)) = timers (host w).
Proof.
  intros Hs ns cs. unfold init, setupAnimations. rewrite Hs. cbv zeta.
  rewrite forEach_on_doc.
  set (w2 := on_this (set_connections _) (on_this _ w)).
  assert (H2 : this w2 = set_connections cs (set_nodes ns (this w)) ∧ host w2 = host w)
    by (by destruct w as [[] []]).
  destruct H2 as (Ht2 & Hh2).
  destruct (flow_wire_loop (nodes (this w2)) w2) as (Ht & Hl & Hd & Htm).
  set (w3 := forEachi _ _ w2) in *. clearbody w3.
  rewrite Ht2, Hh2 in *. clear Ht2 Hh2. clearbody w2.
  destruct w3 as [[] c3]; simpl in *. by subst.
Qed.









Lemma elem_of_classes_highlight_doc_other l index d e c :
  ¬ mark c → c ∈ classes (highlight_doc l index d) e ↔ c ∈ classes d e.
Proof.
  intros Hc. unfold highlight_doc.
  assert (H : c ∈ classes (forEach clear_highlight l d) e ↔ c ∈ classes d e).
  { rewrite (elem_of_classes_forEach_remove clear_highlight mark l d e c
               (λ x d, elem_of_classes_clear_highlight x d e c)). naive_solver. }
  destruct (l !! index); [|done].
  rewrite !elem_of_classes_add, H. unfold mark in Hc. naive_solver.
Qed.







(** X5: FlowchartController.onNodeClick(index) for an index that holds no
    node (index >= nodes.length) throws a TypeError from showNodeDetail,
    after highlightStep has removed "selected" and "node-highlighted" from
    every node and stored index as the current step. *)
Theorem flowchart_click_out_of_range w index :
  length (nodes (this w)) ≤ index →
  let r := onNodeClick index w in
  r.1 = Throw "TypeError" ∧
  currentStep (this r.2) = index ∧
  (∀ e, e ∈ nodes (this w) → unmarked (doc (host r.2)) e) ∧
  (∀ e c, ¬ mark c → c ∈ classes (doc (host r.2)) e ↔ c ∈ classes (doc (host w)) e).
Proof.
  intros Hge. apply lookup_ge_None in Hge. cbv zeta.
  unfold onNodeClick, seq_, ret, showNodeDetail. rewrite highlightStep_eq.
  destruct w as [[d ls evs ts nt fs nf cs nw co] [sv ns cns st]]; simpl in *.
  rewrite Hge. simpl. split; [done|]. split; [done|]. split.
  - intros e He. unfold unmarked, highlight_doc. rewrite Hge.
    rewrite !(elem_of_classes_forEach_remove clear_highlight mark ns d e _
                (λ x d, elem_of_classes_clear_highlight x d e _)).
    unfold mark. naive_solver.
  - intros e c Hc. by apply elem_of_classes_highlight_doc_other.
Qed.

(** X6: FlowchartController.reset() sets the current step to 0 and takes
    "selected" and "node-highlighted" off every node; every other class of
    every element stays, and so do the listeners and the timers. *)
Theorem flowchart_reset_clears w :
  let w' := reset w in
  currentStep (this w') = 0 ∧ nodes (this w') = nodes (this w) ∧
  (∀ e, e ∈ nodes (this w) → unmarked (doc (host w')) e) ∧
  (∀ e c, c ∈ classes (doc (host w')) e ↔
          c ∈ classes (doc (host w)) e ∧ ¬ (e ∈ nodes (this w) ∧ mark c)) ∧
  listeners (host w') = listeners (host w) ∧ timers (host w') = timers (host w).
Proof.
  cbv zeta. unfold reset. cbv zeta. rewrite forEach_on_doc.
  destruct w as [[d ls evs ts nt fs nf cs nw co] [sv ns cns st]]; simpl.
  assert (H : ∀ e c, c ∈ classes (forEach clear_highlight ns d) e ↔
                     c ∈ classes d e ∧ ¬ (e ∈ ns ∧ mark c)).
  { intros e c. apply (elem_of_classes_forEach_remove clear_highlight mark).
    intros. apply elem_of_classes_clear_highlight. }
  split; [done|]. split; [done|]. split; [|done].
  intros e He. unfold unmarked. rewrite !H. unfold mark. naive_solver.
Qed.

(** X7: the FlowchartController constructor, when the container exists,
    collects the container's '.flowchart-node' and '.flowchart-arrow'
    descendants in document order, gives every node the cursor "pointer"
    and one click listener that captures the node's position, and puts the
    class "signal-animated" on every arrow; it starts no timer. *)
Theorem flowchart_constructor_wires svgElementId d s :
  getElementById d svgElementId = Ref s →
  let w := new svgElementId (page d) in
  nodes (this w) = querySelectorAll d s (ByClass "flowchart-node") ∧
  connections (this w) = querySelectorAll d s (ByClass "flowchart-arrow") ∧
  listeners (host w) = flow_listeners (nodes (this w)) ∧
  (∀ node, node ∈ nodes (this w) →
     style (doc (host w)) node !! "cursor" = Some (SStr "pointer")) ∧
  (∀ conn, conn ∈ connections (this w) →
     "signal-animated" ∈ classes (doc (host w)) conn) ∧
  timers (host w) = [] ∧ currentStep (this w) = 0.
Proof.
  intros Hs. cbv zeta. unfold new. set (w := mkWorld (page d) _).
  destruct (flow_init_shape w s Hs) as (Ht & Hl & Hd & Htm).
  rewrite Ht, Hl, Hd, Htm. simpl. clear Ht Hl Hd Htm w.
  set (ns := querySelectorAll d s (ByClass "flowchart-node")).
  set (cs := querySelectorAll d s (ByClass "flowchart-arrow")).
  pose proof (querySelectorAll_refs_ok d s (ByClass "flowchart-node")) as Hns.
  pose proof (querySelectorAll_refs_ok d s (ByClass "flowchart-arrow")) as Hcs.
  fold ns in Hns. fold cs in Hcs. clearbody ns cs.
  repeat split; try done.
  - intros node Hin.
    rewrite (forEach_keeps (λ d, style d node !! "cursor")
               (classList_add "signal-animated")) by
      (intros; by rewrite style_classList_add).
    clear Hcs cs Hs. unfold forEach. revert d Hns.
    induction ns as [|x ns IH] using rev_ind; intros d Hns; [by inversion Hin|].
    apply Forall_app in Hns as (Hns & Hx). apply Forall_inv in Hx.
    rewrite fold_left_app. simpl. rewrite style_style_set by done.
    fold (forEach (style_set "cursor" (SStr "pointer")) ns d).
    rewrite forEach_length by (intros; apply style_set_length).
    destruct (decide (node = x)) as [->|Hne]; [by rewrite decide_True|].
    rewrite decide_False by naive_solver. apply IH; [set_solver|done].
  - intros conn Hin.
    apply (elem_of_classes_forEach_add (classList_add "signal-animated")
             (λ c, c = "signal-animated")).
    + intros. apply classList_add_length.
    + intros x d0. rewrite elem_of_classes_add. naive_solver.
    + right. split; [done|]. split; [done|].
      rewrite forEach_length by (intros; apply style_set_length).
      by eapply refs_ok_lt.
Qed.

End FlowchartMore.

Section FlowchartWitnesses.
Import FlowchartController.

(** X3: playAnimation() on a FlowchartController that has no nodes (a
    missing container, or a container without '.flowchart-node'
    descendants), with no other timer pending: the timer is armed, and its
    first callback clears it and changes neither the document nor the
    controller. *)
Theorem flowchart_playAnimation_no_nodes (w : World t) :
  nodes (this w) = [] → timers (host w) = [] →
  let w1 := fire_timer call (playAnimation w) in
  timers (host (playAnimation w)) ≠ [] ∧
  timers (host w1) = [] ∧ doc (host w1) = doc (host w) ∧ this w1 = this w.
Proof.
  intros Hn Hts.
  destruct (playAnimation_playing w) as (step & interval & Hp);
    [rewrite Hn; constructor|done|].
  rewrite Hn in Hp. destruct (tick_done [] _ _ _ _ Hp) as (H1 & H2 & H3 & _).
  cbv zeta. rewrite H1, H2, H3. rewrite (playing_timer _ _ _ _ _ _ Hp).
  by destruct w as [[] []].
Qed.

Lemma flowchart_playAnimation_no_nodes_witness :
  let w := new "seq" (page seq_page) in
  let w1 := fire_timer call (playAnimation w) in
  nodes (this w) = [] ∧ timers (host (playAnimation w)) ≠ [] ∧
  timers (host w1) = [] ∧ doc (host w1) = doc (host w).
Proof.
  intros w w1.
  assert (Hn : nodes (this w) = []) by (vm_compute; reflexivity).
  assert (Hts : timers (host w) = []) by (vm_compute; reflexivity).
  destruct (flowchart_playAnimation_no_nodes w Hn Hts) as (H1 & H2 & H3 & _).
  fold w1 in H2, H3. clearbody w1. clearbody w. by repeat split.
Defined.


Lemma flowchart_click_out_of_range_witness :
  let r := onNodeClick 7 (fire_event call 3 "click" (new "flow" (page flow_page))) in
  r.1 = Throw "TypeError" ∧ currentStep (this r.2) = 7 ∧
  unmarked (doc (host r.2)) 3.
Proof.
  intros r.
  set (w := fire_event call 3 "click" (new "flow" (page flow_page))) in *.
  assert (Hlen : length (nodes (this w)) ≤ 7) by (vm_compute; lia).
  assert (Hin : nodes (this w) = [1; 3; 5]) by (vm_compute; reflexivity).
  destruct (flowchart_click_out_of_range w 7 Hlen) as (H1 & H2 & H3 & _).
  fold r in H1, H2, H3. clearbody r. clearbody w. rewrite Hin in H3.
  split; [done|]. split; [done|]. apply H3. set_solver.
Defined.

Lemma flowchart_constructor_wires_witness :
  let w := new "flow" (page flow_page) in
  nodes (this w) = [1; 3; 5] ∧ connections (this w) = [7] ∧
  listeners (host w) = flow_listeners [1; 3; 5] ∧
  ("signal-animated" ∈ classes (doc (host w)) 7).
Proof.
  intros w.
  assert (Hs : getElementById flow_page "flow" = Ref 0) by (vm_compute; reflexivity).
  assert (Hns : nodes (this w) = [1; 3; 5]) by (vm_compute; reflexivity).
  assert (Hcs : connections (this w) = [7]) by (vm_compute; reflexivity).
  destruct (flowchart_constructor_wires "flow" flow_page 0 Hs) as (_ & _ & Hl & _ & Hc & _).
  fold w in Hl, Hc. clearbody w. rewrite Hns in Hl. rewrite Hcs in Hc.
  split; [done|]. split; [done|]. split; [done|]. apply Hc. set_solver.
Defined.

End FlowchartWitnesses.

(* --------------------------------------------------------------------- *)
(*  Further properties: SequenceController                               *)
(* --------------------------------------------------------------------- *)

Section SequenceMore.
Import SequenceController.
Implicit Types (w : World t) (e msg : elem).

(* el.style.p = v, as a whole *)
Lemma style_style_set_full p v e e' (d : list Element) :
  style (style_set p v e d) e' =
  if decide (e' = e ∧ e < length d)
  then (if decide (v = SStr "") then delete p (style d e') else <[p:=v]> (style d e'))
  else style d e'.
Proof.
  unfold style, style_set. destruct (decide (e = e')) as [->|Hne].
  - rewrite list_lookup_alter_eq. destruct (d !! e') as [x|] eqn:Hx; simpl.
    + apply lookup_lt_Some in Hx.
      destruct (decide (e' = e' ∧ e' < length d)) as [_|Hn]; [done|by destruct Hn].
    + apply lookup_ge_None in Hx.
      destruct (decide (e' = e' ∧ e' < length d)) as [[_ ?]|_]; [lia|done].
  - rewrite list_lookup_alter_ne by done.
    destruct (decide (e' = e ∧ e < length d)) as [[? _]|_]; [congruence|done].
Qed.

(* el.style.p = '', read back *)
Lemma style_style_unset p p' e e' (d : list Element) :
  style (style_set p (SStr "") e d) e' !! p' =
  if decide (e' = e ∧ p' = p ∧ e < length d) then None else style d e' !! p'.
Proof.
  rewrite style_style_set_full. rewrite (decide_True (P := SStr "" = SStr "")) by done.
  destruct (decide (e' = e ∧ e < length d)) as [[-> ?]|Hn].
  - destruct (decide (p' = p)) as [->|Hp].
    + rewrite lookup_delete_eq. by rewrite decide_True.
    + rewrite lookup_delete_ne by done. rewrite decide_False; [done|naive_solver].
  - rewrite decide_False; [done|naive_solver].
Qed.

Lemma textContent_style_set p v e e' (d : list Element) :
  textContent (style_set p v e d) e' = textContent d e'.
Proof. apply alter_keeps. by intros []. Qed.

Lemma nextElementSibling_same_tree d d' e :
  same_tree d d' → nextElementSibling d' e = nextElementSibling d e.
Proof.
  intros [Hlen Hp]. unfold nextElementSibling. rewrite Hlen.
  pose proof (Hp e) as He.
  destruct (d' !! e) as [x'|], (d !! e) as [x|]; simpl in He; try done.
  injection He as ->.
  by rewrite (List.filter_ext _
            (λ e', bool_decide (e < e') &&
                   bool_decide ((el_parent <$> d !! e') = Some (el_parent x))))
    by (intros e'; by rewrite Hp).
Qed.

(* The label of a message does not depend on inline styles. *)
Lemma seq_label_style_set p v e p' v' (d : list Element) msg :
  seq_label (style_set p v e (style_set p' v' e d)) msg = seq_label d msg.
Proof.
  unfold seq_label.
  rewrite (nextElementSibling_same_tree d) by
    (eapply same_tree_trans; apply same_tree_style_set).
  destruct (nextElementSibling d msg); try done.
  by rewrite !classes_style_set, !textContent_style_set.
Qed.

Lemma seq_wire_loop (l : list elem) w :
  let w' := forEachi
              (λ index msg w,
                 on_host (addEventListener msg "mouseleave" (SeqLeave index))
                   (on_host (addEventListener msg "mouseenter" (SeqEnter index)) w))
              l w in
  this w' = this w ∧
  listeners (host w') = listeners (host w) ++ seq_listeners l ∧
  doc (host w') = doc (host w) ∧ timers (host w') = timers (host w).
Proof.
  cbv zeta. induction l as [|x l (IH1 & IH2 & IH3 & IH4)] using rev_ind.
  - unfold seq_listeners. simpl. by rewrite app_nil_r.
  - rewrite forEachi_snoc. unfold seq_listeners in *.
    rewrite imap_app, concat_app. simpl.
    set (w1 := forEachi _ l w) in *. clearbody w1.
    destruct w1 as [[] c]; simpl in *. subst.
    rewrite Nat.add_0_r. simpl. rewrite <- ?app_assoc. done.
Qed.

(** X8: the SequenceController constructor, when the container exists,
    collects the container's '.sequence-message' and '.sequence-actor'
    descendants in document order and gives every message a mouseenter and
    a mouseleave listener that capture the message's position; it changes
    nothing in the document and starts no timer. *)
Theorem sequence_constructor_wires svgElementId d s :
  getElementById d svgElementId = Ref s →
  let w := new svgElementId (page d) in
  messages (this w) = querySelectorAll d s (ByClass "sequence-message") ∧
  actors (this w) = querySelectorAll d s (ByClass "sequence-actor") ∧
  listeners (host w) = seq_listeners (messages (this w)) ∧
  doc (host w) = d ∧ timers (host w) = [].
Proof.
  intros Hs. cbv zeta. unfold new, init. simpl. rewrite Hs.
  match goal with |- context [forEachi ?f ?l ?w0] =>
    destruct (seq_wire_loop l w0) as (Ht & Hl & Hd & Htm) end.
  rewrite Ht, Hl, Hd, Htm. done.
Qed.

(* highlightMessage for a position that holds a message. *)
Lemma highlightMessage_eq w index msg :
  messages (this w) !! index = Some msg →
  highlightMessage index w =
  (Normal,
   on_host (λ h, mkHost
              (style_set "strokeWidth" (SStr "3") msg
                 (style_set "stroke" (SStr "var(--accent-color)") msg (doc h)))
              (listeners h) (dispatched h) (timers h) (next_timer h)
              (frames h) (next_frame h) (cells h) (now h)
              (console h ++ seq_label (doc (host w)) msg)) w).
Proof.
  intros Hl. unfold highlightMessage, seq_, ret, showMessageDetail.
  destruct w as [[d ls evs ts nt fs nf cs nw co] [sv ms acs]]; simpl in *.
  rewrite Hl. simpl. rewrite Hl.
  rewrite <- (seq_label_style_set "strokeWidth" (SStr "3") msg
                "stroke" (SStr "var(--accent-color)") d msg).
  unfold seq_label.
  destruct (nextElementSibling _ msg) as [| |label];
    unfold on_host, console_log; simpl; rewrite ?app_nil_r; try done.
  by destruct (decide _); simpl; rewrite ?app_nil_r.
Qed.

(** X9: on a SequenceController, highlightMessage(index) for a position
    that holds a message sets the message's stroke to the accent colour and
    its stroke width to 3, and logs the text of the element that follows
    the message when that element is a '.sequence-label'; a following
    unhighlightMessage(index) removes both properties again.  Every other
    inline style property of the message (its opacity among them), and the
    style of every other element, is what it was. *)
Theorem sequence_hover_round_trip w index msg :
  messages (this w) !! index = Some msg → msg < length (doc (host w)) →
  let r := highlightMessage index w in
  let w2 := unhighlightMessage index r.2 in
  r.1 = Normal ∧
  style (doc (host r.2)) msg !! "stroke" = Some (SStr "var(--accent-color)") ∧
  style (doc (host r.2)) msg !! "strokeWidth" = Some (SStr "3") ∧
  console (host r.2) = console (host w) ++ seq_label (doc (host w)) msg ∧
  style (doc (host w2)) msg !! "stroke" = None ∧
  style (doc (host w2)) msg !! "strokeWidth" = None ∧
  (∀ p, p ≠ "stroke" → p ≠ "strokeWidth" →
        style (doc (host r.2)) msg !! p = style (doc (host w)) msg !! p ∧
        style (doc (host w2)) msg !! p = style (doc (host w)) msg !! p) ∧
  (∀ e, e ≠ msg → style (doc (host r.2)) e = style (doc (host w)) e ∧
                  style (doc (host w2)) e = style (doc (host w)) e).
Proof.
  intros Hl Hlt. cbv zeta. rewrite (highlightMessage_eq w index msg Hl).
  unfold unhighlightMessage.
  destruct w as [[d ls evs ts nt fs nf cs nw co] [sv ms acs]]; simpl in *.
  rewrite Hl. simpl.
  rewrite !style_style_unset, !style_style_set, !style_set_length by done.
  split; [done|].
  split; [rewrite decide_False by naive_solver; by rewrite decide_True|].
  split; [by rewrite decide_True|]. split; [done|].
  split; [rewrite decide_False by naive_solver; by rewrite decide_True|].
  split; [by rewrite decide_True|]. split.
  - intros p H1 H2. rewrite !style_style_unset, !style_style_set, !style_set_length by done.
    rewrite !decide_False by naive_solver. done.
  - intros e He. rewrite !style_style_set_full, !style_set_length.
    rewrite !(decide_False (P := e = msg ∧ msg < length d)) by naive_solver. done.
Qed.

(** X10: for a position that holds no message (index >= messages.length),
    highlightMessage(index) throws a TypeError from showMessageDetail
    without changing anything, and unhighlightMessage(index) does nothing. *)
Theorem sequence_hover_out_of_range w index :
  length (messages (this w)) ≤ index →
  highlightMessage index w = (Throw "TypeError", w) ∧
  unhighlightMessage index w = w.
Proof.
  intros Hge. apply lookup_ge_None in Hge.
  unfold highlightMessage, unhighlightMessage, seq_, ret, showMessageDetail.
  rewrite Hge. cbv beta. by rewrite Hge.
Qed.

(** X11: playSequence() on a SequenceController that has no messages, with
    no other timer pending: the timer is armed, and its first callback
    clears it and changes neither the document nor the controller. *)
Theorem sequence_playSequence_no_messages w :
  messages (this w) = [] → timers (host w) = [] →
  let w1 := fire_timer call (playSequence w) in
  timers (host (playSequence w)) ≠ [] ∧
  timers (host w1) = [] ∧ doc (host w1) = doc (host w) ∧ this w1 = this w.
Proof.
  intros Hn Hts.
  destruct (playSequence_playing w) as (index & interval & Hp);
    [rewrite Hn; constructor|done|].
  rewrite Hn in Hp. destruct (seq_tick_done [] _ _ _ _ Hp) as (H1 & H2 & H3 & _).
  cbv zeta. rewrite H1, H2, H3. rewrite (playing_timer _ _ _ _ _ _ Hp).
  by destruct w as [[] []].
Qed.

Lemma sequence_constructor_wires_witness :
  let w := new "seq" (page seq_page) in
  messages (this w) = [3; 5] ∧ actors (this w) = [1; 2] ∧
  listeners (host w) = seq_listeners [3; 5] ∧ doc (host w) = seq_page.
Proof.
  intros w.
  assert (Hs : getElementById seq_page "seq" = Ref 0) by (vm_compute; reflexivity).
  assert (Hms : messages (this w) = [3; 5]) by (vm_compute; reflexivity).
  assert (Has : actors (this w) = [1; 2]) by (vm_compute; reflexivity).
  destruct (sequence_constructor_wires "seq" seq_page 0 Hs) as (_ & _ & Hl & Hd & _).
  fold w in Hl, Hd. clearbody w. rewrite Hms in Hl. by repeat split.
Defined.

Lemma sequence_hover_round_trip_witness :
  let w := after_ticks 1 (playSequence (new "seq" (page seq_page))) in
  let r := highlightMessage 1 w in
  let w2 := unhighlightMessage 1 r.2 in
  console (host r.2) = ["reply"] ∧
  style (doc (host r.2)) 5 !! "stroke" = Some (SStr "var(--accent-color)") ∧
  style (doc (host w2)) 5 !! "stroke" = None ∧
  style (doc (host w2)) 5 !! "opacity" = Some (SStr "0.3").
Proof.
  intros w r w2.
  assert (Hl : messages (this w) !! 1 = Some 5) by (vm_compute; reflexivity).
  assert (Hlt : 5 < length (doc (host w))) by (vm_compute; lia).
  assert (Hco : console (host w) = []) by (vm_compute; reflexivity).
  assert (Hlab : seq_label (doc (host w)) 5 = ["reply"]) by (vm_compute; reflexivity).
  assert (Hop : style (doc (host w)) 5 !! "opacity" = Some (SStr "0.3"))
    by (vm_compute; reflexivity).
  destruct (sequence_hover_round_trip w 1 5 Hl Hlt)
    as (_ & H1 & _ & H2 & H3 & _ & H4 & _).
  fold r in H1, H2, H3, H4. fold w2 in H3, H4. clearbody w2. clearbody r. clearbody w.
  rewrite Hco, Hlab in H2. destruct (H4 "opacity") as (_ & H5); [done|done|].
  rewrite Hop in H5. by repeat split.
Defined.

Lemma sequence_hover_out_of_range_witness :
  let w := new "seq" (page seq_page) in
  highlightMessage 2 w = (Throw "TypeError", w) ∧ unhighlightMessage 2 w = w.
Proof.
  intros w.
  assert (Hlen : length (messages (this w)) ≤ 2) by (vm_compute; lia).
  pose proof (sequence_hover_out_of_range w 2 Hlen) as H. clearbody w. exact H.
Defined.

Lemma sequence_playSequence_no_messages_witness :
  let w := new "flow" (page flow_page) in
  let w1 := fire_timer call (playSequence w) in
  messages (this w) = [] ∧ timers (host (playSequence w)) ≠ [] ∧
  timers (host w1) = [] ∧ doc (host w1) = doc (host w).
Proof.
  intros w w1.
  assert (Hn : messages (this w) = []) by (vm_compute; reflexivity).
  assert (Hts : timers (host w) = []) by (vm_compute; reflexivity).
  destruct (sequence_playSequence_no_messages w Hn Hts) as (H1 & H2 & H3 & _).
  fold w1 in H2, H3. clearbody w1. clearbody w. by repeat split.
Defined.

End SequenceMore.

(* --------------------------------------------------------------------- *)
(*  Further properties: InteractiveDiagramController                     *)
(* --------------------------------------------------------------------- *)

Section InteractiveMore.
Import InteractiveDiagramController.
Implicit Types (w : World t) (e node : elem).

(** X12: InteractiveDiagramController.onNodeClick on a controller whose
    container is missing throws a TypeError from emitEvent, after it has
    put "selected" on the node and stored the node as the selection. *)
Theorem interactive_onNodeClick_without_container svgElementId o d node :
  getElementById d svgElementId = Null →
  let r := onNodeClick node (new svgElementId o (page d)) in
  r.1 = Throw "TypeError" ∧ getSelectedNode r.2 = Ref node ∧
  doc (host r.2) = classList_add "selected" node d ∧
  dispatched (host r.2) = [].
Proof.
  intros Hn. cbv zeta. rewrite new_inert by done. rewrite onNodeClick_eq.
  unfold click_doc. simpl. by destruct (default true _).
Qed.


(* A click that is at a node of a wired controller, as an equation. *)
Lemma hit_node_eq w node s :
  wired w → svg (this w) = Ref s → node ∈ nodes (this w) →
  invoke call node "click" w =
  mkWorld (dispatchEvent (nodeSelected s (doc (host w)) node)
             (with_doc (click_doc (this w) node) (host w)))
          (set_selectedNode (Ref node) (this w)).
Proof.
  intros Hw Hs Hin. rewrite hit_eq by done. rewrite onNodeClick_eq.
  cbv zeta. by rewrite Hs.
Qed.

Lemma clicked_from_refl w : selectedNode (this w) ≠ Undefined → clicked_from w w.
Proof. intros H. split; try done. Qed.

Lemma elem_of_classes_click_doc_other c0 node d e c :
  c ≠ "selected" → c ≠ "active" →
  c ∈ classes (click_doc c0 node d) e ↔ c ∈ classes d e.
Proof.
  intros H1 H2. unfold click_doc. cbv zeta.
  assert (Hrem : c ∈ classes (match selectedNode c0 with
                              | Ref prev => classList_remove "selected" prev d
                              | _ => d end) e ↔ c ∈ classes d e).
  { destruct (selectedNode c0); try done. rewrite elem_of_classes_remove. naive_solver. }
  destruct (highlightConnections (options c0)).
  - rewrite (elem_of_classes_forEach_add (classList_add "active")
               (λ c, c = "active")).
    + rewrite elem_of_classes_add, Hrem. naive_solver.
    + intros. apply classList_add_length.
    + intros x d0. rewrite elem_of_classes_add. naive_solver.
  - rewrite elem_of_classes_add, Hrem. naive_solver.
Qed.

(* A click, wherever it travels, keeps what clicked_from records. *)
Lemma deliver_clicked_from w0 p w :
  wired w → clicked_from w0 w → clicked_from w0 (deliver call p "click" w).
Proof.
  revert w. induction p as [|x p IH]; intros w Hw Hc; [done|].
  rewrite deliver_cons. destruct (decide (x ∈ nodes (this w))) as [Hin|Hout].
  - destruct (hit_step w x Hw Hin) as (Hw' & _).
    apply IH; [done|]. destruct (wired_svg _ Hw) as [s Hs].
    rewrite (hit_node_eq w x s Hw Hs Hin).
    destruct Hc as [Ht Hcl Hst Hf Hsel]. split; simpl.
    + eapply same_tree_trans; [exact Ht|apply same_tree_click_doc].
    + intros e c H1 H2. by rewrite elem_of_classes_click_doc_other, Hcl.
    + intros e. by rewrite style_click_doc.
    + done.
    + done.
  - rewrite hit_outside by done. by apply IH.
Qed.

(* Clicks keep what clicked_from records. *)
Lemma clicks_clicked_from w0 l w :
  wired w → clicked_from w0 w → clicked_from w0 (clicks l w).
Proof.
  intros Hw Hc. destruct (clicks_deliver l w) as [p ->]. by apply deliver_clicked_from.
Qed.

Lemma new_selectedNode svgElementId o d :
  selectedNode (this (new svgElementId o (page d))) = Null.
Proof.
  destruct (getElementById_cases d svgElementId) as [Hn|[s Hs]].
  - by rewrite new_inert.
  - unfold new. set (w := mkWorld (page d) _).
    by destruct (init_shape w s Hs) as ((_ & _ & _ & _ & ->) & _).
Qed.




(** X14: on an InteractiveDiagramController constructed with
    highlightConnections false, no click puts the class "active" on, or
    takes it off, any element. *)
Theorem interactive_clicks_without_highlight svgElementId o d (l : list elem) e :
  given_highlightConnections o = Some false →
  let w0 := new svgElementId o (page d) in
  "active" ∈ classes (doc (host (clicks l w0))) e ↔ "active" ∈ classes (doc (host w0)) e.
Proof.
  intros Ho w0.
  destruct (new_wired_or_inert svgElementId o d) as (Hopt & [Hw|Hnil]); fold w0 in Hopt.
  - fold w0 in Hw.
    assert (Hgen : ∀ p w, wired w → highlightConnections (options (this w)) = false →
              ("active" ∈ classes (doc (host (deliver call p "click" w))) e ↔
               "active" ∈ classes (doc (host w)) e)).
    { clear l. induction p as [|x p IH]; intros w Hww Hhc; [done|].
      rewrite deliver_cons.
      destruct (decide (x ∈ nodes (this w))) as [Hin|Hout].
      - destruct (hit_step w x Hww Hin) as (Hw' & Hthis & _).
        rewrite IH by (by rewrite ?Hthis).
        destruct (wired_svg _ Hww) as [s Hs].
        rewrite (hit_node_eq w x s Hww Hs Hin). simpl.
        unfold click_doc. rewrite Hhc. cbv zeta.
        rewrite elem_of_classes_add.
        destruct (selectedNode (this w)); rewrite ?elem_of_classes_remove;
          naive_solver.
      - rewrite hit_outside by done. by apply IH. }
    destruct (clicks_deliver l w0) as [p ->].
    apply Hgen; [done|]. rewrite Hopt. unfold merge. simpl. by rewrite Ho.
  - fold w0 in Hnil.
    rewrite clicks_no_listeners; [done|].
    destruct (getElementById_cases d svgElementId) as [Hn|[s Hs]].
    + unfold w0. by rewrite new_inert.
    + pose proof (new_wired svgElementId o d s Hs) as Hw. fold w0 in Hw.
      rewrite (wired_listeners _ Hw), Hnil. done.
Qed.

End InteractiveMore.

Section InteractiveTooltip.
Import InteractiveDiagramController.
Implicit Types (w : World t) (e node : elem).

Lemma clicks_new_clicked_from svgElementId o d l :
  let w0 := new svgElementId o (page d) in
  clicked_from w0 (clicks l w0) ∧ (wired w0 → wired (clicks l w0)).
Proof.
  intros w0.
  assert (H0 : clicked_from w0 w0).
  { apply clicked_from_refl. unfold w0. by rewrite new_selectedNode. }
  destruct (new_wired_or_inert svgElementId o d) as (_ & [Hw|Hnil]).
  - fold w0 in Hw. split; [by apply clicks_clicked_from|]. intros _. by apply clicks_wired.
  - fold w0 in Hnil.
    assert (Hl : listeners (host w0) = []).
    { destruct (getElementById_cases d svgElementId) as [Hn|[s Hs]].
      - unfold w0. by rewrite new_inert.
      - pose proof (new_wired svgElementId o d s Hs) as Hw. fold w0 in Hw.
        by rewrite (wired_listeners _ Hw), Hnil. }
    by rewrite clicks_no_listeners.
Qed.

(** X15: on a page whose markup marks no interactive node "selected",
    reset() after any clicks leaves no node carrying "selected", no
    connection carrying "active" and the stored selection null; every other
    class of every element, and every inline style, is as the constructor
    left it. *)
Theorem interactive_reset_undoes_clicks svgElementId o d (l : list elem) :
  unselected d →
  let w0 := new svgElementId o (page d) in
  let w' := reset (clicks l w0) in
  (∀ e, e ∈ nodes (this w0) → ("selected" ∉ classes (doc (host w')) e)) ∧
  (∀ e, e ∈ connections (this w0) → ("active" ∉ classes (doc (host w')) e)) ∧
  getSelectedNode w' = Null ∧
  (∀ e c, c ≠ "selected" → c ≠ "active" →
          (c ∈ classes (doc (host w')) e ↔ c ∈ classes (doc (host w0)) e)) ∧
  (∀ e, style (doc (host w')) e = style (doc (host w0)) e).
Proof.
  intros Hun w0 w'.
  destruct (clicks_new_clicked_from svgElementId o d l) as (Hc & Hwired).
  fold w0 in Hc, Hwired.
  pose proof (new_tracked svgElementId o d Hun) as Htr0. fold w0 in Htr0.
  assert (Htr : tracked (clicks l w0)).
  { destruct (new_wired_or_inert svgElementId o d) as (_ & [Hw|Hnil]).
    - fold w0 in Hw. by apply clicks_tracked.
    - fold w0 in Hnil. intros e He. destruct Hc as [_ _ _ (Hns & _) _].
      rewrite Hns, Hnil in He. by inversion He. }
  destruct (reset_frame (clicks l w0)) as (_ & Hel & Hcl & Hsel & _).
  fold w' in Hel, Hcl, Hsel.
  destruct Hc as [_ Hcls Hst (Hns & Hcs & _) Hne].
  split; [|split; [|split; [|split]]].
  - intros e He Hse. apply Hcl in Hse as (Hse & Hn & _). apply Hn.
    split; [|done]. apply Htr; [by rewrite Hns|done].
  - intros e He Hse. apply Hcl in Hse as (_ & _ & Hn). apply Hn.
    by rewrite Hcs.
  - unfold getSelectedNode, w', reset.
    rewrite (forEach_keeps (λ w, selectedNode (this w))) by (by intros a [[] []]).
    destruct (selectedNode (this (clicks l w0))) eqn:E; simpl; congruence.
  - intros e c H1 H2. rewrite Hcl, Hcls by done. naive_solver.
  - intros e. destruct (Hel e) as (-> & _). apply Hst.
Qed.

(* ------------------------------------------------------------------ *)
(*  The tooltip                                                        *)
(* ------------------------------------------------------------------ *)

Lemma getElementById_lt d id s : getElementById d id = Ref s → s < length d.
Proof.
  unfold getElementById.
  destruct (List.filter _ _) as [|e l] eqn:Hf; [done|]. intros [= <-].
  assert (Hin : In e (List.filter
                        (λ e, bool_decide (getAttribute d e "id" = Some id))
                        (seq 0 (length d)))) by (rewrite Hf; by left).
  apply filter_In in Hin as (Hin & _). apply in_seq in Hin. lia.
Qed.

Lemma below_page fuel d tl e :
  page_ok d → e < length d → below fuel (d ++ tl) (length d) e = false.
Proof.
  intros Hok. revert e. induction fuel as [|fuel IH]; intros e He; simpl; [done|].
  rewrite lookup_app_l by done. destruct (d !! e) as [x|] eqn:Hx; [|done].
  destruct (el_parent x) as [p|] eqn:Hp; [|done].
  pose proof (Hok e x p Hx Hp) as Hlt.
  rewrite bool_decide_eq_false_2 by lia. simpl. by apply IH.
Qed.

Lemma filter_none {A} (f : A → bool) (l : list A) :
  (∀ x, In x l → f x = false) → List.filter f l = [].
Proof.
  induction l as [|x l IH]; intros H; [done|]. simpl.
  rewrite H by (by left). apply IH. intros. apply H. by right.
Qed.

(* What '.c' selects under the tooltip group the constructor appended. *)
Lemma querySelectorAll_tooltip d s c :
  page_ok d → s < length d →
  let g := length d in
  querySelectorAll (d ++ [tooltip_group s; tooltip_rect g; tooltip_text g]) g (ByClass c) =
  (if decide (c = "interactive-tooltip") then [g + 1] else []) ++
  (if decide (c = "interactive-tooltip-text") then [g + 2] else []).
Proof.
  intros Hok Hs g. unfold querySelectorAll.
  set (d' := d ++ _). assert (Hlen : length d' = g + 3).
  { unfold d'. rewrite length_app. simpl. done. }
  rewrite Hlen, seq_app, List.filter_app. simpl.
  rewrite filter_none.
  2:{ intros e He. apply in_seq in He. unfold selected_by, descendant.
      unfold d' at 1 2. rewrite below_page by (done || lia). done. }
  assert (Hg : d' !! g = Some (tooltip_group s)).
  { unfold d'. by rewrite list_lookup_middle. }
  assert (Hr : d' !! (g + 1) = Some (tooltip_rect g)).
  { unfold d'. rewrite lookup_app_r by (unfold g; lia).
    by replace (g + 1 - length d) with 1 by (unfold g; lia). }
  assert (Ht : d' !! (g + 2) = Some (tooltip_text g)).
  { unfold d'. rewrite lookup_app_r by (unfold g; lia).
    by replace (g + 2 - length d) with 2 by (unfold g; lia). }
  assert (Hbg : descendant d' g g = false).
  { unfold descendant. rewrite Hlen. replace (g + 3) with (S (g + 2)) by lia.
    simpl. rewrite Hg. simpl. rewrite bool_decide_eq_false_2 by (unfold g; lia).
    simpl. unfold d'. apply below_page; [done|lia]. }
  assert (Hbr : ∀ e x, d' !! e = Some x → el_parent x = Some g →
                       descendant d' g e = true).
  { intros e x He Hp. unfold descendant. rewrite Hlen.
    replace (g + 3) with (S (g + 2)) by lia. simpl. rewrite He, Hp.
    by rewrite bool_decide_eq_true_2. }
  unfold selected_by.
  replace (S (S g)) with (g + 2) by lia. replace (S g) with (g + 1) by lia.
  rewrite Hbg, (Hbr _ _ Hr), (Hbr _ _ Ht), Hr, Ht by done. simpl.
  destruct (decide (c = "interactive-tooltip")) as [->|H1].
  - rewrite bool_decide_eq_true_2 by set_solver.
    rewrite decide_False by done. rewrite bool_decide_eq_false_2 by set_solver. done.
  - rewrite bool_decide_eq_false_2 by set_solver.
    destruct (decide (c = "interactive-tooltip-text")) as [->|H2].
    + by rewrite bool_decide_eq_true_2 by set_solver.
    + by rewrite bool_decide_eq_false_2 by set_solver.
Qed.

End InteractiveTooltip.

Section InteractiveHover.
Import InteractiveDiagramController.
Implicit Types (w : World t) (e node : elem) (d : list Element).

Lemma same_tree_textContent_set s e d : same_tree d (textContent_set s e d).
Proof. apply same_tree_alter. by intros []. Qed.

Lemma same_tree_transform_set t e d : same_tree d (transform_set t e d).
Proof. apply same_tree_alter. by intros []. Qed.

Lemma classes_textContent_set s e e' d :
  classes (textContent_set s e d) e' = classes d e'.
Proof. apply alter_keeps. by intros []. Qed.

Lemma classes_transform_set t e e' d :
  classes (transform_set t e d) e' = classes d e'.
Proof. apply alter_keeps. by intros []. Qed.

Lemma style_textContent_set s e e' d : style (textContent_set s e d) e' = style d e'.
Proof. apply alter_keeps. by intros []. Qed.

Lemma style_transform_set t e e' d : style (transform_set t e d) e' = style d e'.
Proof. apply alter_keeps. by intros []. Qed.

Lemma textContent_transform_set t e e' d :
  textContent (transform_set t e d) e' = textContent d e'.
Proof. apply alter_keeps. by intros []. Qed.

Lemma textContent_textContent_set s e e' d :
  textContent (textContent_set s e d) e' =
  if decide (e' = e ∧ e < length d) then s else textContent d e'.
Proof.
  unfold textContent, textContent_set. destruct (decide (e = e')) as [->|Hne].
  - rewrite list_lookup_alter_eq. destruct (d !! e') as [x|] eqn:Hx; simpl.
    + apply lookup_lt_Some in Hx. by rewrite decide_True.
    + apply lookup_ge_None in Hx. rewrite decide_False; [done|]. intros (_ & ?). lia.
  - rewrite list_lookup_alter_ne by done. rewrite decide_False; [done|naive_solver].
Qed.

Lemma transform_textContent_set s e e' d :
  transform (textContent_set s e d) e' = transform d e'.
Proof.
  unfold transform, textContent_set. destruct (decide (e = e')) as [->|Hne].
  - rewrite list_lookup_alter_eq. by destruct (d !! e').
  - by rewrite list_lookup_alter_ne.
Qed.

Lemma transform_style_set p v e e' d :
  transform (style_set p v e d) e' = transform d e'.
Proof.
  unfold transform, style_set. destruct (decide (e = e')) as [->|Hne].
  - rewrite list_lookup_alter_eq. by destruct (d !! e').
  - by rewrite list_lookup_alter_ne.
Qed.

Lemma transform_transform_set t e e' d :
  transform (transform_set t e d) e' =
  if decide (e' = e ∧ e < length d) then Some t else transform d e'.
Proof.
  unfold transform, transform_set. destruct (decide (e = e')) as [->|Hne].
  - rewrite list_lookup_alter_eq. destruct (d !! e') as [x|] eqn:Hx; simpl.
    + apply lookup_lt_Some in Hx. by rewrite decide_True.
    + apply lookup_ge_None in Hx. rewrite decide_False; [done|]. intros (_ & ?). lia.
  - rewrite list_lookup_alter_ne by done. rewrite decide_False; [done|naive_solver].
Qed.

Lemma textContent_set_length s e d : length (textContent_set s e d) = length d.
Proof. apply length_alter. Qed.

Lemma transform_set_length t e d : length (transform_set t e d) = length d.
Proof. apply length_alter. Qed.

(* onNodeHover when the tooltip is there and whole. *)
Lemma onNodeHover_eq w node tip trect ttext :
  showTooltip (options (this w)) = true → tooltip (this w) = Ref tip →
  querySelector (doc (host w)) tip (ByClass "interactive-tooltip") = Ref trect →
  querySelector (doc (host w)) tip (ByClass "interactive-tooltip-text") = Ref ttext →
  onNodeHover node w = (Normal, on_doc (hover_doc tip trect ttext node) w).
Proof.
  intros Hst Htip Hr Ht. unfold onNodeHover. rewrite Hst, Htip. cbv zeta.
  rewrite Hr, Ht. unfold hover_doc, hover_label, hover_position.
  destruct w as [[d ls evs ts nt fs nf cs nw co] c]. simpl.
  assert (Hb : getBBox (textContent_set
                          (first_nonempty (getAttribute d node "data-label")
                             match querySelector d node (ByTag "text") with
                             | Ref tx => Some (textContent d tx)
                             | _ => None
                             end) ttext d) node = getBBox d node).
  { apply alter_keeps. by intros []. }
  by rewrite Hb.
Qed.

(** X16: on an InteractiveDiagramController whose tooltip is enabled and
    whole (the group's '.interactive-tooltip' rect and
    '.interactive-tooltip-text' text are found), a hover over a node
    returns normally and shows the tooltip: the text element gets the
    node's data-label or, when that is missing or empty, the text of the
    node's first 'text' descendant, or ''; the group is moved to the right
    of the node's bounding box (x + width + 10, y - 20); group, rect and
    text get opacity 1.  No class changes, and nothing changes on any other
    element. *)
Theorem interactive_hover_shows_tooltip w node tip trect ttext :
  showTooltip (options (this w)) = true → tooltip (this w) = Ref tip →
  querySelector (doc (host w)) tip (ByClass "interactive-tooltip") = Ref trect →
  querySelector (doc (host w)) tip (ByClass "interactive-tooltip-text") = Ref ttext →
  tip < length (doc (host w)) →
  let r := onNodeHover node w in
  let d := doc (host w) in
  let d' := doc (host r.2) in
  r.1 = Normal ∧ this r.2 = this w ∧
  textContent d' ttext = hover_label d node ∧
  transform d' tip = Some (hover_position d node) ∧
  (∀ e, e ∈ [tip; trect; ttext] → style d' e !! "opacity" = Some (SStr "1")) ∧
  (∀ e, classes d' e = classes d e) ∧
  (∀ e, e ∉ [tip; trect; ttext] →
        style d' e = style d e ∧ textContent d' e = textContent d e ∧
        transform d' e = transform d e).
Proof.
  intros Hst Htip Hr Ht Hlt. cbv zeta.
  rewrite (onNodeHover_eq w node tip trect ttext) by done.
  pose proof (querySelector_lt _ _ _ _ Hr) as Hlr.
  pose proof (querySelector_lt _ _ _ _ Ht) as Hlt'.
  destruct w as [[d ls evs ts nt fs nf cs nw co] c]; simpl in *.
  unfold hover_doc.
  set (d1 := textContent_set (hover_label d node) ttext d).
  set (d2 := transform_set (hover_position d node) tip d1).
  assert (Hl1 : length d1 = length d) by apply textContent_set_length.
  assert (Hl2 : length d2 = length d) by (unfold d2; by rewrite transform_set_length).
  split; [done|]. split; [done|]. split; [|split; [|split; [|split]]].
  - rewrite !textContent_style_set. unfold d2. rewrite textContent_transform_set.
    unfold d1. rewrite textContent_textContent_set. by rewrite decide_True.
  - rewrite !transform_style_set. unfold d2. rewrite transform_transform_set.
    by rewrite decide_True by (by rewrite Hl1).
  - intros e He. rewrite !style_style_set, !style_set_length, Hl2 by done.
    repeat case_decide; try done. set_solver.
  - intros e. rewrite !classes_style_set. unfold d2, d1.
    by rewrite classes_transform_set, classes_textContent_set.
  - intros e He. rewrite !style_style_set_full, !style_set_length, Hl2.
    rewrite !textContent_style_set, !transform_style_set. unfold d2, d1.
    rewrite style_transform_set, style_textContent_set.
    rewrite textContent_transform_set, textContent_textContent_set.
    rewrite transform_transform_set, transform_textContent_set, textContent_set_length.
    rewrite !decide_False by set_solver. done.
Qed.

(* onNodeLeave when the tooltip is there and whole. *)
Lemma onNodeLeave_eq w node tip trect ttext :
  tooltip (this w) = Ref tip →
  querySelector (doc (host w)) tip (ByClass "interactive-tooltip") = Ref trect →
  querySelector (doc (host w)) tip (ByClass "interactive-tooltip-text") = Ref ttext →
  onNodeLeave node w = on_doc (leave_doc tip trect ttext) w.
Proof.
  intros Htip Hr Ht. unfold onNodeLeave. rewrite Htip. cbv zeta.
  assert (Hq : ∀ c, querySelector
                      (doc (host (on_doc (style_set "opacity" (SStr "0") tip) w)))
                      tip (ByClass c) = querySelector (doc (host w)) tip (ByClass c)).
  { intros c. destruct w as [[] []]; simpl. apply querySelector_same_tree.
    - apply same_tree_style_set.
    - intros e. by rewrite classes_style_set. }
  rewrite !Hq, Hr, Ht. by destruct w as [[] []].
Qed.

(** X17: on an InteractiveDiagramController whose tooltip is whole, leaving
    a node hides the tooltip: group, rect and text get opacity 0; the
    tooltip's text and position, every class, and every other element stay
    as they were. *)
Theorem interactive_leave_hides_tooltip w node tip trect ttext :
  tooltip (this w) = Ref tip →
  querySelector (doc (host w)) tip (ByClass "interactive-tooltip") = Ref trect →
  querySelector (doc (host w)) tip (ByClass "interactive-tooltip-text") = Ref ttext →
  tip < length (doc (host w)) →
  let w' := onNodeLeave node w in
  let d := doc (host w) in
  let d' := doc (host w') in
  this w' = this w ∧
  (∀ e, e ∈ [tip; trect; ttext] → style d' e !! "opacity" = Some (SStr "0")) ∧
  (∀ e, classes d' e = classes d e ∧ textContent d' e = textContent d e ∧
        transform d' e = transform d e) ∧
  (∀ e, e ∉ [tip; trect; ttext] → style d' e = style d e).
Proof.
  intros Htip Hr Ht Hlt. cbv zeta.
  rewrite (onNodeLeave_eq w node tip trect ttext) by done.
  pose proof (querySelector_lt _ _ _ _ Hr) as Hlr.
  pose proof (querySelector_lt _ _ _ _ Ht) as Hlt'.
  destruct w as [[d ls evs ts nt fs nf cs nw co] c]; simpl in *.
  unfold leave_doc. split; [done|]. split; [|split].
  - intros e He. rewrite !style_style_set, !style_set_length by done.
    repeat case_decide; try done. set_solver.
  - intros e. by rewrite !classes_style_set, !textContent_style_set, !transform_style_set.
  - intros e He. rewrite !style_style_set_full, !style_set_length.
    rewrite !decide_False by set_solver. done.
Qed.

End InteractiveHover.

Section InteractiveConstructor.
Import InteractiveDiagramController.
Implicit Types (w : World t) (e node : elem) (d : list Element).

Lemma init_tooltip w s :
  svg (this w) = Ref s →
  tooltip (this (init w)) =
  if showTooltip (options (this w)) then Ref (length (doc (host w))) else tooltip (this w).
Proof.
  intros Hs. unfold init. rewrite Hs. cbv zeta.
  match goal with |- context [forEach ?f ?l ?w] =>
    destruct (forEach_listeners node_listeners f l w) as (Ht & _) end.
  { intros a [[] c]; simpl. by rewrite <- !app_assoc. }
  rewrite Ht. simpl. by destruct (showTooltip _), w as [[] []].
Qed.

(** X18: the InteractiveDiagramController constructor, when the container
    exists on a page whose elements have their parents on the page.  With
    showTooltip false it leaves the document as it is and stores no
    tooltip, and a hover then does nothing.  Otherwise (showTooltip left
    out or true) it appends the tooltip group, its rect and its text to the
    document as the container's last child and stores the group; whatever
    is clicked afterwards, the group's '.interactive-tooltip' is that rect
    and its '.interactive-tooltip-text' is that text. *)
Theorem interactive_constructor_tooltip svgElementId o d s (l : list elem) :
  page_ok d → getElementById d svgElementId = Ref s →
  let w0 := new svgElementId o (page d) in
  let w := clicks l w0 in
  let g := length d in
  (given_showTooltip o = Some false →
   doc (host w0) = d ∧ tooltip (this w) = Null ∧
   ∀ node, onNodeHover node w = (Normal, w)) ∧
  (given_showTooltip o ≠ Some false →
   doc (host w0) = d ++ [tooltip_group s; tooltip_rect g; tooltip_text g] ∧
   showTooltip (options (this w)) = true ∧ tooltip (this w) = Ref g ∧
   querySelector (doc (host w)) g (ByClass "interactive-tooltip") = Ref (g + 1) ∧
   querySelector (doc (host w)) g (ByClass "interactive-tooltip-text") = Ref (g + 2) ∧
   g + 2 < length (doc (host w))).
Proof.
  intros Hok Hs w0 w g.
  destruct (clicks_new_clicked_from svgElementId o d l) as (Hc & _).
  fold w0 in Hc. fold w in Hc.
  destruct Hc as [Htree Hcls _ (_ & _ & Htip & Hopt) _].
  assert (H0 : doc (host w0) =
               (if showTooltip (merge o)
                then d ++ [tooltip_group s; tooltip_rect g; tooltip_text g] else d) ∧
               tooltip (this w0) = (if showTooltip (merge o) then Ref g else Null) ∧
               options (this w0) = merge o).
  { unfold w0, new. set (wi := mkWorld (page d) _).
    destruct (init_shape wi s Hs) as ((_ & _ & _ & Ho & _) & Hd & _).
    rewrite Hd, Ho, (init_tooltip wi s Hs). simpl.
    by destruct (default true (given_showTooltip o)). }
  destruct H0 as (Hd0 & Ht0 & Ho0). rewrite Htip, Ht0. rewrite Hopt, Ho0.
  unfold merge in *. simpl in *. split.
  - intros Hf. rewrite Hf in *. simpl in *. split; [done|]. split; [done|].
    intros node. unfold onNodeHover. by rewrite Hopt, Ho0.
  - intros Hf. assert (Hst : default true (given_showTooltip o) = true)
      by (by destruct (given_showTooltip o) as [[]|]).
    rewrite Hst in *. split; [done|]. split; [done|]. split; [done|].
    pose proof (getElementById_lt d svgElementId s Hs) as Hlt.
    assert (Hq : ∀ c, c ≠ "selected" → c ≠ "active" →
              querySelector (doc (host w)) g (ByClass c) =
              querySelector (doc (host w0)) g (ByClass c)).
    { intros c H1 H2. apply querySelector_same_tree; [done|].
      intros e. by apply Hcls. }
    rewrite !Hq by done. rewrite Hd0. unfold querySelector.
    rewrite !(querySelectorAll_tooltip d s) by done. simpl.
    split; [done|]. split; [done|].
    destruct Htree as [-> _]. rewrite Hd0, length_app. simpl. unfold g. lia.
Qed.

Lemma page_ok_interactive_page third : page_ok (interactive_page third).
Proof.
  intros e x p He Hp.
  destruct e as [|[|[|[|[|[|[|e]]]]]]]; simpl in He; try done;
    injection He as <-; simpl in Hp;
    first [discriminate | injection Hp as <-; simpl; lia].
Qed.

Lemma interactive_constructor_tooltip_witness :
  let w := clicks [2] (new "diagram" no_options
                         (page (interactive_page ["interactive-node"]))) in
  tooltip (this w) = Ref 7 ∧
  querySelector (doc (host w)) 7 (ByClass "interactive-tooltip") = Ref 8 ∧
  querySelector (doc (host w)) 7 (ByClass "interactive-tooltip-text") = Ref 9.
Proof.
  intros w.
  assert (Hs : getElementById (interactive_page ["interactive-node"]) "diagram" = Ref 0)
    by (vm_compute; reflexivity).
  destruct (interactive_constructor_tooltip "diagram" no_options
              (interactive_page ["interactive-node"]) 0 [2]
              (page_ok_interactive_page _) Hs) as (_ & H).
  fold w in H. clearbody w. destruct H as (_ & _ & H1 & H2 & H3 & _); [done|].
  by repeat split.
Defined.

Lemma interactive_hover_shows_tooltip_witness :
  let w := new "diagram" no_options (page (interactive_page ["interactive-node"])) in
  let r := onNodeHover 2 w in
  r.1 = Normal ∧ textContent (doc (host r.2)) 9 = "Condenser" ∧
  transform (doc (host r.2)) 7 = Some (10, -20)%Z ∧
  style (doc (host r.2)) 8 !! "opacity" = Some (SStr "1").
Proof.
  intros w r.
  assert (H1 : showTooltip (options (this w)) = true) by (vm_compute; reflexivity).
  assert (H2 : tooltip (this w) = Ref 7) by (vm_compute; reflexivity).
  assert (H3 : querySelector (doc (host w)) 7 (ByClass "interactive-tooltip") = Ref 8)
    by (vm_compute; reflexivity).
  assert (H4 : querySelector (doc (host w)) 7 (ByClass "interactive-tooltip-text") = Ref 9)
    by (vm_compute; reflexivity).
  assert (H5 : 7 < length (doc (host w))) by (vm_compute; lia).
  assert (Hlab : hover_label (doc (host w)) 2 = "Condenser") by (vm_compute; reflexivity).
  assert (Hpos : hover_position (doc (host w)) 2 = (10, -20)%Z)
    by (vm_compute; reflexivity).
  destruct (interactive_hover_shows_tooltip w 2 7 8 9 H1 H2 H3 H4 H5)
    as (Hn & _ & Ht & Htr & Hop & _).
  fold r in Hn, Ht, Htr, Hop. clearbody r. clearbody w.
  rewrite Hlab in Ht. rewrite Hpos in Htr.
  split; [done|]. split; [done|]. split; [done|]. apply Hop. set_solver.
Defined.

Lemma interactive_leave_hides_tooltip_witness :
  let w := (onNodeHover 2 (new "diagram" no_options
                             (page (interactive_page ["interactive-node"])))).2 in
  let w' := onNodeLeave 2 w in
  style (doc (host w)) 7 !! "opacity" = Some (SStr "1") ∧
  style (doc (host w')) 7 !! "opacity" = Some (SStr "0") ∧
  style (doc (host w')) 9 !! "opacity" = Some (SStr "0") ∧
  textContent (doc (host w')) 9 = "Condenser".
Proof.
  intros w w'.
  assert (H0 : style (doc (host w)) 7 !! "opacity" = Some (SStr "1"))
    by (vm_compute; reflexivity).
  assert (H2 : tooltip (this w) = Ref 7) by (vm_compute; reflexivity).
  assert (H3 : querySelector (doc (host w)) 7 (ByClass "interactive-tooltip") = Ref 8)
    by (vm_compute; reflexivity).
  assert (H4 : querySelector (doc (host w)) 7 (ByClass "interactive-tooltip-text") = Ref 9)
    by (vm_compute; reflexivity).
  assert (H5 : 7 < length (doc (host w))) by (vm_compute; lia).
  assert (Htx : textContent (doc (host w)) 9 = "Condenser") by (vm_compute; reflexivity).
  destruct (interactive_leave_hides_tooltip w 2 7 8 9 H2 H3 H4 H5) as (_ & Hop & Hk & _).
  fold w' in Hop, Hk. clearbody w'. clearbody w.
  destruct (Hk 9) as (_ & Ht & _). rewrite Htx in Ht.
  split; [done|]. split; [apply Hop; set_solver|]. split; [apply Hop; set_solver|done].
Defined.

Lemma interactive_reset_undoes_clicks_witness :
  let w0 := new "diagram" no_options (page (interactive_page ["interactive-node"])) in
  let w' := reset (clicks [1; 4] w0) in
  nodes (this w0) = [1; 2; 4] ∧ getSelectedNode (clicks [1; 4] w0) = Ref 4 ∧
  ("selected" ∉ classes (doc (host w')) 4) ∧ getSelectedNode w' = Null.
Proof.
  intros w0 w'.
  assert (Hns : nodes (this w0) = [1; 2; 4]) by (vm_compute; reflexivity).
  assert (Hsel : getSelectedNode (clicks [1; 4] w0) = Ref 4) by (vm_compute; reflexivity).
  destruct (interactive_reset_undoes_clicks "diagram" no_options
              (interactive_page ["interactive-node"]) [1; 4]
              unselected_interactive_page) as (H1 & _ & H2 & _).
  fold w0 in H1, H2. fold w' in H1, H2. clearbody w'. clearbody w0.
  rewrite Hns in H1. split; [done|]. split; [done|]. split; [|done].
  apply H1. set_solver.
Defined.


Lemma interactive_clicks_without_highlight_witness :
  let w0 := new "diagram" (mkGiven None (Some false))
              (page (interactive_page ["interactive-node"])) in
  "active" ∉ classes (doc (host (clicks [1; 2] w0))) 5.
Proof.
  intros w0.
  assert (H0 : "active" ∉ classes (doc (host w0)) 5) by (vm_compute; set_solver).
  pose proof (interactive_clicks_without_highlight "diagram" (mkGiven None (Some false))
                (interactive_page ["interactive-node"]) [1; 2] 5 eq_refl) as H.
  cbv zeta in H. fold w0 in H. clearbody w0. by rewrite H.
Defined.

Lemma interactive_onNodeClick_without_container_witness :
  let r := onNodeClick 1 (new "missing" no_options
                            (page (interactive_page ["interactive-node"]))) in
  r.1 = Throw "TypeError" ∧ getSelectedNode r.2 = Ref 1.
Proof.
  intros r.
  assert (Hm : getElementById (interactive_page ["interactive-node"]) "missing" = Null)
    by (vm_compute; reflexivity).
  destruct (interactive_onNodeClick_without_container "missing" no_options
              (interactive_page ["interactive-node"]) 1 Hm) as (H1 & H2 & _).
  fold r in H1, H2. clearbody r. by split.
Defined.

End InteractiveConstructor.

(* --------------------------------------------------------------------- *)
(*  Further properties: StateDiagramController                           *)
(* --------------------------------------------------------------------- *)

Section StateDiagramMore.
Import StateDiagramController.
Implicit Types (w : World t) (e : elem).

Lemma state_new_wired svgElementId d s :
  getElementById d svgElementId = Ref s →
  let w := new svgElementId (page d) in
  state_wired w ∧ states (this w) = querySelectorAll d s (ByClass "state-node") ∧
  doc (host w) = d ∧ timers (host w) = [] ∧ currentState (this w) = Null.
Proof.
  intros Hs. cbv zeta. unfold new, init. simpl. rewrite Hs.
  match goal with |- context [forEach ?f ?l ?w] =>
    destruct (forEach_listeners
                (λ state, [mkListener state "click" (StateClick state)]) f l w)
      as (Ht & Hd & Htm & Hl) end.
  { by intros a [[] c]. }
  simpl in *. split; [split|]; rewrite ?Ht, ?Hd, ?Htm, ?Hl; simpl; try done.
  - by exists s.
  - apply querySelectorAll_NoDup.
  - apply querySelectorAll_refs_ok.
Qed.








(** X20: the StateDiagramController constructor, when the container
    exists, collects the container's '.state-node' descendants in document
    order and wires a click listener to each; it marks no state, stores no
    current state, and leaves the document as it is. *)
Theorem state_constructor_wires svgElementId d s :
  getElementById d svgElementId = Ref s →
  let w := new svgElementId (page d) in
  state_wired w ∧ states (this w) = querySelectorAll d s (ByClass "state-node") ∧
  doc (host w) = d ∧ getCurrentState w = Null.
Proof.
  intros Hs. destruct (state_new_wired svgElementId d s Hs) as (H1 & H2 & H3 & _ & H4).
  split; [exact H1|]. split; [exact H2|]. split; [exact H3|exact H4].
Qed.

(* The view is all find_state reads. *)
Lemma find_state_view w1 w2 id : view w1 = view w2 → find_state w1 id = find_state w2 id.
Proof.
  destruct w1 as [[] c1], w2 as [[] c2]. unfold view. simpl. by intros [= -> -> ->].
Qed.

(** X21: when no identifier of the list matches a state element (the
    empty list among them), playSequence never makes a transition: after
    any number of timer callbacks the document, the controller and the
    dispatched events are what they were, while the timer loop goes on. *)
Theorem playSequence_without_match stateIds interval w :
  constructed w → timers (host w) = [] →
  (∀ id, id ∈ stateIds → find_state w (Some id) = None) →
  ∀ j, view (playing stateIds interval j w) = view w ∧
       timers (host (playing stateIds interval j w)) ≠ [].
Proof.
  intros Hc Hts Hno.
  assert (Hstep : ∀ w' k, view w' = view w →
            view (step_to (stateIds !! k) w') = view w).
  { intros w' k Hv. destruct (stateIds !! k) as [id|] eqn:Hk.
    - unfold step_to. rewrite (find_state_view w' w) by done.
      rewrite Hno; [done|]. eapply list_elem_of_lookup_2, Hk.
    - by rewrite step_to_undefined. }
  destruct (playSequence_cycling stateIds interval w Hc Hts) as (_ & Hv0 & index & Hcy0).
  assert (H : ∀ j, cycling stateIds (default 1500%Z interval) (now (host w)) index j
                     (playing stateIds interval j w) ∧
                   view (playing stateIds interval j w) = view w).
  { induction j as [|j (IHc & IHv)].
    - split; [done|]. change (playing stateIds interval 0 w)
        with (playSequence stateIds interval w).2. rewrite Hv0. by apply Hstep.
    - destruct (fire_cycling _ _ _ _ _ _ IHc) as (Hc' & Hv').
      split; [done|].
      change (playing stateIds interval (S j) w)
        with (fire_timer call (playing stateIds interval j w)).
      rewrite Hv'. by apply Hstep. }
  intros j. destruct (H j) as (Hcy & Hv). split; [done|].
  destruct (cycling_timer _ _ _ _ _ _ Hcy) as [hd ->]. done.
Qed.


Lemma state_constructor_wires_witness :
  let w := new "states" (page state_page) in
  states (this w) = [1; 2; 3] ∧ doc (host w) = state_page ∧ getCurrentState w = Null.
Proof.
  intros w.
  assert (Hs0 : getElementById state_page "states" = Ref 0) by (vm_compute; reflexivity).
  assert (Hst : states (this w) = [1; 2; 3]) by (vm_compute; reflexivity).
  destruct (state_constructor_wires "states" state_page 0 Hs0) as (_ & _ & H1 & H2).
  fold w in H1, H2. clearbody w. split; [exact Hst|]. split; [exact H1|exact H2].
Defined.

Lemma playSequence_without_match_witness :
  let w := new "states" (page state_page) in
  view (playing ["off"; "on"] None 5 w) = view w ∧
  view (playing [] None 5 w) = view w.
Proof.
  intros w.
  assert (Hs : svg (this w) = Ref 0) by (vm_compute; reflexivity).
  assert (Hc : constructed w) by (left; exists 0; exact Hs).
  assert (Hts : timers (host w) = []) by (vm_compute; reflexivity).
  assert (H1 : find_state w (Some "off") = None) by (vm_compute; reflexivity).
  assert (H2 : find_state w (Some "on") = None) by (vm_compute; reflexivity).
  clearbody w. split.
  - apply (playSequence_without_match ["off"; "on"] None w Hc Hts).
    intros id Hid. apply list_elem_of_In in Hid. simpl in Hid.
    destruct Hid as [<-|[<-|[]]]; done.
  - apply (playSequence_without_match [] None w Hc Hts).
    intros id Hid. by inversion Hid.
Defined.

End StateDiagramMore.

(* --------------------------------------------------------------------- *)
(*  Further properties: RefrigerationCycleController                     *)
(* --------------------------------------------------------------------- *)

Section RefrigerationMore.
Import RefrigerationCycleController.
Implicit Types (w : World t).

(* Without a flow path nothing ever runs. *)
Lemma act_without_flowPath a w :
  truthy (flowPath (this w)) = false → isAnimating (this w) = false →
  frames (host w) = [] →
  let w' := act a w in
  truthy (flowPath (this w')) = false ∧ isAnimating (this w') = false ∧
  frames (host w') = [] ∧ doc (host w') = doc (host w).
Proof.
  intros Hfp Hi Hf. cbv zeta.
  assert (Hstart : truthy (flowPath (this (startAnimation w))) = false ∧
                   isAnimating (this (startAnimation w)) = false ∧
                   frames (host (startAnimation w)) = [] ∧
                   doc (host (startAnimation w)) = doc (host w)).
  { unfold startAnimation. rewrite Hi. simpl.
    rewrite animate_idle by (right; by destruct w as [[] []]).
    by destruct w as [[] []]. }
  destruct a; simpl.
  - done.
  - unfold stopAnimation. destruct w as [[] []]; simpl in *. subst.
    by destruct animationFrame0.
  - unfold toggleAnimation. by rewrite Hi.
  - unfold fire_frame. by rewrite Hf.
Qed.

(** X22: a RefrigerationCycleController that has no flow path (its
    container is missing, or holds no '.refrigerant-flow' element) never
    animates: after any calls of startAnimation, stopAnimation and
    toggleAnimation and any frames, the running flag is off, no frame
    callback is pending and the document is untouched. *)
Theorem refrigeration_without_flow_path svgElementId d (l : list action) :
  let w0 := new svgElementId (page d) in
  truthy (flowPath (this w0)) = false →
  let w := run l w0 in
  isAnimating (this w) = false ∧ frames (host w) = [] ∧ doc (host w) = d.
Proof.
  intros w0 Hfp w.
  assert (H0 : isAnimating (this w0) = false ∧ frames (host w0) = [] ∧
               doc (host w0) = d).
  { unfold w0, new, init. simpl. by destruct (getElementById d svgElementId). }
  destruct H0 as (Hi & Hf & Hd). unfold w. clearbody w0. clear w.
  rewrite <- Hd. clear Hd. unfold run.
  assert (Hgen : ∀ l w1, truthy (flowPath (this w1)) = false →
            isAnimating (this w1) = false → frames (host w1) = [] →
            isAnimating (this (fold_left (λ w a, act a w) l w1)) = false ∧
            frames (host (fold_left (λ w a, act a w) l w1)) = [] ∧
            doc (host (fold_left (λ w a, act a w) l w1)) = doc (host w1)).
  { clear. induction l as [|a l IH]; intros w1 H1 H2 H3; [done|]. simpl.
    destruct (act_without_flowPath a w1 H1 H2 H3) as (H1' & H2' & H3' & <-).
    by apply IH. }
  by apply Hgen.
Qed.

(** X23: on a RefrigerationCycleController that has a flow path, whatever
    was called and however many frames ran before, toggleAnimation() flips
    the running flag; and after stopAnimation() frames change nothing, so
    the dash offset stays where the animation left it. *)
Theorem refrigeration_toggle_and_freeze svgElementId d (l : list action) path :
  let w := run l (new svgElementId (page d)) in
  flowPath (this w) = Ref path →
  isAnimating (this (toggleAnimation w)) = negb (isAnimating (this w)) ∧
  ∀ k, Nat.iter k (fire_frame call) (stopAnimation w) = stopAnimation w.
Proof.
  intros w Hp.
  pose proof (run_steady _ l _ (new_steady svgElementId d)) as Hst. fold w in Hst.
  split.
  - unfold toggleAnimation. destruct (isAnimating (this w)) eqn:Hi.
    + by destruct (stopAnimation_frames _ w Hst) as (_ & ->).
    + destruct (startAnimation_first _ w path Hst Hi Hp) as (hd & offset & Hf & _).
      pose proof (startAnimation_steady _ w Hst) as (_ & _ & Hm).
      rewrite Hf in Hm. by destruct Hm as (-> & _).
  - destruct (stopAnimation_frames _ w Hst) as (Hf & _).
    induction k as [|k IH]; [done|]. simpl. rewrite IH. unfold fire_frame.
    by rewrite Hf.
Qed.

Lemma refrigeration_without_flow_path_witness :
  let w := run [Start; Frame; Toggle; Frame; Stop; Start]
             (new "states" (page state_page)) in
  isAnimating (this w) = false ∧ frames (host w) = [] ∧ doc (host w) = state_page.
Proof.
  intros w.
  assert (Hfp : truthy (flowPath (this (new "states" (page state_page)))) = false)
    by (vm_compute; reflexivity).
  exact (refrigeration_without_flow_path "states" state_page
           [Start; Frame; Toggle; Frame; Stop; Start] Hfp).
Defined.

Lemma refrigeration_toggle_and_freeze_witness :
  let w := run [Start; Frame] (new "fridge" (page fridge_page)) in
  isAnimating (this w) = true ∧ isAnimating (this (toggleAnimation w)) = false ∧
  dashoffset (Nat.iter 3 (fire_frame call) (stopAnimation w)) = Some (SNum 4).
Proof.
  intros w.
  assert (Hp : flowPath (this w) = Ref 1) by (vm_compute; reflexivity).
  assert (Hi : isAnimating (this w) = true) by (vm_compute; reflexivity).
  assert (Hd : dashoffset (stopAnimation w) = Some (SNum 4)) by (vm_compute; reflexivity).
  destruct (refrigeration_toggle_and_freeze "fridge" fridge_page [Start; Frame] 1 Hp)
    as (H1 & H2).
  fold w in H1, H2. clearbody w. rewrite Hi in H1. rewrite (H2 3).
  by repeat split.
Defined.

End RefrigerationMore.

Lemma missing_container_registers_nothing_witness :
  let w := StateDiagramController.new "missing" (page state_page) in
  host w = page state_page ∧ StateDiagramController.states (this w) = [].
Proof.
  intros w.
  assert (Hm : getElementById state_page "missing" = Null) by (vm_compute; reflexivity).
  destruct (missing_container_registers_nothing state_page "missing" Hm)
    as (_ & _ & _ & H & _).
  exact H.
Defined.

Lemma missing_container_interactive_safe_witness :
  let w := InteractiveDiagramController.new "missing"
             InteractiveDiagramController.no_options (page state_page) in
  InteractiveDiagramController.getSelectedNode w = Null ∧
  InteractiveDiagramController.reset w = w ∧
  InteractiveDiagramController.onNodeHover 1 w = (Normal, w).
Proof.
  intros w.
  assert (Hm : getElementById state_page "missing" = Null) by (vm_compute; reflexivity).
  destruct (missing_container_interactive_safe state_page "missing" Hm
              InteractiveDiagramController.no_options 1) as (H1 & H2 & H3 & _).
  fold w in H1, H2, H3. clearbody w. by repeat split.
Defined.
